(** * cheatingDaddy: audio framing, PCM conversion, speech queue,
      session history and rate-limit recovery

    A shallow embedding of the client-side orchestration code of
    [src/utils/gemini.js] and of the browser build's speech queue, with
    the properties its specification states about them.

    Conventions of the embedding.
    - A Node [Buffer] is a [list byte].
    - A JavaScript string is a [string]: a sequence of code units below
      256 (the Latin-1 range); the character classes of the regular
      expressions and [toLowerCase] are written out for that range.
    - A JavaScript number that is an integer is a [Z]; an arbitrary
      finite double is the rational it denotes, a [Q], and every
      arithmetic operation rounds its exact result to 53 bits, to
      nearest, ties to even (module [Dbl]).  Overflow and subnormals are
      out of the model: every value below stays far inside the normal
      range.
    - Asynchronous code is a transition system whose events are the
      calls and the completions of awaited operations. *)

(** The development also covers code around the one the specification
    speaks of: the IPC handlers of the session, [sendAudioToGemini] and
    [chatWithGeminiText] (module [Ipc]); the settings, the history, the
    requests, the initialisation and the speech buffers of the browser
    build (module [WebApp]); and the port search of its development
    server (module [DevServer]).  There
    - [localStorage] is its function [getItem];
    - what the network, the microphone and the screenshot do is an
      argument of the function that uses them;
    - a built-in whose result the code only tests or passes on
      ([Number] on a string, [JSON.parse], the length of a base64
      decoding, [getGeminiMessageHint] of [./prompts]) is a variable
      of a section. *)

From Stdlib Require Import Strings.String Strings.Ascii Strings.Byte.
From Stdlib Require Import Numbers.DecimalString.
From Stdlib Require Import ZArith QArith Qround Qpower Qfield Lqa.
From Stdlib Require Import List Bool Arith Lia.
Import ListNotations.

Close Scope Q_scope.

(* ================================================================== *)
(** * Part I: the model                                                *)
(* ================================================================== *)

(** ** IEEE 754 arithmetic on finite values *)

Module Dbl.

Local Open Scope Q_scope.

Definition pow2 (e : Z) : Q := 2 ^ e.

(** For positive [q], the exponent [k] with [2^k <= q < 2^(k+1)]: the
    difference of the bit lengths of numerator and denominator, or one
    less. *)
Definition ilog2_floor (q : Q) : Z :=
  let k := (Z.log2 (Qnum q) - Z.log2 (Zpos (Qden q)))%Z in
  if Qle_bool (pow2 k) q then k else (k - 1)%Z.

(** The integer nearest to [x], a tie going to the even one. *)
Definition nearest_even (x : Q) : Z :=
  let fl := Qfloor x in
  match Qcompare (x - inject_Z fl) (1 # 2) with
  | Lt => fl
  | Gt => (fl + 1)%Z
  | Eq => if Z.even fl then fl else (fl + 1)%Z
  end.

(** Rounding of a positive rational to a significand of [prec] bits:
    scale it into [[2^(prec-1), 2^prec)], round to an integer, scale
    back. *)
Definition round_pos (prec : Z) (q : Q) : Q :=
  let e := (ilog2_floor q - (prec - 1))%Z in
  Qred (inject_Z (nearest_even (q / pow2 e)) * pow2 e).

Definition round_ne (prec : Z) (q : Q) : Q :=
  match Qnum q with
  | Z0 => 0
  | Zpos _ => round_pos prec q
  | Zneg _ => - round_pos prec (- q)
  end.

(** binary64, the type of every JavaScript number *)
Definition double (q : Q) : Q := round_ne 53 q.
(** binary32, the element type of a [Float32Array] *)
Definition fround (q : Q) : Q := round_ne 24 q.

Definition add (a b : Q) : Q := double (a + b).
Definition mul (a b : Q) : Q := double (a * b).
Definition div (a b : Q) : Q := double (a / b).

Definition ltb (a b : Q) : bool :=
  match Qcompare a b with Lt => true | _ => false end.

Definition max (a b : Q) : Q := if ltb a b then b else a.
Definition min (a b : Q) : Q := if ltb b a then b else a.

(** [Math.round]: the nearest integer, a tie going towards +infinity. *)
Definition round (x : Q) : Z := Qfloor (x + (1 # 2)).
(** [Math.ceil] *)
Definition ceil (x : Q) : Z := Qceiling x.

End Dbl.

(** ** PCM buffers: framing and sample conversion (gemini.js) *)

Module Pcm.

Definition buffer := list byte.

(** [Buffer.prototype.readInt16LE] on the two bytes at the offset. *)
Definition readInt16LE (lo hi : byte) : Z :=
  let u := (Z.of_N (Byte.to_N lo) + 256 * Z.of_N (Byte.to_N hi))%Z in
  if (u <? 32768)%Z then u else (u - 65536)%Z.

(** [Buffer.prototype.writeInt16LE]: the two bytes written; a value
    outside the Int16 range raises [ERR_OUT_OF_RANGE] ([None]). *)
Definition writeInt16LE (v : Z) : option (byte * byte) :=
  if ((-32768 <=? v) && (v <=? 32767))%Z then
    let u := (v mod 65536)%Z in
    match Byte.of_N (Z.to_N (u mod 256)), Byte.of_N (Z.to_N (u / 256)) with
    | Some lo, Some hi => Some (lo, hi)
    | _, _ => None
    end
  else None.

(** [convertStereoToMono]: the left sample of every interleaved pair.
    A buffer whose length is no multiple of 4 makes the last read or
    write fall outside its buffer, which raises. *)
Fixpoint convertStereoToMono (stereoBuffer : buffer) : option buffer :=
  match stereoBuffer with
  | [] => Some []
  | l0 :: l1 :: _ :: _ :: rest =>
      match writeInt16LE (readInt16LE l0 l1), convertStereoToMono rest with
      | Some (b0, b1), Some mono => Some (b0 :: b1 :: mono)
      | _, _ => None
      end
  | _ => None
  end.

(** [convertPCMBufferToFloat32]: the stored elements are binary32. *)
Definition int16ToFloat32 (int16Sample : Z) : Q :=
  Dbl.fround
    (Dbl.div (inject_Z int16Sample)
             (if (int16Sample <? 0)%Z then 32768%Q else 32767%Q)).

Fixpoint convertPCMBufferToFloat32 (pcmBuffer : buffer) : option (list Q) :=
  match pcmBuffer with
  | [] => Some []
  | lo :: hi :: rest =>
      match convertPCMBufferToFloat32 rest with
      | Some fs => Some (int16ToFloat32 (readInt16LE lo hi) :: fs)
      | None => None
      end
  | _ => None
  end.

(** [convertFloat32ToPCMBuffer] *)
Definition float32ToInt16 (x : Q) : Z :=
  let sample := Dbl.max (-1)%Q (Dbl.min 1%Q x) in
  let int16Sample :=
    if Dbl.ltb sample 0%Q then Dbl.mul sample 32768%Q
    else Dbl.mul sample 32767%Q in
  Dbl.round int16Sample.

Fixpoint convertFloat32ToPCMBuffer (float32Array : list Q) : option buffer :=
  match float32Array with
  | [] => Some []
  | x :: rest =>
      match writeInt16LE (float32ToInt16 x), convertFloat32ToPCMBuffer rest with
      | Some (lo, hi), Some bs => Some (lo :: hi :: bs)
      | _, _ => None
      end
  end.

(** The constants of [startMacOSAudioCapture]. *)
Definition CHUNK_DURATION : Q := Dbl.double (1 # 10)%Q.
Definition SAMPLE_RATE : Z := 24000.
Definition BYTES_PER_SAMPLE : Z := 2.
Definition CHANNELS : Z := 2.
Definition CHUNK_SIZE_number : Q :=
  Dbl.mul (inject_Z (SAMPLE_RATE * BYTES_PER_SAMPLE * CHANNELS)) CHUNK_DURATION.
Definition CHUNK_SIZE : nat := Z.to_nat (Qfloor CHUNK_SIZE_number).
Definition maxBufferSize : nat := Z.to_nat (SAMPLE_RATE * BYTES_PER_SAMPLE * 1).

(** [buf.slice(-n)] for [0 < n]: the last [n] bytes. *)
Definition slice_last (n : nat) (buf : buffer) : buffer :=
  skipn (length buf - n) buf.

(** Where the handler sends a frame. *)
Inductive sink := Skipped | ToVAD | ToGroq | ToGemini.

(** The module-level flags the handler reads. *)
Record routing := {
  macVADEnabled : bool;
  macMicrophoneEnabled : bool;
  vadProcessorReady : bool;   (* macVADProcessor && .vad && state !== 'IDLE' *)
  groqInitialized : bool
}.

Record emitted := {
  chunk : buffer;
  monoChunk : option buffer;
  destination : sink
}.

Definition route (r : routing) : sink :=
  if macVADEnabled r && negb (macMicrophoneEnabled r) then Skipped
  else if macVADEnabled r && vadProcessorReady r then ToVAD
  else if groqInitialized r then ToGroq
  else ToGemini.

(** The [while (audioBuffer.length >= CHUNK_SIZE)] loop; [fuel] bounds
    the number of iterations. *)
Fixpoint frame_loop (fuel : nat) (size : nat) (audioBuffer : buffer)
  : list buffer * buffer :=
  match fuel with
  | O => ([], audioBuffer)
  | S fuel' =>
      if size <=? length audioBuffer then
        let (frames, rest) := frame_loop fuel' size (skipn size audioBuffer) in
        (firstn size audioBuffer :: frames, rest)
      else ([], audioBuffer)
  end.

Definition split_frames (size : nat) (audioBuffer : buffer) :=
  frame_loop (S (length audioBuffer)) size audioBuffer.

(** Did the call take the overflow-trim branch? *)
Definition trim_taken (audioBuffer data : buffer) : bool :=
  maxBufferSize <? length (snd (split_frames CHUNK_SIZE (audioBuffer ++ data))).

(** The ['data'] handler of the capture process: the frames it emits,
    in order, and the buffer it leaves. *)
Definition on_data (r : routing) (audioBuffer data : buffer)
  : list emitted * buffer :=
  let (frames, rest) := split_frames CHUNK_SIZE (audioBuffer ++ data) in
  let out := map (fun c => {| chunk := c;
                              monoChunk := convertStereoToMono c;
                              destination := route r |}) frames in
  (out, if maxBufferSize <? length rest then slice_last maxBufferSize rest else rest).

(** A run of the handler over successive ['data'] events. *)
Fixpoint feed (events : list (routing * buffer)) (audioBuffer : buffer)
  : list emitted * buffer :=
  match events with
  | [] => ([], audioBuffer)
  | (r, data) :: more =>
      let (out, buf') := on_data r audioBuffer data in
      let (outs, final) := feed more buf' in
      (out ++ outs, final)
  end.

End Pcm.

(** ** JavaScript strings, on code units below 256 *)

Module JsString.

Local Open Scope string_scope.

Definition code (c : ascii) : N := N_of_ascii c.

Definition in_range (lo hi : N) (c : ascii) : bool :=
  ((lo <=? code c) && (code c <=? hi))%N.

(** [\d] *)
Definition is_digit (c : ascii) : bool := in_range 48 57 c.

(** [\w], which is ASCII-only: letters, digits and the underscore *)
Definition is_word (c : ascii) : bool :=
  in_range 97 122 c || in_range 65 90 c || is_digit c || (code c =? 95)%N.

(** [\s] and the characters [trim] removes: TAB, LF, VT, FF, CR, space
    and the no-break space *)
Definition is_space (c : ascii) : bool :=
  in_range 9 13 c || (code c =? 32)%N || (code c =? 160)%N.

(** [String.prototype.toLowerCase]: A-Z, and the capitals of the
    Latin-1 supplement (all of 192..222 but the multiplication sign) *)
Definition lower_char (c : ascii) : ascii :=
  if in_range 65 90 c || (in_range 192 222 c && negb (code c =? 215)%N)
  then ascii_of_N (code c + 32) else c.

Fixpoint toLowerCase (s : string) : string :=
  match s with
  | EmptyString => EmptyString
  | String c rest => String (lower_char c) (toLowerCase rest)
  end.

(** What follows the prefix [p] in [s], when [s] starts with [p]. *)
Fixpoint strip_prefix (p s : string) : option string :=
  match p, s with
  | EmptyString, _ => Some s
  | String a p', String b s' =>
      if Ascii.eqb a b then strip_prefix p' s' else None
  | String _ _, EmptyString => None
  end.

(** The same for a lower-case [p] matched without regard to case, as
    under the [i] flag. *)
Fixpoint strip_prefix_ci (p s : string) : option string :=
  match p, s with
  | EmptyString, _ => Some s
  | String a p', String b s' =>
      if Ascii.eqb a (lower_char b) then strip_prefix_ci p' s' else None
  | String _ _, EmptyString => None
  end.

Definition startsWith (s p : string) : bool :=
  match strip_prefix p s with Some _ => true | None => false end.

(** [s.includes(sub)] *)
Fixpoint includes (s sub : string) : bool :=
  startsWith s sub ||
  match s with
  | EmptyString => false
  | String _ rest => includes rest sub
  end.

Fixpoint endsWith_char (s : string) (c : ascii) : bool :=
  match s with
  | EmptyString => false
  | String a EmptyString => Ascii.eqb a c
  | String _ rest => endsWith_char rest c
  end.

Fixpoint trimStart (s : string) : string :=
  match s with
  | String c rest => if is_space c then trimStart rest else s
  | EmptyString => EmptyString
  end.

Fixpoint trimEnd (s : string) : string :=
  match s with
  | EmptyString => EmptyString
  | String c rest =>
      match trimEnd rest with
      | EmptyString => if is_space c then EmptyString else String c EmptyString
      | kept => String c kept
      end
  end.

Definition trim (s : string) : string := trimEnd (trimStart s).

(** [s.replace(/\s+/g, ' ')]: [in_run] tells that the previous
    character was white space, already replaced. *)
Fixpoint collapse_spaces (in_run : bool) (s : string) : string :=
  match s with
  | EmptyString => EmptyString
  | String c rest =>
      if is_space c
      then (if in_run then collapse_spaces true rest
            else String " " (collapse_spaces true rest))
      else String c (collapse_spaces false rest)
  end.

(** The longest prefix of characters of a class, and the rest. *)
Fixpoint span (cls : ascii -> bool) (s : string) : string * string :=
  match s with
  | String c rest =>
      if cls c then let (run, after) := span cls rest in (String c run, after)
      else (EmptyString, s)
  | EmptyString => (EmptyString, EmptyString)
  end.

(** A JavaScript value used as a condition: the empty string is
    falsy. *)
Definition truthy (s : string) : bool := negb (String.eqb s "").

(** [Number.prototype.toString] of an integer *)
Definition string_of_Z (n : Z) : string :=
  NilZero.string_of_int (Z.to_int n).

(** *** Notions used to state the properties *)

(** Every white-space character is a space, and none follows another
    ([after_space] tells that the string follows one). *)
Fixpoint single_spaced (after_space : bool) (s : string) : bool :=
  match s with
  | EmptyString => true
  | String c rest =>
      if is_space c
      then Ascii.eqb c " " && negb after_space && single_spaced true rest
      else single_spaced false rest
  end.

Definition no_leading_space (s : string) : bool :=
  match s with
  | EmptyString => true
  | String c _ => negb (is_space c)
  end.

End JsString.

(** ** Rate-limit recovery (gemini.js) *)

Module RateLimit.

Import JsString.
Local Open Scope string_scope.

(** The class after [retryDelay]: backslash, double quote, white
    space and colon. *)
Definition is_delay_separator (c : ascii) : bool :=
  (code c =? 92)%N || (code c =? 34)%N || is_space c || (code c =? 58)%N.

Definition is_s (c : ascii) : bool := (code c =? 115)%N || (code c =? 83)%N.

(** The seconds of both patterns, at the head of [s]: one or more
    digits, an optional dot, any number of digits (the group), then
    an [s] in either case.  The result is the text of the group.  The
    greedy choice is the only one that can succeed: a shorter run of
    digits is followed by a digit, and a skipped dot by a dot, neither
    of which is an [s]. *)
Definition match_seconds (s : string) : option string :=
  let (int_digits, after_int) := span is_digit s in
  match int_digits with
  | EmptyString => None
  | _ =>
      let (dot, after_dot) :=
        match after_int with
        | String "." rest => (".", rest)
        | _ => ("", after_int)
        end in
      let (frac_digits, after_frac) := span is_digit after_dot in
      match after_frac with
      | String c _ =>
          if is_s c then Some (int_digits ++ dot ++ frac_digits) else None
      | EmptyString => None
      end
  end.

(** The pattern [retryDelay], one or more characters of the class,
    then the seconds; case-insensitive; anchored at the head of [s]. *)
Definition match_retryDelay_here (s : string) : option string :=
  match strip_prefix_ci "retrydelay" s with
  | Some rest =>
      let (separators, after) := span is_delay_separator rest in
      match separators with
      | EmptyString => None
      | _ => match_seconds after
      end
  | None => None
  end.

(** The pattern [retry in ], then the seconds; case-insensitive;
    anchored at the head of [s]. *)
Definition match_retryIn_here (s : string) : option string :=
  match strip_prefix_ci "retry in " s with
  | Some rest => match_seconds rest
  | None => None
  end.

(** [String.prototype.match] without the [g] flag: the leftmost
    position at which the pattern matches. *)
Fixpoint first_match (here : string -> option string) (s : string)
  : option string :=
  match here s with
  | Some group => Some group
  | None =>
      match s with
      | EmptyString => None
      | String _ rest => first_match here rest
      end
  end.

Definition digit_value (c : ascii) : Z := Z.of_N (code c) - 48.

Fixpoint decimal_digits (acc : Z) (s : string) : Z :=
  match s with
  | EmptyString => acc
  | String c rest => decimal_digits (10 * acc + digit_value c) rest
  end.

(** [parseFloat] on the text of the group, [digits], [digits.] or
    [digits.digits]: the double nearest to the decimal. *)
Definition parseFloat (s : string) : Q :=
  let (int_digits, after_int) := span is_digit s in
  let frac_digits :=
    match after_int with
    | String "." rest => fst (span is_digit rest)
    | _ => ""
    end in
  Dbl.double
    (Qmake (decimal_digits (decimal_digits 0 int_digits) frac_digits)
           (Z.to_pos (10 ^ Z.of_nat (String.length frac_digits)))).

(** The retry hint of a message, in seconds, when it carries one. *)
Definition retry_hint (errorMessage : string) : option Q :=
  match first_match match_retryDelay_here errorMessage with
  | Some group => Some (parseFloat group)
  | None =>
      match first_match match_retryIn_here errorMessage with
      | Some group => Some (parseFloat group)
      | None => None
      end
  end.

Record rate_limit := { statusMessage : string; recoveryMs : Z }.

Definition parseGeminiRateLimitError (errorMessage : string) : rate_limit :=
  let recoveryMs :=
    match retry_hint errorMessage with
    | Some retrySec => Dbl.ceil (Dbl.mul (Dbl.add retrySec 2) 1000)
    | None => (60 * 1000)%Z
    end in
  let msgLower := toLowerCase errorMessage in
  let statusMessage :=
    if includes msgLower "resource_exhausted"
       || includes msgLower "resource has been exhausted"
    then "Rate Limit (Gemini): Quota exhausted"
    else if includes msgLower "tokens" || includes msgLower "tpm"
    then "Rate Limit (Gemini): Tokens exceeded"
    else if includes msgLower "requests" || includes msgLower "rpm"
    then "Rate Limit (Gemini): Requests exceeded"
    else "Rate Limit (Gemini)" in
  {| statusMessage := statusMessage; recoveryMs := recoveryMs |}.

(** The closure of the running [setInterval] callback. *)
Record countdown := { label : string; remainingSec : Z }.

(** What [sendToRenderer] was called with, oldest first. *)
Definition renderer_message := (string * string)%type.

Record timer_state := {
  rateLimitCountdownInterval : option countdown;
  published : list renderer_message
}.

Definition sendToRenderer (channel data : string) (t : timer_state) : timer_state :=
  {| rateLimitCountdownInterval := rateLimitCountdownInterval t;
     published := published t ++ [(channel, data)] |}.

Definition countdown_status (statusMessage : string) (remainingSec : Z) : string :=
  statusMessage ++ " (" ++ string_of_Z remainingSec ++ "s)".

(** [scheduleGeminiRateLimitRecovery]: any running countdown is
    replaced. *)
Definition scheduleGeminiRateLimitRecovery
    (statusMessage : string) (recoveryMs : Z) (t : timer_state) : timer_state :=
  let remainingSec := Dbl.ceil (Dbl.div (inject_Z recoveryMs) 1000) in
  let t := sendToRenderer "update-status"
             (countdown_status statusMessage remainingSec) t in
  {| rateLimitCountdownInterval :=
       Some {| label := statusMessage; remainingSec := remainingSec |};
     published := published t |}.

(** One firing of the interval, 1000 ms after the previous one (or
    after the scheduling).  Without a running interval nothing fires. *)
Definition tick (t : timer_state) : timer_state :=
  match rateLimitCountdownInterval t with
  | None => t
  | Some c =>
      let remainingSec := (remainingSec c - 1)%Z in
      if (remainingSec <=? 0)%Z then
        sendToRenderer "update-status" "Ready"
          {| rateLimitCountdownInterval := None; published := published t |}
      else
        sendToRenderer "update-status" (countdown_status (label c) remainingSec)
          {| rateLimitCountdownInterval :=
               Some {| label := label c; remainingSec := remainingSec |};
             published := published t |}
  end.

Fixpoint ticks (n : nat) (t : timer_state) : timer_state :=
  match n with
  | O => t
  | S n' => ticks n' (tick t)
  end.

(** *** Notions used to state the properties *)

(** A countdown at [n + 1] seconds publishes [n] down to 1, one status
    per tick, then [Ready], and stops. *)
Fixpoint countdown_statuses (statusMessage : string) (n : nat) : list renderer_message :=
  match n with
  | O => [("update-status", "Ready")]
  | S n' =>
      ("update-status", countdown_status statusMessage (Z.of_nat n))
        :: countdown_statuses statusMessage n'
  end.

End RateLimit.

(** ** The Gemini session of [initializeGeminiSession] (gemini.js) *)

Module Session.

Import JsString RateLimit.
Local Open Scope string_scope.

Inductive part :=
| TextPart (text : string)
| InlineData (mimeType data : string).

Inductive role := User | Model.

Record entry := { entry_role : role; parts : list part }.

Definition user_entry (userParts : list part) : entry :=
  {| entry_role := User; parts := userParts |}.

Definition model_entry (responseText : string) : entry :=
  {| entry_role := Model; parts := [TextPart responseText] |}.

Record media := { media_mimeType : string; media_data : string }.

(** The argument of [sendRealtimeInput]: [{ text?, media? }]. *)
Record input := { input_text : option string; input_media : option media }.

(** The module-level variables the session reads.  The text returned
    by [getExamMessageHint] (of [./prompts]) is a field. *)
Record settings := {
  currentMode : string;
  storedLanguageName : string;
  maxOutputTokens : Z;          (* generationSettings.maxOutputTokens *)
  examMessageHint : string
}.

Record session := {
  model : string;
  systemPrompt : string;
  tools : list string;
  isClosed : bool;
  conversationHistory : list entry
}.

Definition with_history (s : session) (h : list entry) : session :=
  {| model := model s; systemPrompt := systemPrompt s; tools := tools s;
     isClosed := isClosed s; conversationHistory := h |}.

(** What [generateContentStream] is called with. *)
Record request := {
  request_model : string;
  contents : list entry;
  systemInstruction : string;
  request_maxOutputTokens : Z;
  thinkingLevel : option string;
  request_tools : option (list string)
}.

(** A thrown [Error]; [message] may be missing. *)
Record js_error := { message : option string }.

(** The [text] fields of the parts of the first candidate of a chunk
    (no part when the chunk has no candidate). *)
Definition chunk := list (option string).

(** What [await streamResult] gives in the fallback. *)
Inductive fallback :=
| FallbackRejects (e : js_error)
| FallbackResult (candidate_parts : chunk).

Inductive stream_end :=
| StreamEnds
| StreamThrows (e : js_error) (f : fallback).

(** What the backend does with a request: the call itself rejects, or
    it yields chunks and then ends or throws. *)
Inductive response :=
| CallRejects (e : js_error)
| Stream (chunks : list chunk) (ending : stream_end).

Inductive value := Undefined | Null | Str (s : string).

Inductive completion := Returns (v : value) | Throws (e : js_error).

Definition nl : string := String "010" EmptyString.

Definition languageReminder (g : settings) : string :=
  "CRITICAL: You MUST respond entirely in " ++ storedLanguageName g
    ++ ". Do NOT respond in English.".

Definition nonEnglish (g : settings) : bool :=
  negb (storedLanguageName g =? "English").

Definition truthy_text (i : input) : option string :=
  match input_text i with
  | Some t => if truthy t then Some t else None
  | None => None
  end.

Definition hasImage (i : input) : bool :=
  match input_media i with Some _ => true | None => false end.

(** The [parts] array of the new user message. *)
Definition build_parts (g : settings) (i : input) : list part :=
  let coding := currentMode g =? "coding" in
  let reminder := if nonEnglish g then nl ++ nl ++ languageReminder g else "" in
  let text_parts :=
    match truthy_text i with
    | Some t =>
        [TextPart (t ++ (if coding then examMessageHint g else "") ++ reminder)]
    | None =>
        if hasImage i && coding
        then [TextPart (examMessageHint g ++ reminder)]
        else []
    end in
  let media_parts :=
    match input_media i with
    | Some m =>
        InlineData (media_mimeType m) (media_data m)
        :: (if match truthy_text i with Some _ => false | None => true end
               && negb coding && nonEnglish g
            then [TextPart (languageReminder g)] else [])
    | None => []
    end in
  text_parts ++ media_parts.

Definition is_image (p : part) : bool :=
  match p with InlineData _ _ => true | TextPart _ => false end.

(** [entry.role === 'user' && entry.parts.some(p => p.inlineData)] *)
Definition is_user_image_entry (e : entry) : bool :=
  match entry_role e with
  | User => existsb is_image (parts e)
  | Model => false
  end.

Definition placeholder (p : part) : part :=
  if is_image p then TextPart "[screenshot]" else p.

Definition strip_images (e : entry) : entry :=
  {| entry_role := entry_role e; parts := map placeholder (parts e) |}.

(** The history as sent: a copy without images when the request has
    none or the mode is ['interview']. *)
Definition historyForRequest (g : settings) (i : input) (history : list entry)
  : list entry :=
  if ((currentMode g =? "interview") || negb (hasImage i))
     && existsb is_user_image_entry history
  then map (fun e => if is_user_image_entry e then strip_images e else e) history
  else history.

Definition getMaxOutputTokensForModel (m : string) : Z :=
  if (m =? "gemini-2.5-flash") || (m =? "gemini-2.5-flash-lite")
     || (m =? "gemini-3-flash-preview") || (m =? "gemini-3-pro-preview")
  then 65536
  else 8192.

Definition effectiveMaxTokens (g : settings) (s : session) (i : input) : Z :=
  let capped := Z.min (maxOutputTokens g) (getMaxOutputTokensForModel (model s)) in
  if currentMode g =? "interview"
  then (if hasImage i then Z.min capped 1536 else Z.min capped 768)
  else capped.

Definition build_request (g : settings) (s : session) (i : input) : request :=
  {| request_model := model s;
     contents := historyForRequest g i (conversationHistory s)
                   ++ [user_entry (build_parts g i)];
     systemInstruction := systemPrompt s;
     request_maxOutputTokens := effectiveMaxTokens g s i;
     thinkingLevel :=
       if model s =? "gemini-3-flash-preview" then Some "low"
       else if model s =? "gemini-3-pro-preview" then Some "high"
       else None;
     request_tools := match tools s with [] => None | ts => Some ts end |}.

(** [responseText += part.text] over the parts with a truthy text. *)
Definition chunk_text (c : chunk) : string :=
  String.concat "" (map (fun p => match p with Some t => t | None => "" end) c).

Definition stream_text (chunks : list chunk) : string :=
  String.concat "" (map chunk_text chunks).

(** [responseText && responseText.trim()] *)
Definition has_text (responseText : string) : bool :=
  truthy responseText && truthy (trim responseText).

(** [history.slice(-16)] when the history has more than 16 entries. *)
Definition cap_history (history : list entry) : list entry :=
  if (16 <? length history)%nat
  then skipn (length history - 16) history else history.

(** The loop from the newest entry to the oldest, on the reversed
    history: from the fourth image-bearing user entry on, images become
    placeholders. *)
Fixpoint strip_older (newest_first : list entry) (imageCount : nat) : list entry :=
  match newest_first with
  | [] => []
  | e :: older =>
      if is_user_image_entry e then
        (if (3 <? S imageCount)%nat then strip_images e else e)
          :: strip_older older (S imageCount)
      else e :: strip_older older imageCount
  end.

Definition strip_old_images (history : list entry) : list entry :=
  rev (strip_older (rev history) 0).

(** The two entries pushed for a turn. *)
Definition turn (userParts : list part) (responseText : string) : list entry :=
  [user_entry userParts; model_entry responseText].

(** The update of the history on a response with text (the same
    statements on the main path and on the fallback path). *)
Definition record_turn (history : list entry) (userParts : list part)
    (responseText : string) : list entry :=
  strip_old_images (cap_history (history ++ turn userParts responseText)).

Definition idle_status (g : settings) : string :=
  if currentMode g =? "interview" then "Listening..." else "Ready".

(** The state one call leaves, what it requested, and how its [try]
    block completed. *)
Record outcome (A : Type) := {
  result : A;
  session_after : session;
  timer_after : timer_state;
  requests : list request
}.
Arguments result {A}. Arguments session_after {A}.
Arguments timer_after {A}. Arguments requests {A}.

(** A response with text: the turn is recorded, the text shown and
    returned. *)
Definition succeed (g : settings) (s : session) (t : timer_state) (i : input)
    (responseText : string) : outcome (js_error + value) :=
  {| result := inr (Str responseText);
     session_after :=
       with_history s
         (record_turn (conversationHistory s) (build_parts g i) responseText);
     timer_after :=
       sendToRenderer "update-status" (idle_status g)
         (sendToRenderer "update-response" responseText t);
     requests := [build_request g s i] |}.

(** The body of the [try] block.  The snapshots sent to the renderer
    while chunks arrive are throttled by the wall clock and are left
    out; the final one is recorded. *)
Definition try_body (g : settings) (backend : request -> response)
    (s : session) (t : timer_state) (i : input) : outcome (js_error + value) :=
  match input_media i, truthy_text i with
  | None, None =>
      {| result := inr Null; session_after := s; timer_after := t; requests := [] |}
  | _, _ =>
      let t1 := if currentMode g =? "interview" then t
                else sendToRenderer "update-status" "Analyzing..." t in
      let req := build_request g s i in
      let fail e :=
        {| result := inl e; session_after := s; timer_after := t1;
           requests := [req] |} in
      match backend req with
      | CallRejects e => fail e
      | Stream chunks StreamEnds =>
          let responseText := stream_text chunks in
          if has_text responseText then succeed g s t1 i responseText
          else
            {| result := inr Null; session_after := s;
               timer_after :=
                 sendToRenderer "update-status"
                   (if currentMode g =? "interview" then "Listening..."
                    else "No response generated")
                   (sendToRenderer "update-response" responseText t1);
               requests := [req] |}
      | Stream chunks (StreamThrows streamError f) =>
          match f with
          | FallbackRejects e => fail e
          | FallbackResult candidate_parts =>
              let responseText := stream_text chunks ++ chunk_text candidate_parts in
              if has_text responseText then succeed g s t1 i responseText
              else fail streamError
          end
      end
  end.

(** The [catch] block. *)
Definition handle_error (e : js_error) (t : timer_state) : timer_state :=
  let msg := match message e with Some m => m | None => "" end in
  let errMsg := toLowerCase msg in
  if includes errMsg "429" then
    let rateLimit := parseGeminiRateLimitError msg in
    scheduleGeminiRateLimitRecovery (statusMessage rateLimit) (recoveryMs rateLimit) t
  else if includes errMsg "503" || includes errMsg "overloaded"
          || includes errMsg "unavailable" then
    scheduleGeminiRateLimitRecovery "Server Overloaded (Gemini)" (15 * 1000) t
  else
    let shortMsg :=
      if includes errMsg "401" || includes errMsg "api_key_invalid"
         || includes errMsg "api key not valid"
      then "Invalid API Key (Gemini)"
      else if includes errMsg "404" || includes errMsg "not found"
              || includes errMsg "not_found"
      then "Model Unavailable (Gemini)"
      else if includes errMsg "deprecated" || includes errMsg "decommission"
      then "Model Deprecated (Gemini)"
      else "Error" in
    sendToRenderer "update-status" shortMsg t.

(** The method.  Whatever the [try] block throws is caught, and the
    [catch] block has no throwing path of its own for an [Error]. *)
Definition sendRealtimeInput (g : settings) (backend : request -> response)
    (s : session) (t : timer_state) (i : input) : outcome completion :=
  if isClosed s then
    {| result := Returns Undefined; session_after := s; timer_after := t;
       requests := [] |}
  else
    let o := try_body g backend s t i in
    match result o with
    | inr v =>
        {| result := Returns v; session_after := session_after o;
           timer_after := timer_after o; requests := requests o |}
    | inl e =>
        {| result := Returns Null; session_after := session_after o;
           timer_after := handle_error e (timer_after o);
           requests := requests o |}
    end.

Definition close (s : session) (t : timer_state) : session * timer_state :=
  ({| model := model s; systemPrompt := systemPrompt s; tools := tools s;
      isClosed := true; conversationHistory := conversationHistory s |},
   sendToRenderer "update-status" "Session closed" t).

(** One call of a run: the flags and the backend's behaviour at the
    time, and the input. *)
Record call := {
  call_settings : settings;
  call_backend : request -> response;
  call_input : input
}.

(** Calls made one after the other, each on the state the previous one
    left: the completions, the final state and every request made. *)
Fixpoint send_all (calls : list call) (s : session) (t : timer_state)
  : outcome (list completion) :=
  match calls with
  | [] => {| result := []; session_after := s; timer_after := t; requests := [] |}
  | c :: more =>
      let o := sendRealtimeInput (call_settings c) (call_backend c) s t (call_input c) in
      let os := send_all more (session_after o) (timer_after o) in
      {| result := result o :: result os;
         session_after := session_after os;
         timer_after := timer_after os;
         requests := requests o ++ requests os |}
  end.

(** *** Notions used to state the properties *)

(** A part as recorded, or the placeholder that replaced an image. *)
Definition same_part (p original : part) : Prop :=
  p = original \/ (is_image original = true /\ p = TextPart "[screenshot]").

(** The same entry of the conversation, up to images replaced by the
    placeholder: same role, same parts in the same order. *)
Definition same_turn (e original : entry) : Prop :=
  entry_role e = entry_role original
  /\ Forall2 same_part (parts e) (parts original).

Definition count_image_entries (history : list entry) : nat :=
  length (filter is_user_image_entry history).

Definition strip_if_image (e : entry) : entry :=
  if is_user_image_entry e then strip_images e else e.

(** [slice(-16)], taken unconditionally. *)
Definition last16 (entries : list entry) : list entry :=
  skipn (length entries - 16) entries.

(** The entries a run appended: the turn of every call that returned
    text, in the order of the calls. *)
Fixpoint appended (calls : list call) (results : list completion) : list entry :=
  match calls, results with
  | c :: cs, Returns (Str responseText) :: rs =>
      turn (build_parts (call_settings c) (call_input c)) responseText
        ++ appended cs rs
  | _ :: cs, _ :: rs => appended cs rs
  | _, _ => []
  end.

(** The backend raised an error: the call rejected, or the stream
    threw while it was read. *)
Definition backend_raises (r : response) : bool :=
  match r with
  | CallRejects _ => true
  | Stream _ (StreamThrows _ _) => true
  | Stream _ StreamEnds => false
  end.

(** The response text the session ends up holding when it tests it:
    the text of the chunks read, and after a failure of the stream the
    text of the fallback result appended to it.  A rejected call and a
    rejected fallback leave the test unreached. *)
Definition obtained_text (r : response) : string :=
  match r with
  | CallRejects _ => ""
  | Stream chunks StreamEnds => stream_text chunks
  | Stream chunks (StreamThrows _ (FallbackRejects _)) => ""
  | Stream chunks (StreamThrows _ (FallbackResult candidate_parts)) =>
      stream_text chunks ++ chunk_text candidate_parts
  end.

Definition has_content (i : input) : bool :=
  hasImage i || match truthy_text i with Some _ => true | None => false end.

(** The reading under which a backend error always ends in [null] and
    an untouched history. *)
Definition returns_null_on_every_backend_error : Prop :=
  forall g backend s t i,
    isClosed s = false ->
    has_content i = true ->
    backend_raises (backend (build_request g s i)) = true ->
    result (sendRealtimeInput g backend s t i) = Returns Null
    /\ conversationHistory (session_after (sendRealtimeInput g backend s t i))
       = conversationHistory s.

End Session.

(** ** The speech queue of the browser build *)

Module SpeechQueue.

Import JsString.
Local Open Scope string_scope.

(** [String(text || '').replace(/\s+/g, ' ').trim()] *)
Definition normalizeSpeechText (text : string) : string :=
  trim (collapse_spaces false text).

(** The alternatives of [questionPattern] and of [promptPattern]. *)
Definition questionWords : list string :=
  [ "what"; "why"; "how"; "when"; "where"; "who"; "which"; "whom"; "is";
    "are"; "am"; "do"; "does"; "did"; "have"; "has"; "had"; "can"; "could";
    "would"; "will"; "should"; "may"; "might" ].

Definition promptPhrases : list string :=
  [ "tell me"; "explain"; "describe"; "walk me through"; "give me";
    "difference between"; "what is"; "what are"; "how would"; "why do" ].

(** The pattern [^(alternative)\b]: the string starts with the
    alternative, and what follows is the end or no word character
    (every alternative ends in a letter). *)
Definition starts_with_word (s alternative : string) : bool :=
  match strip_prefix alternative s with
  | Some EmptyString => true
  | Some (String c _) => negb (is_word c)
  | None => false
  end.

(** [pattern.test(s)] for a pattern of the form [^(a|b|...)\b]: some
    alternative matches. *)
Definition begins_with_any (alternatives : list string) (s : string) : bool :=
  existsb (starts_with_word s) alternatives.

Definition isLikelyQuestionText (text : string) : bool :=
  let normalized := normalizeSpeechText text in
  if negb (truthy normalized) then false
  else if includes normalized "?" then true
  else
    let lower := toLowerCase normalized in
    begins_with_any questionWords lower || begins_with_any promptPhrases lower.

(** The part of [state] the queue uses, with the calls of
    [sendTextMessage] that were started and have not settled yet (each
    one is awaited by a suspended activation of [processSpeechQueue])
    and the log of all the calls started. *)
Record state := {
  speechQueue : list string;
  processingSpeechQueue : bool;
  in_flight : list string;
  dispatched : list string
}.

Definition initial : state :=
  {| speechQueue := []; processingSpeechQueue := false;
     in_flight := []; dispatched := [] |}.

(** The [while] loop of [processSpeechQueue], up to its next [await]
    or to its end: falsy items are skipped, the first other item is
    sent and awaited; on an empty queue the loop ends and [finally]
    clears the flag. *)
Fixpoint drain_loop (queue : list string) (s : state) : state :=
  match queue with
  | [] =>
      {| speechQueue := []; processingSpeechQueue := false;
         in_flight := in_flight s; dispatched := dispatched s |}
  | nextText :: rest =>
      if truthy nextText then
        {| speechQueue := rest;
           processingSpeechQueue := processingSpeechQueue s;
           in_flight := in_flight s ++ [nextText];
           dispatched := dispatched s ++ [nextText] |}
      else drain_loop rest s
  end.

Definition processSpeechQueue (s : state) : state :=
  if processingSpeechQueue s then s
  else
    drain_loop (speechQueue s)
      {| speechQueue := speechQueue s; processingSpeechQueue := true;
         in_flight := in_flight s; dispatched := dispatched s |}.

Definition push (normalized : string) (s : state) : state :=
  {| speechQueue := speechQueue s ++ [normalized];
     processingSpeechQueue := processingSpeechQueue s;
     in_flight := in_flight s; dispatched := dispatched s |}.

Definition enqueueSpeechText (text : string) (s : state) : state :=
  let normalized := normalizeSpeechText text in
  if negb (truthy normalized) then s
  else if negb (isLikelyQuestionText normalized) then s
  else processSpeechQueue (push normalized s).

(** The lines of [stopCapture] that touch the queue. *)
Definition stopCapture (s : state) : state :=
  {| speechQueue := []; processingSpeechQueue := false;
     in_flight := in_flight s; dispatched := dispatched s |}.

Fixpoint remove_nth (k : nat) (l : list string) : list string :=
  match k, l with
  | _, [] => []
  | O, _ :: rest => rest
  | S k', x :: rest => x :: remove_nth k' rest
  end.

(** The awaited call number [k] settles and its drain resumes: after a
    resolution the loop goes on; after a rejection [finally] clears
    the flag and the drain ends. *)
Definition settle (k : nat) (resolved : bool) (s : state) : state :=
  match nth_error (in_flight s) k with
  | None => s
  | Some _ =>
      let s' := {| speechQueue := speechQueue s;
                   processingSpeechQueue := processingSpeechQueue s;
                   in_flight := remove_nth k (in_flight s);
                   dispatched := dispatched s |} in
      if resolved then drain_loop (speechQueue s') s'
      else {| speechQueue := speechQueue s'; processingSpeechQueue := false;
              in_flight := in_flight s'; dispatched := dispatched s' |}
  end.

(** What can happen, one at a time, on the event loop. *)
Inductive event :=
| Enqueue (text : string)
| Settle (k : nat) (resolved : bool)
| StopCapture.

Definition step (e : event) (s : state) : state :=
  match e with
  | Enqueue text => enqueueSpeechText text s
  | Settle k resolved => settle k resolved s
  | StopCapture => stopCapture s
  end.

Fixpoint run (events : list event) (s : state) : state :=
  match events with
  | [] => s
  | e :: more => run more (step e s)
  end.

(** *** Notions used to state the properties *)

(** The texts the queue accepted, in the order of arrival. *)
Fixpoint accepted_texts (events : list event) : list string :=
  match events with
  | [] => []
  | Enqueue text :: more =>
      let normalized := normalizeSpeechText text in
      if truthy normalized && isLikelyQuestionText normalized
      then normalized :: accepted_texts more
      else accepted_texts more
  | _ :: more => accepted_texts more
  end.

Definition is_stop (e : event) : bool :=
  match e with StopCapture => true | _ => false end.

(** No [stopCapture] happens while a call is in flight. *)
Fixpoint stops_only_when_idle (events : list event) (s : state) : bool :=
  match events with
  | [] => true
  | e :: more =>
      (if is_stop e then match in_flight s with [] => true | _ => false end
       else true)
      && stops_only_when_idle more (step e s)
  end.

(** The heuristic as the specification words it: a final question
    mark, or an interrogative or imperative opening. *)
Definition ends_with_question_mark_or_opens_as_question (normalized : string) : bool :=
  endsWith_char normalized "?"
  || begins_with_any questionWords (toLowerCase normalized)
  || begins_with_any promptPhrases (toLowerCase normalized).

(** The heuristic as the code has it: a question mark anywhere. *)
Definition contains_question_mark_or_opens_as_question (normalized : string) : bool :=
  includes normalized "?"
  || begins_with_any questionWords (toLowerCase normalized)
  || begins_with_any promptPhrases (toLowerCase normalized).

(** The queue under the first reading: appended exactly when the text
    ends with a question mark or opens as a question. *)
Definition enqueued_iff_final_question_mark_or_opening : Prop :=
  forall text s,
    truthy (normalizeSpeechText text) = true ->
    enqueueSpeechText text s =
      if ends_with_question_mark_or_opens_as_question (normalizeSpeechText text)
      then processSpeechQueue (push (normalizeSpeechText text) s)
      else s.


(** A state with at most one call in flight, and one exactly while
    the flag is set. *)
Definition serial (s : state) : Prop :=
  length (in_flight s) <= 1
  /\ (processingSpeechQueue s = true <-> in_flight s <> []).

(** The texts sent, then the texts waiting. *)
Definition backlog (s : state) : list string :=
  (dispatched s ++ speechQueue s)%list.

Definition all_truthy (l : list string) : Prop :=
  Forall (fun x => truthy x = true) l.

End SpeechQueue.

(** ** Notions used to state properties of the PCM conversions *)

Module PcmSpec.

(** The bytes of the left sample of every 4-byte stereo frame. *)
Fixpoint left_channel (stereoBuffer : Pcm.buffer) : Pcm.buffer :=
  match stereoBuffer with
  | l0 :: l1 :: _ :: _ :: rest => l0 :: l1 :: left_channel rest
  | _ => []
  end.

(** The samples a buffer of whole Int16 samples holds. *)
Fixpoint samples (pcmBuffer : Pcm.buffer) : list Z :=
  match pcmBuffer with
  | lo :: hi :: rest => Pcm.readInt16LE lo hi :: samples rest
  | _ => []
  end.

End PcmSpec.

(** ** The IPC handlers of the session and [chatWithGeminiText]
       (gemini.js) *)

Module Ipc.

Import JsString RateLimit Session.
Local Open Scope string_scope.

(** What a handler resolves with: [{ success, error }]. *)
Record reply := { success : bool; error : option string }.

Definition succeeded : reply := {| success := true; error := None |}.
Definition failed (why : string) : reply :=
  {| success := false; error := Some why |}.

(** [geminiSessionRef.current] ([None] for [null]), and the renderer
    and countdown the session publishes to. *)
Record hub := { current : option session; timer : timer_state }.

(** What a handler leaves: its result, the state, the requests made. *)
Record handled (A : Type) := {
  answer : A;
  hub_after : hub;
  sent : list request
}.
Arguments answer {A}. Arguments hub_after {A}. Arguments sent {A}.

Definition untouched {A : Type} (a : A) (h : hub) : handled A :=
  {| answer := a; hub_after := h; sent := [] |}.

(** [await geminiSessionRef.current.sendRealtimeInput(input)] inside
    the [try] of a handler, and the [catch] that turns a thrown error
    into a result. *)
Definition forward (g : settings) (backend : request -> response)
    (h : hub) (s : session) (i : input) : handled reply :=
  let o := sendRealtimeInput g backend s (timer h) i in
  {| answer := match result o with
               | Returns _ => succeeded
               | Throws e => {| success := false; error := message e |}
               end;
     hub_after := {| current := Some (session_after o); timer := timer_after o |};
     sent := requests o |}.

(** An input that holds only an [audio] field: the session reads
    neither a text nor a media from it. *)
Definition audio_input : input := {| input_text := None; input_media := None |}.

(** [!v || typeof v !== 'string'] for a value that is [undefined],
    [null] or a string. *)
Definition not_a_nonempty_string (v : value) : bool :=
  match v with
  | Str s => negb (truthy s)
  | _ => true
  end.

(** [!text || typeof text !== 'string' || text.trim().length === 0] *)
Definition invalid_text (text : value) : bool :=
  not_a_nonempty_string text
  || match text with
     | Str s => (String.length (trim s) =? 0)%nat
     | _ => true
     end.

(** [finalText] of the two text handlers. *)
Definition finalText (g : settings) (text : string) : string :=
  trim text
  ++ (if nonEnglish g
      then " (Remember: Respond in " ++ storedLanguageName g ++ ")"
      else "").

Definition no_session : reply := failed "No active Gemini session".

(** ['send-audio-content'] *)
Definition send_audio_content (g : settings) (backend : request -> response)
    (h : hub) : handled reply :=
  match current h with
  | None => untouched no_session h
  | Some s => forward g backend h s audio_input
  end.

Section ImageContent.

(** [Buffer.from(data, 'base64').length] *)
Variable base64_length : string -> nat.

(** ['send-image-content'] *)
Definition send_image_content (g : settings) (backend : request -> response)
    (h : hub) (data : value) : handled reply :=
  match current h with
  | None => untouched no_session h
  | Some s =>
      match data with
      | Str d =>
          if not_a_nonempty_string data then untouched (failed "Invalid image data") h
          else if (base64_length d <? 1000)%nat
          then untouched (failed "Image buffer too small") h
          else forward g backend h s
                 {| input_text := None;
                    input_media := Some {| media_mimeType := "image/jpeg";
                                           media_data := d |} |}
      | _ => untouched (failed "Invalid image data") h
      end
  end.

End ImageContent.

(** ['send-text-message'] *)
Definition send_text_message (g : settings) (backend : request -> response)
    (h : hub) (text : value) : handled reply :=
  match current h with
  | None => untouched no_session h
  | Some s =>
      match text with
      | Str t =>
          if invalid_text text then untouched (failed "Invalid text message") h
          else forward g backend h s
                 {| input_text := Some (finalText g t); input_media := None |}
      | _ => untouched (failed "Invalid text message") h
      end
  end.

(** ['send-screenshot-with-text'] *)
Definition send_screenshot_with_text (g : settings) (backend : request -> response)
    (h : hub) (imageData text : value) : handled reply :=
  match current h with
  | None => untouched no_session h
  | Some s =>
      match imageData, text with
      | Str d, Str t =>
          if not_a_nonempty_string imageData
          then untouched (failed "Invalid image data") h
          else if invalid_text text
          then untouched (failed "Invalid text message") h
          else forward g backend h s
                 {| input_text := Some (finalText g t);
                    input_media := Some {| media_mimeType := "image/jpeg";
                                           media_data := d |} |}
      | Str d, _ =>
          if not_a_nonempty_string imageData
          then untouched (failed "Invalid image data") h
          else untouched (failed "Invalid text message") h
      | _, _ => untouched (failed "Invalid image data") h
      end
  end.

(** ['close-session'], as far as the session goes (it also stops the
    audio capture). *)
Definition close_session (h : hub) : handled reply :=
  match current h with
  | Some s =>
      {| answer := succeeded;
         hub_after := {| current := None; timer := snd (close s (timer h)) |};
         sent := [] |}
  | None => untouched succeeded h
  end.

(** [sendAudioToGemini] *)
Definition sendAudioToGemini (g : settings) (backend : request -> response)
    (h : hub) : hub :=
  match current h with
  | None => h
  | Some s => hub_after (forward g backend h s audio_input)
  end.

Section Chat.

(** [getGeminiMessageHint] of [./prompts] and the module's
    [currentProfile]. *)
Variable getGeminiMessageHint : bool -> string -> string.
Variable currentProfile : string.

(** [chatWithGeminiText(text, imageData)]; [imageData] is [null] or a
    string. *)
Definition chatWithGeminiText (g : settings) (backend : request -> response)
    (h : hub) (text : string) (imageData : option string)
  : handled completion :=
  match current h with
  | None =>
      {| answer := Returns Null;
         hub_after := {| current := None;
                         timer := sendToRenderer "update-status" "No Gemini session"
                                    (timer h) |};
         sent := [] |}
  | Some s =>
      let hasImage :=
        match imageData with Some d => truthy d | None => false end in
      let i :=
        {| input_text :=
             if truthy text
             then Some (text ++ getGeminiMessageHint hasImage currentProfile
                             ++ (if nonEnglish g
                                 then nl ++ nl ++ languageReminder g else ""))
             else None;
           input_media :=
             match imageData with
             | Some d =>
                 if truthy d
                 then Some {| media_mimeType := "image/jpeg"; media_data := d |}
                 else None
             | None => None
             end |} in
      let o := sendRealtimeInput g backend s (timer h) i in
      {| answer := result o;
         hub_after := {| current := Some (session_after o); timer := timer_after o |};
         sent := requests o |}
  end.

End Chat.

End Ipc.

(** ** The browser build: settings, history, requests and the speech
       buffers *)

Module WebApp.

Import JsString.
Local Open Scope string_scope.

Definition GEMINI_MODELS : list string :=
  [ "gemini-2.5-flash"; "gemini-2.5-flash-lite"; "gemini-3-flash-preview";
    "gemini-3-pro-preview" ].

Definition GROQ_MODEL_IDS : list (string * string) :=
  [ ("llama-4-maverick", "meta-llama/llama-4-maverick-17b-128e-instruct");
    ("llama-4-scout", "meta-llama/llama-4-scout-17b-16e-instruct") ].

Definition MODEL_MAX_TOKENS : list (string * Z) :=
  [ ("gemini-2.5-flash", 65536%Z); ("gemini-2.5-flash-lite", 65536%Z);
    ("gemini-3-flash-preview", 65536%Z); ("gemini-3-pro-preview", 65536%Z);
    ("llama-4-maverick", 8192%Z); ("llama-4-scout", 8192%Z) ].

Definition LANGUAGE_MAP : list (string * string) :=
  [ ("en-US", "English"); ("en-GB", "English"); ("en-AU", "English");
    ("en-IN", "English"); ("es-ES", "Spanish"); ("es-US", "Spanish");
    ("fr-FR", "French"); ("fr-CA", "French"); ("de-DE", "German");
    ("it-IT", "Italian"); ("pt-BR", "Portuguese"); ("pt-PT", "Portuguese");
    ("ru-RU", "Russian"); ("ja-JP", "Japanese"); ("ko-KR", "Korean");
    ("zh-CN", "Chinese (Simplified)"); ("cmn-CN", "Chinese (Simplified)");
    ("zh-TW", "Chinese (Traditional)"); ("ar-SA", "Arabic"); ("ar-XA", "Arabic");
    ("hi-IN", "Hindi"); ("nl-NL", "Dutch"); ("pl-PL", "Polish");
    ("tr-TR", "Turkish"); ("sv-SE", "Swedish"); ("da-DK", "Danish");
    ("fi-FI", "Finnish"); ("no-NO", "Norwegian"); ("th-TH", "Thai");
    ("te-IN", "Telugu"); ("ta-IN", "Tamil"); ("mr-IN", "Marathi");
    ("ml-IN", "Malayalam"); ("kn-IN", "Kannada"); ("gu-IN", "Gujarati");
    ("bn-IN", "Bengali"); ("vi-VN", "Vietnamese"); ("id-ID", "Indonesian") ].


Definition PROFILE_HINTS : list (string * string) :=
  [ ("interview",
     "You are an interview assistant. Keep spoken answers concise and practical.");
    ("exam", "You are an exam assistant. Focus on direct, accurate answers.");
    ("sales", "You are a sales call assistant. Provide practical talking points.");
    ("meeting",
     "You are a meeting assistant. Summarize and suggest actionable responses.");
    ("presentation",
     "You are a presentation assistant. Help with concise talking points.");
    ("negotiation",
     "You are a negotiation assistant. Suggest clear strategic responses.") ].

(** [table[key]] for a key of the object literal itself (the keys it
    inherits from [Object.prototype] are out of the model). *)
Fixpoint lookup {A : Type} (key : string) (table : list (string * A)) : option A :=
  match table with
  | [] => None
  | (k, v) :: more => if k =? key then Some v else lookup key more
  end.

(** [a || b] for an [a] that is [null] or a string. *)
Definition or_else (a : option string) (b : string) : string :=
  match a with
  | Some s => if truthy s then s else b
  | None => b
  end.

(** [localStorage.getItem] *)
Definition storage := string -> option string.

(** The part of [state] the requests use; [mediaStream] tells whether
    a capture stream is held. *)
Record state := {
  initialized : bool;
  mode : string;
  profile : string;
  language : string;
  model : string;
  history : list (string * string);     (* { userText, assistantText } *)
  mediaStream : bool;
  imageQuality : string
}.

Definition with_history (st : state) (h : list (string * string)) : state :=
  {| initialized := initialized st; mode := mode st; profile := profile st;
     language := language st; model := model st; history := h;
     mediaStream := mediaStream st; imageQuality := imageQuality st |}.

Definition isGeminiModel (m : string) : bool :=
  existsb (String.eqb m) GEMINI_MODELS.

Definition isGroqModel (m : string) : bool :=
  match lookup m GROQ_MODEL_IDS with Some _ => true | None => false end.

Definition getVadEnabled (localStorage : storage) : bool :=
  match localStorage "vadEnabled" with
  | None => true
  | Some raw => raw =? "true"
  end.

Definition getVadMode (localStorage : storage) : string :=
  or_else (localStorage "vadMode") "automatic".

Definition clamp (value min max : Q) : Q := Dbl.max min (Dbl.min max value).

Record generation_settings := {
  temperature : Q;
  topP : Q;
  maxOutputTokens : Q
}.

Definition getLanguageInstruction (st : state) : string :=
  let languageName :=
    match lookup (language st) LANGUAGE_MAP with
    | Some name => name
    | None => "English"
    end in
  if languageName =? "English" then ""
  else Session.nl ++ Session.nl ++ "Respond entirely in " ++ languageName ++ ".".

Definition buildSystemPrompt (localStorage : storage) (st : state) : string :=
  let customPrompt := trim (or_else (localStorage "customPrompt") "") in
  let profile := if truthy (profile st) then profile st else "interview" in
  let profileHint :=
    match lookup profile PROFILE_HINTS with
    | Some hint => hint
    | None => "You are a helpful assistant."
    end in
  profileHint
    ++ (if truthy customPrompt then Session.nl ++ Session.nl ++ customPrompt else "").

(** [pushHistory] *)
Definition pushHistory (userText assistantText : string)
    (h : list (string * string)) : list (string * string) :=
  let pushed := (h ++ [(userText, assistantText)])%list in
  if (10 <? length pushed)%nat
  then skipn (length pushed - 10) pushed else pushed.

(** The turns of the history as the two APIs want them. *)
Definition gemini_turns (h : list (string * string)) : list Session.entry :=
  flat_map (fun turn => [ Session.user_entry [Session.TextPart (fst turn)];
                          Session.model_entry (snd turn) ]) h.

Inductive groq_content :=
| Content (text : string)
| ContentWithImage (text url : string).

Record groq_message := { role : string; content : groq_content }.

Definition groq_turns (h : list (string * string)) : list groq_message :=
  flat_map (fun turn => [ {| role := "user"; content := Content (fst turn) |};
                          {| role := "assistant"; content := Content (snd turn) |} ]) h.

(** What [fetch] is called with.  The key and the model of the Gemini
    endpoint are kept as they are before [encodeURIComponent]. *)
Record gemini_request := {
  gemini_model : string;
  gemini_key : string;
  systemInstruction : string;
  contents : list Session.entry;
  generationConfig : generation_settings
}.

Record groq_request := {
  authorization : string;
  groq_model : string;
  messages : list groq_message;
  groq_settings : generation_settings
}.

Inductive http_request :=
| GeminiRequest (r : gemini_request)
| GroqRequest (r : groq_request).

(** What the network does.  A rejection carries the message of its
    error.  For a response that is not [ok], [details] is the text the
    code extracts from its body. *)
Inductive gemini_body :=
| JsonRejects (message : string)
| Candidates (parts : list (option string)).   (* the [text] of every part *)

Inductive gemini_response :=
| GeminiFetchRejects (message : string)
| GeminiNotOk (status : Z) (details : string)
| GeminiOk (body : gemini_body).

Inductive reading := ReadDone | ReadRejects (message : string).

Inductive groq_response :=
| GroqFetchRejects (message : string)
| GroqNotOk (status : Z) (details : string)
| GroqNoBody
| GroqStream (chunks : list string) (ending : reading).

(** [setStatus] and [setResponse], as the page sees them. *)
Inductive ui_event := SetStatus (text : string) | SetResponse (response : string).

(** What a call leaves: what it returned or the message of the error it
    threw, the state, what it showed and what it fetched. *)
Record ran (A : Type) := {
  returned : string + A;
  state_after : state;
  shown : list ui_event;
  fetched : list http_request
}.
Arguments returned {A}. Arguments state_after {A}.
Arguments shown {A}. Arguments fetched {A}.

Definition throws {A : Type} (message : string) (st : state)
    (ui : list ui_event) (reqs : list http_request) : ran A :=
  {| returned := inl message; state_after := st; shown := ui; fetched := reqs |}.

Definition LF : ascii := "010"%char.

(** [s.split(sep)] for a separator of one character: the segments
    between its occurrences, at least one. *)
Fixpoint split (sep : ascii) (s : string) : list string :=
  match s with
  | EmptyString => [EmptyString]
  | String c rest =>
      if Ascii.eqb c sep then EmptyString :: split sep rest
      else match split sep rest with
           | first :: more => String c first :: more
           | [] => [String c EmptyString]
           end
  end.

(** The variables of the reading loop of [requestGroq], and the
    snapshots handed to [setResponse]. *)
Record stream_state := {
  streamBuffer : string;
  completeText : string;
  snapshots : list string
}.

Record result := { success : bool; error : option string }.

Section Browser.

(** [Number(s)] for a string, when it is finite ([None] for [NaN] and
    the infinities). *)
Variable Number_of_string : string -> option Q.

(** [JSON.parse(payload).choices?.[0]?.delta?.content], as the text
    appended for it; [None] when the parse or the access throws or the
    field is missing. *)
Variable delta_content : string -> option string.

(** [Number(value)] for what [getItem] returns: [null] converts to 0. *)
Definition Number (value : option string) : option Q :=
  match value with
  | None => Some 0%Q
  | Some s => Number_of_string s
  end.

Definition parseNumber (value : option string) (fallback : Q) : Q :=
  match Number value with
  | Some parsed => parsed
  | None => fallback
  end.

Definition getGenerationSettings (localStorage : storage) (st : state)
    (m : string) : generation_settings :=
  let mode :=
    or_else (localStorage "selectedMode")
            (if truthy (mode st) then mode st else "interview") in
  let keyPrefix := "modelSettings_" ++ m ++ "_" ++ mode ++ "_" in
  let maxAllowed :=
    match lookup m MODEL_MAX_TOKENS with Some n => n | None => 8192%Z end in
  {| temperature :=
       clamp (parseNumber (localStorage (keyPrefix ++ "temperature"))
                          (Dbl.double (7 # 10))) 0 2;
     topP :=
       clamp (parseNumber (localStorage (keyPrefix ++ "topP"))
                          (Dbl.double (95 # 100))) 0 1;
     maxOutputTokens :=
       clamp (inject_Z
                (Qfloor (parseNumber (localStorage (keyPrefix ++ "maxOutputTokens"))
                                     4096)))
             256 (inject_Z maxAllowed) |}.

(** [requestGemini] *)
Definition requestGemini (localStorage : storage)
    (backend : gemini_request -> gemini_response)
    (st : state) (text : string) (imageBase64 : option string) : ran string :=
  let apiKey := trim (or_else (localStorage "apiKey") "") in
  if negb (truthy apiKey) then throws "Missing Gemini API key" st [] []
  else
    let m := if truthy (model st) then model st else "gemini-2.5-flash" in
    let userParts :=
      (Session.TextPart (trim (text ++ getLanguageInstruction st))
       :: match imageBase64 with
          | Some data =>
              if truthy data then [Session.InlineData "image/jpeg" data] else []
          | None => []
          end)%list in
    let req :=
      {| gemini_model := m; gemini_key := apiKey;
         systemInstruction := buildSystemPrompt localStorage st;
         contents := (gemini_turns (history st)
                       ++ [Session.user_entry userParts])%list;
         generationConfig := getGenerationSettings localStorage st m |} in
    match backend req with
    | GeminiFetchRejects message => throws message st [] [GeminiRequest req]
    | GeminiNotOk status details =>
        throws ("Gemini request failed (" ++ string_of_Z status ++ "): " ++ details)
               st [] [GeminiRequest req]
    | GeminiOk (JsonRejects message) => throws message st [] [GeminiRequest req]
    | GeminiOk (Candidates parts) =>
        let answer :=
          trim (String.concat Session.nl
                  (map (fun t => or_else t "") parts)) in
        if negb (truthy answer)
        then throws "Gemini returned an empty response" st [] [GeminiRequest req]
        else
          {| returned := inr answer;
             state_after := with_history st (pushHistory text answer (history st));
             shown := [];
             fetched := [GeminiRequest req] |}
    end.

(** One line of the event stream. *)
Definition process_line (line : string) (s : stream_state) : stream_state :=
  match strip_prefix "data: " line with
  | None => s
  | Some rest =>
      let payload := trim rest in
      if payload =? "[DONE]" then s
      else
        match delta_content payload with
        | Some delta =>
            if truthy delta then
              {| streamBuffer := streamBuffer s;
                 completeText := completeText s ++ delta;
                 snapshots :=
                   (snapshots s ++ [(completeText s ++ delta)%string])%list |}
            else s
        | None => s
        end
  end.

(** One turn of the reading loop, for the text decoded from a chunk. *)
Definition read_chunk (s : stream_state) (decoded : string) : stream_state :=
  let lines := split LF (streamBuffer s ++ decoded) in
  fold_left (fun acc line => process_line line acc) (removelast lines)
    {| streamBuffer := or_else (Some (last lines "")) "";
       completeText := completeText s;
       snapshots := snapshots s |}.

Definition read_stream (chunks : list string) : stream_state :=
  fold_left read_chunk chunks
    {| streamBuffer := ""; completeText := ""; snapshots := [] |}.

(** [requestGroq] *)
Definition requestGroq (localStorage : storage)
    (backend : groq_request -> groq_response)
    (st : state) (text : string) (imageBase64 : option string) : ran string :=
  let apiKey := trim (or_else (localStorage "groqApiKey") "") in
  if negb (truthy apiKey) then throws "Missing Groq API key" st [] []
  else
    let m := if truthy (model st) then model st else "llama-4-maverick" in
    match lookup m GROQ_MODEL_IDS with
    | None => throws ("Unsupported Groq model: " ++ m) st [] []
    | Some modelId =>
        let finalText := trim (text ++ getLanguageInstruction st) in
        let last_message :=
          match imageBase64 with
          | Some data =>
              if truthy data
              then ContentWithImage finalText ("data:image/jpeg;base64," ++ data)
              else Content finalText
          | None => Content finalText
          end in
        let req :=
          {| authorization := "Bearer " ++ apiKey;
             groq_model := modelId;
             messages :=
               ({| role := "system";
                   content := Content (buildSystemPrompt localStorage st) |}
                :: groq_turns (history st)
                ++ [{| role := "user"; content := last_message |}])%list;
             groq_settings := getGenerationSettings localStorage st m |} in
        match backend req with
        | GroqFetchRejects message => throws message st [] [GroqRequest req]
        | GroqNotOk status details =>
            throws ("Groq request failed (" ++ string_of_Z status ++ "): " ++ details)
                   st [] [GroqRequest req]
        | GroqNoBody =>
            throws "Groq response stream is not available" st [] [GroqRequest req]
        | GroqStream chunks ending =>
            let s := read_stream chunks in
            let ui := map SetResponse (snapshots s) in
            match ending with
            | ReadRejects message => throws message st ui [GroqRequest req]
            | ReadDone =>
                let answer := trim (completeText s) in
                if negb (truthy answer)
                then throws "Groq returned an empty response" st ui [GroqRequest req]
                else
                  {| returned := inr answer;
                     state_after :=
                       with_history st (pushHistory text answer (history st));
                     shown := ui;
                     fetched := [GroqRequest req] |}
            end
        end
    end.

(** [sendMessageInternal] *)
Definition sendMessageInternal (localStorage : storage)
    (gemini : gemini_request -> gemini_response)
    (groq : groq_request -> groq_response)
    (st : state) (text : string) (imageBase64 : option string) : ran string :=
  if negb (initialized st) then throws "Session not initialized" st [] []
  else
    let thinking :=
      SetStatus (if match imageBase64 with Some d => truthy d | None => false end
                 then "Analyzing..." else "Thinking...") in
    let finish (r : ran string) : ran string :=
      match returned r with
      | inl message =>
          throws message (state_after r) (thinking :: shown r) (fetched r)
      | inr responseText =>
          {| returned := inr responseText;
             state_after := state_after r;
             shown := (thinking :: shown r
                        ++ [ SetResponse responseText;
                             SetStatus (if mode (state_after r) =? "interview"
                                        then "Listening..." else "Ready") ])%list;
             fetched := fetched r |}
      end in
    if isGeminiModel (model st)
    then finish (requestGemini localStorage gemini st text imageBase64)
    else if isGroqModel (model st)
    then finish (requestGroq localStorage groq st text imageBase64)
    else throws ("Unsupported model: " ++ model st) st [thinking] [].

(** The [catch] of the two entry points. *)
Definition report (r : ran string) : ran result :=
  match returned r with
  | inr _ =>
      {| returned := inr {| success := true; error := None |};
         state_after := state_after r; shown := shown r; fetched := fetched r |}
  | inl message =>
      {| returned := inr {| success := false; error := Some message |};
         state_after := state_after r;
         shown := (shown r ++ [SetStatus ("Error: " ++ message)])%list;
         fetched := fetched r |}
  end.

(** [sendTextMessage]; [screenshot] is what [getScreenshotBase64] does
    when it is called: it throws, or returns a string or
    [undefined]. *)
Definition sendTextMessage (localStorage : storage)
    (gemini : gemini_request -> gemini_response)
    (groq : groq_request -> groq_response)
    (screenshot : string + option string)
    (st : state) (text : string) : ran result :=
  if negb (truthy text) || negb (truthy (trim text)) then
    {| returned := inr {| success := false; error := Some "Empty message" |};
       state_after := st; shown := []; fetched := [] |}
  else
    let imageBase64 :=
      if mediaStream st
      then match screenshot with inr data => data | inl _ => None end
      else None in
    report (sendMessageInternal localStorage gemini groq st (trim text) imageBase64).


End Browser.

(** *** Initialisation *)

(** The calls into the microphone and the speech recognition, which
    are out of the model, in the order they are made. *)
Inductive media_call :=
| EnsureMicrophoneAccess
| StartSpeechRecognition
| DestroySpeechRecognition
| ReleaseMicrophoneAccess.

(** What [initializeGemini] leaves: [true] or the message of the error
    thrown, the state, the value assigned to [state.microphoneEnabled]
    when the assignment is reached, what was shown, and the calls
    made. *)
Record initialised := {
  init_returned : string + bool;
  init_state : state;
  init_microphoneEnabled : option bool;
  init_shown : list ui_event;
  init_calls : list media_call
}.

(** [initializeGemini(profile, language, mode, model)]; [micGranted]
    is what [ensureMicrophoneAccess] resolves with when it is
    called. *)
Definition initializeGemini (localStorage : storage) (micGranted : bool)
    (st : state) (profile language mode model : string) : initialised :=
  let chosen :=
    if truthy model then model
    else or_else (localStorage "selectedModel") "llama-4-maverick" in
  let st1 :=
    {| initialized := initialized st; mode := mode; profile := profile;
       language := language; model := chosen; history := [];
       mediaStream := mediaStream st; imageQuality := imageQuality st |} in
  let hasGeminiKey := truthy (trim (or_else (localStorage "apiKey") "")) in
  let hasGroqKey := truthy (trim (or_else (localStorage "groqApiKey") "")) in
  let thrown message :=
    {| init_returned := inl message; init_state := st1;
       init_microphoneEnabled := None; init_shown := []; init_calls := [] |} in
  if isGeminiModel chosen && negb hasGeminiKey
  then thrown "Missing Gemini API key"
  else if isGroqModel chosen && negb hasGroqKey
  then thrown "Missing Groq API key"
  else if negb (isGeminiModel chosen) && negb (isGroqModel chosen)
  then thrown ("Unsupported model: " ++ chosen)
  else
    let listens := (mode =? "interview") && getVadEnabled localStorage in
    {| init_returned := inr true;
       init_state :=
         {| initialized := true; mode := mode; profile := profile;
            language := language; model := chosen; history := [];
            mediaStream := mediaStream st; imageQuality := imageQuality st |};
       init_microphoneEnabled :=
         Some (if listens then getVadMode localStorage =? "automatic" else false);
       init_shown :=
         [SetStatus (if mode =? "interview" then "Listening..." else "Ready")];
       init_calls :=
         if mediaStream st then
           if listens then
             EnsureMicrophoneAccess
             :: (if micGranted then [StartSpeechRecognition] else [])
           else [DestroySpeechRecognition; ReleaseMicrophoneAccess]
         else [] |}.

(** *** The speech buffers *)

(** The part of [state] the recognition handler uses;
    [speechFlushTimer] tells whether the flush timer is armed. *)
Record speech := {
  microphoneEnabled : bool;
  speechAutoBuffer : string;
  speechManualBuffer : string;
  speechFlushTimer : bool;
  queue : SpeechQueue.state
}.

(** An entry of [event.results]: the transcript of its first
    alternative, when there is one, and [isFinal]. *)
Record recognition_result := { transcript : option string; isFinal : bool }.

(** The body of the loop of [recognition.onresult]. *)
Definition on_result (vadMode : string) (s : speech) (r : recognition_result)
  : speech :=
  let transcript := SpeechQueue.normalizeSpeechText (or_else (transcript r) "") in
  if negb (truthy transcript) then s
  else if negb (isFinal r) then s
  else if vadMode =? "manual" then
    {| microphoneEnabled := microphoneEnabled s;
       speechAutoBuffer := speechAutoBuffer s;
       speechManualBuffer :=
         SpeechQueue.normalizeSpeechText
           (speechManualBuffer s ++ " " ++ transcript);
       speechFlushTimer := speechFlushTimer s;
       queue := queue s |}
  else
    {| microphoneEnabled := microphoneEnabled s;
       speechAutoBuffer :=
         SpeechQueue.normalizeSpeechText (speechAutoBuffer s ++ " " ++ transcript);
       speechManualBuffer := speechManualBuffer s;
       speechFlushTimer := true;
       queue := queue s |}.

(** [recognition.onresult] for the results from [event.resultIndex]
    on. *)
Definition onresult (localStorage : storage) (results : list recognition_result)
    (s : speech) : speech :=
  if negb (microphoneEnabled s) then s
  else fold_left (on_result (getVadMode localStorage)) results s.

(** [flushAutomaticSpeech] *)
Definition flushAutomaticSpeech (s : speech) : speech :=
  let text := SpeechQueue.normalizeSpeechText (speechAutoBuffer s) in
  {| microphoneEnabled := microphoneEnabled s;
     speechAutoBuffer := "";
     speechManualBuffer := speechManualBuffer s;
     speechFlushTimer := false;
     queue := if negb (truthy text) then queue s
              else SpeechQueue.enqueueSpeechText text (queue s) |}.

(** [flushManualSpeech] *)
Definition flushManualSpeech (s : speech) : speech :=
  let text := SpeechQueue.normalizeSpeechText (speechManualBuffer s) in
  {| microphoneEnabled := microphoneEnabled s;
     speechAutoBuffer := speechAutoBuffer s;
     speechManualBuffer := "";
     speechFlushTimer := false;
     queue := if negb (truthy text) then queue s
              else SpeechQueue.enqueueSpeechText text (queue s) |}.

(** *** Notions used to state the properties *)

(** The last ten of a list of turns. *)
Definition last10 (turns : list (string * string)) : list (string * string) :=
  skipn (length turns - 10) turns.

(** What a request function leaves: on an error the state as it was;
    on an answer, which is trimmed and not empty, the turn pushed on
    the history, after one request. *)
Definition request_outcome (st : state) (text : string) (r : ran string) : Prop :=
  (length (fetched r) <= 1)%nat
  /\ match returned r with
     | inl _ => state_after r = st
     | inr answer =>
         answer <> "" /\ trim answer = answer
         /\ state_after r
            = with_history st (last10 (history st ++ [(text, answer)]))
         /\ length (fetched r) = 1%nat
     end.

(** The reading loop with another [streamBuffer]. *)
Definition with_buffer (buffer : string) (s : stream_state) : stream_state :=
  {| streamBuffer := buffer; completeText := completeText s;
     snapshots := snapshots s |}.

Definition cons_word (w : string) (ws : list string) : list string :=
  match w with EmptyString => ws | _ => w :: ws end.

(** The word that starts at the head of [s] (empty when [s] starts with
    white space) and the words after it. *)
Fixpoint words_from (s : string) : string * list string :=
  match s with
  | EmptyString => (EmptyString, [])
  | String c rest =>
      let (w, ws) := words_from rest in
      if is_space c then (EmptyString, cons_word w ws)
      else (String c w, ws)
  end.

(** The maximal runs of characters that are not white space. *)
Definition words (s : string) : list string :=
  cons_word (fst (words_from s)) (snd (words_from s)).

Fixpoint no_space (s : string) : bool :=
  match s with
  | EmptyString => true
  | String c rest => negb (is_space c) && no_space rest
  end.

(** A word: not empty, no white space. *)
Definition is_a_word (w : string) : bool := truthy w && no_space w.

(** The words joined by single spaces, and the same after a word. *)
Definition join (ws : list string) : string := String.concat " " ws.

Definition join_after (ws : list string) : string :=
  match ws with
  | [] => ""
  | _ => " " ++ join ws
  end.

(** The text holds the character. *)
Fixpoint has_char (c : ascii) (s : string) : bool :=
  match s with
  | EmptyString => false
  | String d rest => Ascii.eqb c d || has_char c rest
  end.

(** The transcripts of the final results of a series of events, in
    order. *)
Definition final_transcripts (events : list (list recognition_result))
  : list string :=
  map (fun r => or_else (transcript r) "") (filter isFinal (concat events)).

End WebApp.

(** ** The development server of the browser build *)

Module DevServer.

Definition MAX_PORT_ATTEMPTS : nat := 20.

(** What [server.listen(port)] comes to: the callback runs, or the
    ['error'] event fires, with the code [EADDRINUSE] or another. *)
Inductive listening := Listens | AddressInUse | OtherError.

(** How [startServer] ends: a server listens on a port, or the process
    exits with code 1 after the failure on a port. *)
Inductive started := Running (port : Z) | Exited (port : Z).

Fixpoint startServer (listen : Z -> listening) (port : Z) (attemptsLeft : nat)
  : started :=
  match listen port with
  | Listens => Running port
  | AddressInUse =>
      match attemptsLeft with
      | S fewer => startServer listen (port + 1) fewer
      | O => Exited port
      end
  | OtherError => Exited port
  end.

End DevServer.

(** ** Notions used to state more properties of the speech queue *)

Module SpeechQueueSpec.

Import SpeechQueue.

(** No awaited call rejects. *)
Definition every_call_resolves (events : list event) : bool :=
  forallb (fun e => match e with Settle _ false => false | _ => true end) events.

(** Nothing waits while no call is in flight. *)
Definition idle_means_drained (s : state) : Prop :=
  in_flight s = [] -> speechQueue s = [] /\ processingSpeechQueue s = false.

End SpeechQueueSpec.

(** ** Values used in examples *)

Module Examples.

Import RateLimit Session.
Local Open Scope string_scope.

Definition sample_settings : settings :=
  {| currentMode := "interview"; storedLanguageName := "English";
     maxOutputTokens := 8192; examMessageHint := "" |}.

Definition fresh_session : session :=
  {| model := "gemini-2.5-flash"; systemPrompt := "You are an assistant.";
     tools := []; isClosed := false; conversationHistory := [] |}.

Definition idle_timer : timer_state :=
  {| rateLimitCountdownInterval := None; published := [] |}.

Definition text_input (t : string) : input :=
  {| input_text := Some t; input_media := None |}.

Definition image_input (data : string) : input :=
  {| input_text := None;
     input_media := Some {| media_mimeType := "image/jpeg"; media_data := data |} |}.

(** A backend that answers every request with one chunk. *)
Definition answers (text : string) (_ : request) : response :=
  Stream [[Some text]] StreamEnds.

(** A stream that delivers one chunk and then fails, with no usable
    fallback result. *)
Definition breaks_after_first_chunk (_ : request) : response :=
  Stream [[Some "A binary tree is"]]
         (StreamThrows {| message := Some "socket hang up" |} (FallbackResult [])).

(** A call that is refused for its rate. *)
Definition rate_limited (_ : request) : response :=
  CallRejects {| message := Some "429 RESOURCE_EXHAUSTED. Please retry in 5s." |}.

Definition call_with (backend : request -> response) (i : input) : call :=
  {| call_settings := sample_settings; call_backend := backend; call_input := i |}.

(** Nine questions, each answered. *)
Definition nine_questions : list call :=
  map (fun q => call_with (answers "It depends.") (text_input q))
      ["q1"; "q2"; "q3"; "q4"; "q5"; "q6"; "q7"; "q8"; "q9"].

Definition screenshot (data : string) : call :=
  call_with (answers "Use a hash map.") (image_input data).

(** Three samples: -32768, 32767 and 12345, little-endian. *)
Definition three_samples : Pcm.buffer :=
  [x00; x80; xff; x7f; x39; x30]%byte.

Definition spoken : list SpeechQueue.event :=
  [ SpeechQueue.Enqueue "hello there";
    SpeechQueue.Enqueue "what is a binary tree?";
    SpeechQueue.Enqueue "ok thanks" ].

End Examples.

(** ** More values used in examples *)

Module Samples.

Local Open Scope string_scope.

Definition retry_in_30 : string :=
  "429 Too Many Requests. Please retry in 30s.".

Definition retry_in_30_error : Session.js_error :=
  {| Session.message := Some retry_in_30 |}.

Definition overloaded : string := "503 The model is overloaded.".

Definition overloaded_error : Session.js_error :=
  {| Session.message := Some overloaded |}.

(** A hub that holds the fresh session. *)
Definition open_hub : Ipc.hub :=
  {| Ipc.current := Some Examples.fresh_session;
     Ipc.timer := Examples.idle_timer |}.

Definition nothing_stored : WebApp.storage := fun _ => None.

(** The microphone is on, nothing has been heard. *)
Definition listening : WebApp.speech :=
  {| WebApp.microphoneEnabled := true;
     WebApp.speechAutoBuffer := "";
     WebApp.speechManualBuffer := "";
     WebApp.speechFlushTimer := false;
     WebApp.queue := SpeechQueue.initial |}.

(** A question heard in two final fragments, over two events, with an
    interim result in between. *)
Definition heard_in_two_parts : list (list WebApp.recognition_result) :=
  [ [ {| WebApp.transcript := Some "Tell me"; WebApp.isFinal := true |} ];
    [ {| WebApp.transcript := Some "about"; WebApp.isFinal := false |};
      {| WebApp.transcript := Some " about  hash maps "; WebApp.isFinal := true |} ] ].

(** Two questions, each answered before anything else happens. *)
Definition two_questions_answered : list SpeechQueue.event :=
  [ SpeechQueue.Enqueue "what is a heap?";
    SpeechQueue.Enqueue "why is it a tree?";
    SpeechQueue.Settle 0 true;
    SpeechQueue.Settle 0 true ].

End Samples.

(* ================================================================== *)
(** * Part II: properties                                              *)
(* ================================================================== *)

(** ** The frame loop, for an arbitrary positive frame size *)

Section FrameLoop.

Import Pcm.

Variable size : nat.
Hypothesis size_pos : 0 < size.

Lemma frame_loop_fuel_irrelevant :
  forall fuel1 fuel2 buf,
    length buf < fuel1 -> length buf < fuel2 ->
    frame_loop fuel1 size buf = frame_loop fuel2 size buf.
Proof.
  induction fuel1 as [|f1 IH]; intros fuel2 buf H1 H2; [lia|].
  destruct fuel2 as [|f2]; [lia|].
  cbn [frame_loop].
  destruct (size <=? length buf) eqn:E; [|reflexivity].
  apply Nat.leb_le in E.
  rewrite (IH f2 (skipn size buf)); [reflexivity| |];
    rewrite length_skipn; lia.
Qed.

(** The loop as the source reads: one test, one frame, and again. *)
Lemma split_frames_unfold :
  forall buf,
    split_frames size buf =
    if size <=? length buf
    then (firstn size buf :: fst (split_frames size (skipn size buf)),
          snd (split_frames size (skipn size buf)))
    else ([], buf).
Proof.
  intros buf. unfold split_frames at 1. cbn [frame_loop].
  destruct (size <=? length buf) eqn:E; [|reflexivity].
  apply Nat.leb_le in E.
  rewrite (frame_loop_fuel_irrelevant (length buf)
             (S (length (skipn size buf))) (skipn size buf));
    try (rewrite length_skipn; lia).
  fold (split_frames size (skipn size buf)).
  destruct (split_frames size (skipn size buf)); reflexivity.
Qed.

(** Induction on buffers by length. *)
Lemma buffer_length_ind (P : list byte -> Prop) :
  (forall buf, (forall b, length b < length buf -> P b) -> P buf) ->
  forall buf, P buf.
Proof.
  intros step buf.
  remember (length buf) as n eqn:Hn.
  revert buf Hn.
  induction n as [n IH] using lt_wf_ind.
  intros buf ->. apply step. intros b Hb. exact (IH _ Hb b eq_refl).
Qed.

(** The loop stops on its own test: what it leaves is shorter than a
    frame. *)
Lemma split_frames_residual :
  forall buf, length (snd (split_frames size buf)) < size.
Proof.
  induction buf as [buf IH] using buffer_length_ind.
  rewrite split_frames_unfold.
  destruct (size <=? length buf) eqn:E; cbn [snd].
  - apply Nat.leb_le in E. apply IH. rewrite length_skipn. lia.
  - apply Nat.leb_gt in E. exact E.
Qed.

Lemma split_frames_concat :
  forall buf,
    concat (fst (split_frames size buf)) ++ snd (split_frames size buf) = buf.
Proof.
  induction buf as [buf IH] using buffer_length_ind.
  rewrite split_frames_unfold.
  destruct (size <=? length buf) eqn:E; cbn [fst snd concat]; [|reflexivity].
  apply Nat.leb_le in E.
  rewrite <- app_assoc, IH by (rewrite length_skipn; lia).
  apply firstn_skipn.
Qed.

Lemma split_frames_frame_length :
  forall buf, Forall (fun f => length f = size) (fst (split_frames size buf)).
Proof.
  induction buf as [buf IH] using buffer_length_ind.
  rewrite split_frames_unfold.
  destruct (size <=? length buf) eqn:E; cbn [fst]; [|constructor].
  apply Nat.leb_le in E. constructor.
  - rewrite length_firstn. lia.
  - apply IH. rewrite length_skipn. lia.
Qed.

Lemma split_frames_short :
  forall buf, length buf < size -> split_frames size buf = ([], buf).
Proof.
  intros buf H. rewrite split_frames_unfold.
  apply Nat.leb_gt in H. rewrite H. reflexivity.
Qed.

(** Framing commutes with the arrival of more bytes: the frames of
    [buf ++ data] are those of [buf] followed by those cut from what
    [buf] left and [data]. *)
Lemma split_frames_app :
  forall buf data,
    split_frames size (buf ++ data) =
    (fst (split_frames size buf)
       ++ fst (split_frames size (snd (split_frames size buf) ++ data)),
     snd (split_frames size (snd (split_frames size buf) ++ data))).
Proof.
  induction buf as [buf IH] using buffer_length_ind. intros data.
  rewrite (split_frames_unfold buf).
  destruct (size <=? length buf) eqn:E.
  - assert (Hle : size <= length buf) by (apply Nat.leb_le; exact E).
    cbn [fst snd].
    rewrite (split_frames_unfold (buf ++ data)).
    assert (E' : (size <=? length (buf ++ data)) = true)
      by (apply Nat.leb_le; rewrite length_app; lia).
    rewrite E'.
    rewrite skipn_app, firstn_app.
    replace (size - length buf) with 0 by lia.
    cbn [skipn firstn]. rewrite app_nil_r.
    rewrite IH by (rewrite length_skipn; lia).
    reflexivity.
  - cbn [fst snd app].
    destruct (split_frames size (buf ++ data)); reflexivity.
Qed.

End FrameLoop.

(** ** The PCM framer of [startMacOSAudioCapture] *)

Section Framer.

Import Pcm.

Arguments CHUNK_SIZE : simpl never.
Arguments maxBufferSize : simpl never.

(** [24000 * 2 * 2 * 0.1] is 9600 in binary64 too: the product of
    96000 and the double nearest to 0.1 rounds to 9600. *)
Lemma CHUNK_SIZE_number_exact : CHUNK_SIZE_number = 9600%Q.
Proof. vm_compute. reflexivity. Qed.

Lemma CHUNK_SIZE_value : Z.of_nat CHUNK_SIZE = 9600%Z.
Proof. vm_compute. reflexivity. Qed.

Lemma maxBufferSize_value : Z.of_nat maxBufferSize = 48000%Z.
Proof. vm_compute. reflexivity. Qed.

Lemma CHUNK_SIZE_pos : 0 < CHUNK_SIZE.
Proof. pose proof CHUNK_SIZE_value. lia. Qed.

Lemma CHUNK_SIZE_below_ceiling : CHUNK_SIZE < maxBufferSize.
Proof. pose proof CHUNK_SIZE_value. pose proof maxBufferSize_value. lia. Qed.

Lemma trim_never_taken :
  forall audioBuffer data, trim_taken audioBuffer data = false.
Proof.
  intros. unfold trim_taken. apply Nat.ltb_ge.
  pose proof (split_frames_residual _ CHUNK_SIZE_pos (audioBuffer ++ data)).
  pose proof CHUNK_SIZE_below_ceiling. lia.
Qed.

(** The handler, with the dead trim branch removed. *)
Lemma on_data_frames :
  forall r audioBuffer data,
    map chunk (fst (on_data r audioBuffer data))
      = fst (split_frames CHUNK_SIZE (audioBuffer ++ data))
    /\ snd (on_data r audioBuffer data)
      = snd (split_frames CHUNK_SIZE (audioBuffer ++ data)).
Proof.
  intros r audioBuffer data.
  pose proof (trim_never_taken audioBuffer data) as Htrim.
  unfold trim_taken in Htrim. unfold on_data.
  destruct (split_frames CHUNK_SIZE (audioBuffer ++ data)) as [frames rest].
  cbn [fst snd] in *. rewrite Htrim. split; [|reflexivity].
  rewrite map_map. cbn [chunk]. apply map_id.
Qed.

Lemma on_data_mono :
  forall r audioBuffer data,
    map monoChunk (fst (on_data r audioBuffer data))
      = map convertStereoToMono (map chunk (fst (on_data r audioBuffer data))).
Proof.
  intros. unfold on_data.
  destruct (split_frames CHUNK_SIZE (audioBuffer ++ data)) as [frames rest].
  cbn [fst]. rewrite !map_map. reflexivity.
Qed.

Lemma on_data_residual :
  forall r audioBuffer data,
    length (snd (on_data r audioBuffer data)) < CHUNK_SIZE.
Proof.
  intros. destruct (on_data_frames r audioBuffer data) as [_ ->].
  apply split_frames_residual, CHUNK_SIZE_pos.
Qed.

(** A run of the handler from a buffer shorter than a frame cuts the
    frames of the whole input. *)
Lemma feed_frames :
  forall events audioBuffer,
    length audioBuffer < CHUNK_SIZE ->
    map chunk (fst (feed events audioBuffer))
      = fst (split_frames CHUNK_SIZE (audioBuffer ++ concat (map snd events)))
    /\ snd (feed events audioBuffer)
      = snd (split_frames CHUNK_SIZE (audioBuffer ++ concat (map snd events))).
Proof.
  induction events as [|[r data] more IH]; intros audioBuffer Hlen.
  - cbn [feed map concat fst snd]. rewrite app_nil_r.
    rewrite (split_frames_short _ CHUNK_SIZE_pos _ Hlen). split; reflexivity.
  - cbn [feed map concat snd].
    destruct (on_data_frames r audioBuffer data) as [Hf Hr].
    pose proof (on_data_residual r audioBuffer data) as Hres.
    destruct (on_data r audioBuffer data) as [out buf'].
    cbn [fst snd] in Hf, Hr, Hres.
    destruct (IH buf' Hres) as [IHf IHr].
    destruct (feed more buf') as [outs final]. cbn [fst snd] in *.
    rewrite app_assoc, (split_frames_app _ CHUNK_SIZE_pos (audioBuffer ++ data)).
    cbn [fst snd]. rewrite map_app, Hf, IHf, IHr, Hr. split; reflexivity.
Qed.

Lemma feed_mono :
  forall events audioBuffer,
    map monoChunk (fst (feed events audioBuffer))
      = map convertStereoToMono (map chunk (fst (feed events audioBuffer))).
Proof.
  induction events as [|[r data] more IH]; intros audioBuffer; [reflexivity|].
  cbn [feed]. pose proof (on_data_mono r audioBuffer data) as Hm.
  destruct (on_data r audioBuffer data) as [out buf'].
  specialize (IH buf'). destruct (feed more buf') as [outs final].
  cbn [fst] in *. rewrite !map_app, Hm, IH. reflexivity.
Qed.

(** C10. Whatever the buffer held and whatever arrives, the handler
    leaves fewer bytes than one frame of 9600 bytes; that is below the
    ceiling of 48000 bytes, so the trim branch is not taken, and the
    frames cut followed by the bytes left are exactly the bytes held
    and received: the framer drops nothing. *)
Theorem on_data_residual_below_frame :
  forall r audioBuffer data,
    (Z.of_nat (length (snd (on_data r audioBuffer data))) < 9600)%Z
    /\ (9600 < Z.of_nat maxBufferSize)%Z
    /\ Z.of_nat maxBufferSize = 48000%Z
    /\ trim_taken audioBuffer data = false
    /\ concat (map chunk (fst (on_data r audioBuffer data)))
         ++ snd (on_data r audioBuffer data)
       = audioBuffer ++ data.
Proof.
  intros r audioBuffer data.
  pose proof (on_data_residual r audioBuffer data) as Hres.
  pose proof CHUNK_SIZE_value as Hc. pose proof maxBufferSize_value as Hm.
  destruct (on_data_frames r audioBuffer data) as [Hf Hr].
  repeat split; try lia.
  - apply trim_never_taken.
  - rewrite Hf, Hr. apply split_frames_concat, CHUNK_SIZE_pos.
Qed.

(** C5. Feeding the bytes in any partition into chunks, under any
    routing flags, emits the same frames, byte for byte and in the
    same order, as feeding them in one call; every frame has 9600
    bytes, and both runs leave the same bytes in the buffer. *)
Theorem feed_chunking_irrelevant :
  forall (events : list (routing * buffer)) (r : routing),
    let whole := concat (map snd events) in
    map chunk (fst (feed events [])) = map chunk (fst (on_data r [] whole))
    /\ map monoChunk (fst (feed events []))
       = map monoChunk (fst (on_data r [] whole))
    /\ snd (feed events []) = snd (on_data r [] whole)
    /\ Forall (fun e => Z.of_nat (length (chunk e)) = 9600%Z)
              (fst (feed events [])).
Proof.
  intros events r whole.
  destruct (feed_frames events []) as [Hf Hr];
    [apply CHUNK_SIZE_pos|].
  destruct (on_data_frames r [] whole) as [Hf' Hr'].
  cbn [app] in *. fold whole in Hf, Hr.
  assert (Hchunks :
    map chunk (fst (feed events [])) = map chunk (fst (on_data r [] whole)))
    by (rewrite Hf, Hf'; reflexivity).
  repeat split.
  - exact Hchunks.
  - rewrite feed_mono, on_data_mono, Hchunks. reflexivity.
  - rewrite Hr, Hr'. reflexivity.
  - pose proof (split_frames_frame_length _ CHUNK_SIZE_pos whole) as Hall.
    rewrite <- Hf in Hall. rewrite Forall_map in Hall.
    eapply Forall_impl; [|exact Hall].
    cbn beta. intros e He. rewrite He. apply CHUNK_SIZE_value.
Qed.

End Framer.

(** ** Rounding to a binary format *)

Section Rounding.

Import Dbl.
Local Open Scope Q_scope.

Lemma pow2_pos : forall e, 0 < pow2 e.
Proof. intros e. apply Qpower_0_lt. reflexivity. Qed.

Lemma pow2_plus : forall a b, pow2 (a + b) == pow2 a * pow2 b.
Proof. intros a b. apply Qpower_plus. discriminate. Qed.

Lemma pow2_le : forall a b, (a <= b)%Z -> pow2 a <= pow2 b.
Proof. intros a b H. apply Qpower_le_compat_l; [exact H|discriminate]. Qed.

Lemma pow2_inject : forall n, (0 <= n)%Z -> pow2 n == inject_Z (2 ^ n).
Proof. intros n H. symmetry. apply (Zpower_Qpower 2 n H). Qed.

Lemma Qmake_as_div : forall n d, n # d == inject_Z n / inject_Z (Zpos d).
Proof. intros n d. rewrite Qmake_Qdiv. reflexivity. Qed.

(** The exponent found is not above the logarithm. *)
Lemma ilog2_floor_lower : forall q, 0 < q -> pow2 (ilog2_floor q) <= q.
Proof.
  intros [n d] Hq. unfold ilog2_floor. cbn [Qnum Qden].
  set (k := (Z.log2 n - Z.log2 (Z.pos d))%Z).
  destruct (Qle_bool (pow2 k) (n # d)) eqn:E.
  - apply Qle_bool_iff. exact E.
  - assert (Hn : (0 < n)%Z) by (unfold Qlt in Hq; cbn in Hq; lia).
    destruct (Z.log2_spec n Hn) as [Hlo _].
    destruct (Z.log2_spec (Z.pos d) eq_refl) as [_ Hhi].
    pose proof (Z.log2_nonneg n) as Ha.
    pose proof (Z.log2_nonneg (Z.pos d)) as Hb.
    set (a := Z.log2 n) in *. set (b := Z.log2 (Z.pos d)) in *.
    (* pow2 (a - b - 1) * 2^(b+1) = 2^a <= n, and d < 2^(b+1) *)
    assert (Hk : pow2 (k - 1) * pow2 (b + 1) == pow2 a).
    { rewrite <- pow2_plus. subst k. replace (a - b - 1 + (b + 1))%Z with a by lia.
      reflexivity. }
    assert (Hlo' : pow2 a <= inject_Z n).
    { rewrite pow2_inject by lia. rewrite <- Zle_Qle. exact Hlo. }
    assert (Hhi' : inject_Z (Z.pos d) <= pow2 (b + 1)).
    { rewrite pow2_inject by lia. rewrite <- Zle_Qle.
      replace (b + 1)%Z with (Z.succ b) by lia. lia. }
    rewrite Qmake_as_div.
    assert (Hd : 0 < inject_Z (Z.pos d)) by (unfold Qlt; cbn; lia).
    apply Qle_shift_div_l; [exact Hd|].
    pose proof (pow2_pos (k - 1)) as Hp.
    apply Qle_trans with (pow2 (k - 1) * pow2 (b + 1)).
    + apply Qmult_le_compat_nonneg; split; lra.
    + rewrite Hk. exact Hlo'.
Qed.

Lemma nearest_even_error :
  forall x, - (1 # 2) <= inject_Z (nearest_even x) - x <= 1 # 2.
Proof.
  intros x. unfold nearest_even.
  pose proof (Qfloor_le x) as Hlo. pose proof (Qlt_floor x) as Hhi.
  rewrite inject_Z_plus in Hhi. change (inject_Z 1) with 1 in Hhi.
  destruct (Qcompare_spec (x - inject_Z (Qfloor x)) (1 # 2)) as [E|E|E].
  - destruct (Z.even (Qfloor x));
      [|rewrite inject_Z_plus; change (inject_Z 1) with 1]; lra.
  - lra.
  - rewrite inject_Z_plus. change (inject_Z 1) with 1. lra.
Qed.

(** Rounding moves a positive value by at most its [2^-prec]-th part. *)
Lemma round_pos_error :
  forall prec q,
    0 < q ->
    q - q * pow2 (- prec) <= round_pos prec q <= q + q * pow2 (- prec).
Proof.
  intros prec q Hq. unfold round_pos.
  set (e := (ilog2_floor q - (prec - 1))%Z).
  rewrite Qred_correct.
  pose proof (nearest_even_error (q / pow2 e)) as Herr.
  set (m := inject_Z (nearest_even (q / pow2 e))) in *.
  pose proof (pow2_pos e) as He.
  assert (Hq' : q == q / pow2 e * pow2 e) by (field; lra).
  (* half a unit in the last place is at most q * 2^-prec *)
  assert (Hulp : (1 # 2) * pow2 e <= q * pow2 (- prec)).
  { assert (Hsplit : (1 # 2) * pow2 e == pow2 (ilog2_floor q) * pow2 (- prec)).
    { rewrite <- pow2_plus.
      replace (ilog2_floor q + - prec)%Z with (e + -1)%Z by (subst e; lia).
      rewrite pow2_plus. change (pow2 (-1)) with (1 # 2). ring. }
    rewrite Hsplit. apply Qmult_le_compat_r.
    - apply ilog2_floor_lower, Hq.
    - apply Qlt_le_weak, pow2_pos. }
  set (x := q / pow2 e) in *.
  assert (Hd : m * pow2 e - q == (m - x) * pow2 e) by (rewrite Hq' at 1; ring).
  assert (Hup : (m - x) * pow2 e <= (1 # 2) * pow2 e)
    by (apply Qmult_le_compat_r; lra).
  assert (Hdn : (- (1 # 2)) * pow2 e <= (m - x) * pow2 e)
    by (apply Qmult_le_compat_r; lra).
  split; lra.
Qed.

Lemma round_ne_pos : forall prec q, 0 < q -> round_ne prec q = round_pos prec q.
Proof.
  intros prec [n d] H. unfold round_ne. cbn [Qnum].
  unfold Qlt in H. cbn in H. destruct n; try lia. reflexivity.
Qed.

Lemma round_ne_neg :
  forall prec q, q < 0 -> round_ne prec q = - round_pos prec (- q).
Proof.
  intros prec [n d] H. unfold round_ne. cbn [Qnum].
  unfold Qlt in H. cbn in H. destruct n; try lia. reflexivity.
Qed.

Lemma round_ne_error_pos :
  forall prec q,
    0 < q ->
    q - q * pow2 (- prec) <= round_ne prec q <= q + q * pow2 (- prec).
Proof.
  intros prec q Hq. rewrite (round_ne_pos prec q Hq).
  apply round_pos_error, Hq.
Qed.

Lemma round_ne_error_neg :
  forall prec q,
    q < 0 ->
    q + q * pow2 (- prec) <= round_ne prec q <= q - q * pow2 (- prec).
Proof.
  intros prec q Hq. rewrite (round_ne_neg prec q Hq).
  assert (Hq' : 0 < - q) by lra.
  pose proof (round_pos_error prec (- q) Hq') as [Hlo Hhi].
  split; lra.
Qed.

Lemma ltb_lt : forall a b, ltb a b = true <-> a < b.
Proof.
  intros a b. unfold ltb. rewrite Qlt_alt.
  destruct (a ?= b); split; congruence.
Qed.

Lemma ltb_ge : forall a b, ltb a b = false <-> b <= a.
Proof.
  intros a b. pose proof (ltb_lt a b) as H.
  destruct (ltb a b); split; intros H'; try congruence.
  - exfalso. apply (Qlt_not_le a b); [apply H; reflexivity|exact H'].
  - apply Qnot_lt_le. intros Hlt. apply H in Hlt. discriminate.
Qed.

(** The integer [z] with [z <= x < z + 1] is the floor of [x]. *)
Lemma Qfloor_unique :
  forall x z, inject_Z z <= x -> x < inject_Z z + 1 -> Qfloor x = z.
Proof.
  intros x z Hlo Hhi.
  pose proof (Qfloor_le x) as Hfl. pose proof (Qlt_floor x) as Hfh.
  rewrite inject_Z_plus in Hfh. change (inject_Z 1) with 1 in Hfh.
  assert (H1 : inject_Z (Qfloor x) < inject_Z (z + 1))
    by (rewrite inject_Z_plus; change (inject_Z 1) with 1; lra).
  assert (H2 : inject_Z z < inject_Z (Qfloor x + 1))
    by (rewrite inject_Z_plus; change (inject_Z 1) with 1; lra).
  rewrite <- Zlt_Qlt in H1, H2. lia.
Qed.

Lemma round_near : forall y z, inject_Z z - (1 # 2) <= y -> y < inject_Z z + (1 # 2) -> round y = z.
Proof. intros y z Hlo Hhi. unfold round. apply Qfloor_unique; lra. Qed.

End Rounding.

(** ** Int16 <-> float32 sample conversion *)

Section SampleConversion.

Import Pcm.

Local Open Scope Q_scope.

Lemma pow2_m53 : Dbl.pow2 (- (53)) == 1 # 9007199254740992.
Proof. reflexivity. Qed.

Lemma pow2_m24 : Dbl.pow2 (- (24)) == 1 # 16777216.
Proof. reflexivity. Qed.

(** The clamp to [[-1, 1]] of a positive value: the value or 1. *)
Lemma clamp_pos :
  forall x, 0 < x ->
    let c := Dbl.max (-1) (Dbl.min 1 x) in
    (c = x /\ x < 1) \/ (c = 1 /\ 1 <= x).
Proof.
  intros x Hx. unfold Dbl.max, Dbl.min.
  destruct (Dbl.ltb x 1) eqn:E.
  - apply ltb_lt in E.
    assert (E' : Dbl.ltb (-1) x = true) by (apply ltb_lt; lra).
    rewrite E'. left. split; [reflexivity|exact E].
  - apply ltb_ge in E. right. split; [reflexivity|exact E].
Qed.

Lemma clamp_neg :
  forall x, x < 0 ->
    let c := Dbl.max (-1) (Dbl.min 1 x) in
    (c = x /\ -1 < x) \/ (c = -1 /\ x <= -1).
Proof.
  intros x Hx. unfold Dbl.max, Dbl.min.
  assert (E : Dbl.ltb x 1 = true) by (apply ltb_lt; lra).
  rewrite E.
  destruct (Dbl.ltb (-1) x) eqn:E'.
  - apply ltb_lt in E'. left. split; [reflexivity|exact E'].
  - apply ltb_ge in E'. right. split; [reflexivity|exact E'].
Qed.

Lemma sample_roundtrip_pos :
  forall s, (1 <= s <= 32767)%Z -> float32ToInt16 (int16ToFloat32 s) = s.
Proof.
  intros s Hs. unfold int16ToFloat32.
  replace (s <? 0)%Z with false by (symmetry; apply Z.ltb_ge; lia).
  unfold Dbl.fround, Dbl.div, Dbl.double.
  set (S := inject_Z s).
  assert (HS : 1 <= S <= 32767).
  { subst S. split; [change 1 with (inject_Z 1)|change 32767 with (inject_Z 32767)];
      rewrite <- Zle_Qle; lia. }
  set (q := S / 32767).
  assert (Hq : q * 32767 == S) by (subst q; field).
  assert (Hqpos : 0 < q) by lra.
  pose proof (round_ne_error_pos 53 q Hqpos) as H1. rewrite pow2_m53 in H1.
  set (x1 := Dbl.round_ne 53 q) in *.
  assert (Hx1 : 0 < x1) by lra.
  pose proof (round_ne_error_pos 24 x1 Hx1) as H2. rewrite pow2_m24 in H2.
  set (x2 := Dbl.round_ne 24 x1) in *.
  assert (Hx2 : 0 < x2) by lra.
  unfold float32ToInt16.
  pose proof (clamp_pos x2 Hx2) as Hc. cbv zeta in Hc.
  set (c := Dbl.max (-1) (Dbl.min 1 x2)) in *.
  assert (Hcpos : 0 < c) by (destruct Hc as [[-> _]|[-> _]]; lra).
  replace (Dbl.ltb c 0) with false by (symmetry; apply ltb_ge; lra).
  unfold Dbl.mul, Dbl.double.
  assert (Hp : 0 < c * 32767) by lra.
  pose proof (round_ne_error_pos 53 (c * 32767) Hp) as H3. rewrite pow2_m53 in H3.
  set (y := Dbl.round_ne 53 (c * 32767)) in *.
  apply round_near; fold S; destruct Hc as [[Hc Hlt]|[Hc Hge]]; rewrite Hc in *; lra.
Qed.

Lemma sample_roundtrip_neg :
  forall s, (-32768 <= s <= -1)%Z -> float32ToInt16 (int16ToFloat32 s) = s.
Proof.
  intros s Hs. unfold int16ToFloat32.
  replace (s <? 0)%Z with true by (symmetry; apply Z.ltb_lt; lia).
  unfold Dbl.fround, Dbl.div, Dbl.double.
  set (S := inject_Z s).
  assert (HS : -32768 <= S <= -1).
  { subst S. split; [change (-32768) with (inject_Z (-32768))|change (-1) with (inject_Z (-1))];
      rewrite <- Zle_Qle; lia. }
  set (q := S / 32768).
  assert (Hq : q * 32768 == S) by (subst q; field).
  assert (Hqneg : q < 0) by lra.
  pose proof (round_ne_error_neg 53 q Hqneg) as H1. rewrite pow2_m53 in H1.
  set (x1 := Dbl.round_ne 53 q) in *.
  assert (Hx1 : x1 < 0) by lra.
  pose proof (round_ne_error_neg 24 x1 Hx1) as H2. rewrite pow2_m24 in H2.
  set (x2 := Dbl.round_ne 24 x1) in *.
  assert (Hx2 : x2 < 0) by lra.
  unfold float32ToInt16.
  pose proof (clamp_neg x2 Hx2) as Hc. cbv zeta in Hc.
  set (c := Dbl.max (-1) (Dbl.min 1 x2)) in *.
  assert (Hcneg : c < 0) by (destruct Hc as [[-> _]|[-> _]]; lra).
  replace (Dbl.ltb c 0) with true by (symmetry; apply ltb_lt; lra).
  unfold Dbl.mul, Dbl.double.
  assert (Hp : c * 32768 < 0) by lra.
  pose proof (round_ne_error_neg 53 (c * 32768) Hp) as H3. rewrite pow2_m53 in H3.
  set (y := Dbl.round_ne 53 (c * 32768)) in *.
  apply round_near; fold S; destruct Hc as [[Hc Hlt]|[Hc Hge]]; rewrite Hc in *; lra.
Qed.

Lemma sample_roundtrip :
  forall s, (-32768 <= s <= 32767)%Z -> float32ToInt16 (int16ToFloat32 s) = s.
Proof.
  intros s Hs.
  destruct (Z.lt_trichotomy s 0) as [H|[->|H]].
  - apply sample_roundtrip_neg. lia.
  - vm_compute. reflexivity.
  - apply sample_roundtrip_pos. lia.
Qed.

Local Close Scope Q_scope.

Lemma byte_to_Z_range : forall b, (0 <= Z.of_N (Byte.to_N b) <= 255)%Z.
Proof. intros b. pose proof (Byte.to_N_bounded b). lia. Qed.

Lemma readInt16LE_range :
  forall lo hi, (-32768 <= readInt16LE lo hi <= 32767)%Z.
Proof.
  intros lo hi. unfold readInt16LE.
  pose proof (byte_to_Z_range lo). pose proof (byte_to_Z_range hi).
  destruct (Z.ltb_spec (Z.of_N (Byte.to_N lo) + 256 * Z.of_N (Byte.to_N hi)) 32768);
    lia.
Qed.

Lemma writeInt16LE_readInt16LE :
  forall lo hi, writeInt16LE (readInt16LE lo hi) = Some (lo, hi).
Proof.
  intros lo hi. unfold writeInt16LE.
  pose proof (readInt16LE_range lo hi) as Hr.
  replace ((-32768 <=? readInt16LE lo hi)%Z && (readInt16LE lo hi <=? 32767)%Z)
    with true
    by (symmetry; apply andb_true_iff; split; apply Z.leb_le; lia).
  pose proof (byte_to_Z_range lo) as Hlo. pose proof (byte_to_Z_range hi) as Hhi.
  set (l := Z.of_N (Byte.to_N lo)) in *. set (h := Z.of_N (Byte.to_N hi)) in *.
  assert (Hu : (readInt16LE lo hi mod 65536 = l + 256 * h)%Z).
  { unfold readInt16LE. fold l h.
    destruct (Z.ltb_spec (l + 256 * h) 32768).
    - apply Z.mod_small. lia.
    - replace (l + 256 * h - 65536)%Z with (l + 256 * h + (-1) * 65536)%Z by lia.
      rewrite Z.mod_add by lia. apply Z.mod_small. lia. }
  rewrite Hu.
  assert (Hm : ((l + 256 * h) mod 256 = l)%Z).
  { replace (l + 256 * h)%Z with (l + h * 256)%Z by lia.
    rewrite Z.mod_add by lia. apply Z.mod_small. lia. }
  assert (Hd : ((l + 256 * h) / 256 = h)%Z).
  { replace (l + 256 * h)%Z with (l + h * 256)%Z by lia.
    rewrite Z.div_add by lia. rewrite Z.div_small by lia. lia. }
  rewrite Hm, Hd. subst l h. rewrite !N2Z.id, !Byte.of_to_N. reflexivity.
Qed.

(** Buffers of whole samples convert; and converting back gives the
    bytes read. *)
Lemma pcm_roundtrip_pairs :
  forall n pcmBuffer,
    length pcmBuffer = 2 * n ->
    exists float32Array,
      convertPCMBufferToFloat32 pcmBuffer = Some float32Array
      /\ length float32Array = n
      /\ convertFloat32ToPCMBuffer float32Array = Some pcmBuffer.
Proof.
  induction n as [|n IH]; intros pcmBuffer Hlen.
  - destruct pcmBuffer; [|discriminate]. exists []. repeat split.
  - destruct pcmBuffer as [|lo [|hi rest]]; cbn [length] in Hlen; try lia.
    destruct (IH rest) as (fs & Hto & Hn & Hback); [lia|].
    exists (int16ToFloat32 (readInt16LE lo hi) :: fs).
    cbn [convertPCMBufferToFloat32 convertFloat32ToPCMBuffer length].
    rewrite Hto, Hback, Hn.
    rewrite (sample_roundtrip _ (readInt16LE_range lo hi)).
    rewrite writeInt16LE_readInt16LE. repeat split.
Qed.

(** C9. An Int16 buffer (an even number of bytes) converts to float32
    and back to exactly the bytes it held: the round trip is the
    identity on every sample value, the two extremes -32768 and 32767
    included, which is within the deviation of one unit the claim
    allows there. *)
Theorem pcm_float32_roundtrip :
  forall pcmBuffer,
    Nat.even (length pcmBuffer) = true ->
    exists float32Array,
      convertPCMBufferToFloat32 pcmBuffer = Some float32Array
      /\ 2 * length float32Array = length pcmBuffer
      /\ convertFloat32ToPCMBuffer float32Array = Some pcmBuffer.
Proof.
  intros pcmBuffer Heven.
  apply Nat.even_spec in Heven. destruct Heven as [n Hn].
  destruct (pcm_roundtrip_pairs n pcmBuffer Hn) as (fs & Hto & Hlen & Hback).
  exists fs. repeat split; [exact Hto|lia|exact Hback].
Qed.

End SampleConversion.

(** ** The session: history, errors, closing *)

Section SessionHistory.

Import RateLimit Session Examples.
Local Open Scope string_scope.

Lemma same_part_refl : forall p, same_part p p.
Proof. intros p. left. reflexivity. Qed.

Lemma same_parts_refl : forall ps, Forall2 same_part ps ps.
Proof. induction ps; constructor; [apply same_part_refl|assumption]. Qed.

Lemma same_turn_refl : forall e, same_turn e e.
Proof. intros e. split; [reflexivity|apply same_parts_refl]. Qed.

Lemma same_turns_refl : forall h, Forall2 same_turn h h.
Proof. induction h; constructor; [apply same_turn_refl|assumption]. Qed.

Lemma same_part_placeholder :
  forall p original, same_part p original -> same_part (placeholder p) original.
Proof.
  intros p original [->|[Himg ->]]; unfold placeholder.
  - destruct (is_image original) eqn:E; [right; split; [exact E|reflexivity]|left; reflexivity].
  - cbn. right. split; [exact Himg|reflexivity].
Qed.

Lemma same_turn_strip :
  forall e original, same_turn e original -> same_turn (strip_images e) original.
Proof.
  intros e original [Hrole Hparts]. split; [exact Hrole|].
  cbn [strip_images parts].
  induction Hparts; cbn [map]; constructor; [apply same_part_placeholder|]; assumption.
Qed.

Lemma strip_older_same :
  forall newest_first originals imageCount,
    Forall2 same_turn newest_first originals ->
    Forall2 same_turn (strip_older newest_first imageCount) originals.
Proof.
  intros newest_first originals imageCount H. revert imageCount.
  induction H as [|e e0 l l0 He Hl IH]; intros imageCount; cbn [strip_older].
  - constructor.
  - destruct (is_user_image_entry e).
    + constructor; [|apply IH].
      destruct (3 <? S imageCount)%nat; [apply same_turn_strip|]; exact He.
    + constructor; [exact He|apply IH].
Qed.

Lemma Forall2_rev :
  forall {A B : Type} (R : A -> B -> Prop) l l',
    Forall2 R l l' -> Forall2 R (rev l) (rev l').
Proof.
  intros A B R l l' H. induction H; cbn [rev]; [constructor|].
  apply Forall2_app; [assumption|]. constructor; [assumption|constructor].
Qed.

Lemma Forall2_skipn :
  forall {A B : Type} (R : A -> B -> Prop) n l l',
    Forall2 R l l' -> Forall2 R (skipn n l) (skipn n l').
Proof.
  intros A B R n. induction n as [|n IH]; intros l l' H; [exact H|].
  destruct H; cbn [skipn]; [constructor|apply IH; assumption].
Qed.

Lemma strip_old_images_same :
  forall history originals,
    Forall2 same_turn history originals ->
    Forall2 same_turn (strip_old_images history) originals.
Proof.
  intros history originals H. unfold strip_old_images.
  rewrite <- (rev_involutive originals).
  apply Forall2_rev, strip_older_same, Forall2_rev, H.
Qed.

Lemma cap_history_skipn :
  forall history, cap_history history = skipn (length history - 16) history.
Proof.
  intros history. unfold cap_history.
  destruct (Nat.ltb_spec 16 (length history)) as [H|H]; [reflexivity|].
  replace (length history - 16) with 0 by lia. reflexivity.
Qed.

(** Recording a turn keeps the history the last 16 entries of all that
    was appended. *)
Lemma record_turn_last16 :
  forall history entries userParts responseText,
    Forall2 same_turn history (last16 entries) ->
    Forall2 same_turn (record_turn history userParts responseText)
                      (last16 (entries ++ turn userParts responseText)).
Proof.
  intros history entries userParts responseText H.
  unfold record_turn. apply strip_old_images_same.
  rewrite cap_history_skipn.
  pose proof (Forall2_length H) as Hlen. unfold last16 in *.
  rewrite length_skipn in Hlen.
  set (t := turn userParts responseText).
  assert (Happ : Forall2 same_turn (history ++ t)
                   (skipn (length entries - 16) (entries ++ t))).
  { rewrite skipn_app.
    replace (length entries - 16 - length entries) with 0 by lia.
    apply Forall2_app; [exact H|apply same_turns_refl]. }
  apply (Forall2_skipn same_turn (length (history ++ t) - 16)) in Happ.
  rewrite skipn_skipn in Happ.
  replace (length (history ++ t) - 16 + (length entries - 16))
    with (length (entries ++ t) - 16) in Happ
    by (rewrite !length_app; lia).
  exact Happ.
Qed.

Lemma length_record_turn :
  forall history userParts responseText,
    length (record_turn history userParts responseText) <= 16.
Proof.
  intros history userParts responseText. unfold record_turn.
  pose proof (Forall2_length
                (strip_old_images_same _ _
                   (same_turns_refl
                      (cap_history (history ++ turn userParts responseText)))))
    as Hlen.
  rewrite Hlen, cap_history_skipn, length_skipn. lia.
Qed.

(** How a call completes and what it leaves of the history. *)
Lemma sendRealtimeInput_history :
  forall g backend s t i,
    let o := sendRealtimeInput g backend s t i in
    (exists responseText,
       result o = Returns (Str responseText)
       /\ session_after o =
            with_history s (record_turn (conversationHistory s)
                              (build_parts g i) responseText))
    \/ ((result o = Returns Null \/ result o = Returns Undefined)
        /\ session_after o = s).
Proof.
  intros g backend s t i. unfold sendRealtimeInput.
  destruct (isClosed s); [right; split; [right|]; reflexivity|].
  unfold try_body.
  destruct (input_media i) as [m|]; destruct (truthy_text i) as [txt|];
    try (right; split; [left|]; reflexivity);
    (destruct (backend (build_request g s i)) as [e|chunks [|e [e'|ps]]];
     cbn [result session_after];
     try (right; split; [left|]; reflexivity);
     match goal with
     | |- context [has_text ?r] =>
         destruct (has_text r); cbn [result session_after succeed];
         [left; eexists; split; reflexivity
         |right; split; [left|]; reflexivity]
     end).
Qed.

Lemma send_success :
  forall g backend s t i responseText,
    result (sendRealtimeInput g backend s t i) = Returns (Str responseText) ->
    session_after (sendRealtimeInput g backend s t i) =
      with_history s (record_turn (conversationHistory s)
                        (build_parts g i) responseText).
Proof.
  intros g backend s t i responseText H.
  destruct (sendRealtimeInput_history g backend s t i)
    as [(r & Hr & Hs)|[[Hr|Hr] _]]; rewrite Hr in H; try discriminate.
  injection H as <-. exact Hs.
Qed.

Lemma send_all_last16 :
  forall calls s t entries,
    Forall2 same_turn (conversationHistory s) (last16 entries) ->
    Forall2 same_turn
      (conversationHistory (session_after (send_all calls s t)))
      (last16 (entries ++ appended calls (result (send_all calls s t)))).
Proof.
  induction calls as [|c calls IH]; intros s t entries H.
  - cbn. rewrite app_nil_r. exact H.
  - cbn [send_all result session_after appended].
    destruct (sendRealtimeInput_history (call_settings c) (call_backend c)
                s t (call_input c)) as [(r & Hr & Hs)|[Hr Hs]].
    + rewrite Hr, Hs, app_assoc. apply IH. cbn [with_history conversationHistory].
      apply record_turn_last16, H.
    + rewrite Hs. destruct Hr as [-> | ->]; apply IH, H.
Qed.

Lemma same_parts_no_image :
  forall ps originals,
    Forall2 same_part ps originals ->
    existsb is_image originals = false -> ps = originals.
Proof.
  intros ps originals H. induction H as [|p p0 l l0 Hp Hl IH]; intros Hno.
  - reflexivity.
  - cbn [existsb] in Hno. apply orb_false_iff in Hno. destruct Hno as [Hp0 Hl0].
    rewrite (IH Hl0). destruct Hp as [->|[Himg _]]; [reflexivity|congruence].
Qed.

Lemma same_turns_no_image :
  forall h originals,
    Forall2 same_turn h originals ->
    Forall (fun e => existsb is_image (parts e) = false) originals ->
    h = originals.
Proof.
  intros h originals H. induction H as [|e e0 l l0 He Hl IH]; intros Hno.
  - reflexivity.
  - inversion Hno as [|? ? He0 Hl0]; subst.
    rewrite (IH Hl0). destruct He as [Hrole Hparts].
    apply same_parts_no_image in Hparts; [|exact He0].
    destruct e, e0. cbn in *. congruence.
Qed.

(** C1. In every run of calls on a fresh session, the history is at
    most 16 entries (8 turns) long after the run, hence after each
    call: it holds the last 16 of the entries appended so far, oldest
    first, each as recorded or with its images replaced by the
    placeholder, and exactly as recorded when no turn carries an
    image.  After nine appended turns (18 entries) these are the eight
    most recent.  And whatever the history was, a call that returns
    text leaves at most 16 entries. *)
Theorem history_holds_last_8_turns :
  forall calls s t,
    conversationHistory s = [] ->
    let o := send_all calls s t in
    let history := conversationHistory (session_after o) in
    let entries := appended calls (result o) in
    length history <= 16
    /\ length history = Nat.min 16 (length entries)
    /\ Forall2 same_turn history (last16 entries)
    /\ (Forall (fun e => existsb is_image (parts e) = false) entries ->
        history = last16 entries)
    /\ (length entries = 18 ->
        length history = 16 /\ Forall2 same_turn history (skipn 2 entries))
    /\ (forall g backend s' t' i responseText,
          result (sendRealtimeInput g backend s' t' i) = Returns (Str responseText) ->
          length (conversationHistory
                    (session_after (sendRealtimeInput g backend s' t' i))) <= 16).
Proof.
  intros calls s t Hfresh o history entries.
  assert (H : Forall2 same_turn history (last16 entries)).
  { pose proof (send_all_last16 calls s t []) as H. cbn [app] in H.
    apply H. rewrite Hfresh. constructor. }
  pose proof (Forall2_length H) as Hlen.
  unfold last16 in Hlen. rewrite length_skipn in Hlen.
  split; [lia|]. split; [lia|]. split; [exact H|]. split.
  - intros Hno. apply same_turns_no_image; [exact H|].
    unfold last16. rewrite <- (firstn_skipn (length entries - 16) entries) in Hno.
    apply Forall_app in Hno. exact (proj2 Hno).
  - split.
    + intros H18. split; [lia|].
      unfold last16 in H. rewrite H18 in H. exact H.
    + intros g backend s' t' i responseText Hr.
      rewrite (send_success _ _ _ _ _ _ Hr). apply length_record_turn.
Qed.

Lemma closed_send_all :
  forall calls s t,
    isClosed s = true ->
    send_all calls s t =
      {| result := map (fun _ => Returns Undefined) calls;
         session_after := s; timer_after := t; requests := [] |}.
Proof.
  induction calls as [|c calls IH]; intros s t Hclosed; [reflexivity|].
  cbn [send_all map]. unfold sendRealtimeInput. rewrite Hclosed.
  cbn [result session_after timer_after requests].
  rewrite (IH s t Hclosed). reflexivity.
Qed.

(** C3. Once [close] has run, every later call, whatever its input and
    whatever the backend would do, returns at once ([undefined], no
    exception), makes no request, and leaves the session, the
    countdown and the messages sent to the renderer as they were. *)
Theorem closed_session_ignores_every_input :
  forall calls s t,
    isClosed (fst (close s t)) = true
    /\ send_all calls (fst (close s t)) (snd (close s t)) =
         {| result := map (fun _ => Returns Undefined) calls;
            session_after := fst (close s t);
            timer_after := snd (close s t);
            requests := [] |}.
Proof.
  intros calls s t. split; [reflexivity|].
  apply closed_send_all. reflexivity.
Qed.

Lemma build_parts_has_image :
  forall g i, hasImage i = true -> existsb is_image (build_parts g i) = true.
Proof.
  intros g i H. unfold build_parts, hasImage in *.
  destruct (input_media i) as [m|]; [|discriminate].
  rewrite existsb_app. cbn [existsb is_image]. apply orb_true_r.
Qed.

Lemma placeholder_no_image :
  forall ps, existsb is_image (map placeholder ps) = false.
Proof.
  induction ps as [|p ps IH]; [reflexivity|].
  cbn [map existsb]. rewrite IH. destruct p; reflexivity.
Qed.

Lemma strip_older_few :
  forall newest_first imageCount,
    imageCount + count_image_entries newest_first <= 3 ->
    strip_older newest_first imageCount = newest_first.
Proof.
  unfold count_image_entries.
  induction newest_first as [|e l IH]; intros n H; [reflexivity|].
  cbn [strip_older filter] in *. destruct (is_user_image_entry e).
  - cbn [length] in H.
    replace (3 <? S n)%nat with false by (symmetry; apply Nat.ltb_ge; lia).
    rewrite IH by lia. reflexivity.
  - rewrite IH by lia. reflexivity.
Qed.

Lemma strip_older_many :
  forall newest_first imageCount,
    3 <= imageCount ->
    strip_older newest_first imageCount = map strip_if_image newest_first.
Proof.
  induction newest_first as [|e l IH]; intros n H; [reflexivity|].
  cbn [strip_older map]. unfold strip_if_image at 1.
  destruct (is_user_image_entry e).
  - replace (3 <? S n)%nat with true by (symmetry; apply Nat.ltb_lt; lia).
    rewrite IH by lia. reflexivity.
  - rewrite IH by lia. reflexivity.
Qed.

Lemma strip_older_app :
  forall newer older imageCount,
    strip_older (newer ++ older) imageCount =
      (strip_older newer imageCount
         ++ strip_older older (imageCount + count_image_entries newer))%list.
Proof.
  unfold count_image_entries.
  induction newer as [|e l IH]; intros older n.
  - cbn. rewrite Nat.add_0_r. reflexivity.
  - cbn [app strip_older filter]. destruct (is_user_image_entry e).
    + rewrite IH. cbn [length app]. do 3 f_equal. lia.
    + rewrite IH. reflexivity.
Qed.

(** The stripping keeps the images of the three most recent
    image-bearing user entries and of no other: when [recent] holds
    exactly three of them, it is left as it is and every image-bearing
    entry before it gets the placeholder. *)
Lemma strip_old_images_keeps_three :
  forall old recent,
    count_image_entries recent = 3 ->
    strip_old_images (old ++ recent) = (map strip_if_image old ++ recent)%list.
Proof.
  intros old recent H. unfold strip_old_images.
  assert (Hrev : count_image_entries (rev recent) = 3).
  { unfold count_image_entries in *. rewrite filter_rev, length_rev. exact H. }
  rewrite rev_app_distr, strip_older_app, Hrev.
  rewrite strip_older_few by (rewrite Hrev; lia).
  rewrite strip_older_many by lia.
  rewrite rev_app_distr, rev_involutive, map_rev, rev_involutive. reflexivity.
Qed.

Lemma strip_old_images_at_most_three :
  forall history,
    count_image_entries history <= 3 -> strip_old_images history = history.
Proof.
  intros history H. unfold strip_old_images.
  rewrite strip_older_few, rev_involutive; [reflexivity|].
  unfold count_image_entries in *. rewrite filter_rev, length_rev. lia.
Qed.

(** Five image-bearing turns recorded one after the other: the first
    loses its images when the fourth is recorded, the second when the
    fifth is. *)
Lemma record_five_image_turns :
  forall p1 p2 p3 p4 p5 r1 r2 r3 r4 r5,
    existsb is_image p1 = true -> existsb is_image p2 = true ->
    existsb is_image p3 = true -> existsb is_image p4 = true ->
    existsb is_image p5 = true ->
    record_turn
      (record_turn
         (record_turn (record_turn (record_turn [] p1 r1) p2 r2) p3 r3)
         p4 r4)
      p5 r5
    = [ strip_images (user_entry p1); model_entry r1;
        strip_images (user_entry p2); model_entry r2;
        user_entry p3; model_entry r3;
        user_entry p4; model_entry r4;
        user_entry p5; model_entry r5 ].
Proof.
  intros p1 p2 p3 p4 p5 r1 r2 r3 r4 r5 H1 H2 H3 H4 H5.
  assert (Hm : forall r, is_user_image_entry (model_entry r) = false)
    by reflexivity.
  assert (Hs : forall ps, is_user_image_entry (strip_images (user_entry ps)) = false)
    by (intros ps; apply placeholder_no_image).
  assert (Hu : forall ps, existsb is_image ps = true ->
                          is_user_image_entry (user_entry ps) = true)
    by (intros ps H; exact H).
  apply Hu in H1, H2, H3, H4, H5.
  unfold record_turn, turn, cap_history, strip_old_images.
  repeat (progress (cbn [app length Nat.ltb Nat.leb rev strip_older];
                    rewrite ?Hm, ?Hs, ?H1, ?H2, ?H3, ?H4, ?H5)).
  reflexivity.
Qed.

(** The history after a run in which every call returned text. *)
Lemma send_all_success_history :
  forall calls texts s t,
    result (send_all calls s t) = map (fun r => Returns (Str r)) texts ->
    conversationHistory (session_after (send_all calls s t)) =
      fold_left
        (fun h cr =>
           record_turn h (build_parts (call_settings (fst cr))
                                      (call_input (fst cr))) (snd cr))
        (combine calls texts) (conversationHistory s).
Proof.
  induction calls as [|c calls IH]; intros texts s t H.
  - reflexivity.
  - destruct texts as [|r texts]; [discriminate|].
    cbn [send_all result session_after map] in *.
    injection H as Hr Hrest.
    rewrite (IH texts _ _ Hrest).
    rewrite (send_success _ _ _ _ _ _ Hr). reflexivity.
Qed.

(** C4. Five calls that carry an image and return text, on a fresh
    session: the history holds the ten entries in the order of the
    calls; the user entries of the three most recent turns are as
    recorded, image included; in the two older ones every image part
    is the placeholder text ['[screenshot]'] and nothing else
    changed.  In general the stripping leaves the three most recent
    image-bearing user entries, and all that follows the oldest of
    them, as they are, and replaces the images of every older one. *)
Theorem three_most_recent_images_kept :
  forall c1 c2 c3 c4 c5 r1 r2 r3 r4 r5 s t,
    conversationHistory s = [] ->
    Forall (fun c => hasImage (call_input c) = true) [c1; c2; c3; c4; c5] ->
    result (send_all [c1; c2; c3; c4; c5] s t)
      = map (fun r => Returns (Str r)) [r1; r2; r3; r4; r5] ->
    let u c := user_entry (build_parts (call_settings c) (call_input c)) in
    let history :=
      conversationHistory (session_after (send_all [c1; c2; c3; c4; c5] s t)) in
    history =
      [ strip_images (u c1); model_entry r1;
        strip_images (u c2); model_entry r2;
        u c3; model_entry r3;
        u c4; model_entry r4;
        u c5; model_entry r5 ]
    /\ Forall (fun e => is_user_image_entry e = true) [u c3; u c4; u c5]
    /\ Forall (fun e => existsb is_image (parts e) = false)
              [strip_images (u c1); strip_images (u c2)]
    /\ Forall2 same_turn history
         [ u c1; model_entry r1; u c2; model_entry r2; u c3; model_entry r3;
           u c4; model_entry r4; u c5; model_entry r5 ]
    /\ (forall old recent,
          count_image_entries recent = 3 ->
          strip_old_images (old ++ recent)
          = (map strip_if_image old ++ recent)%list).
Proof.
  intros c1 c2 c3 c4 c5 r1 r2 r3 r4 r5 s t Hfresh Himg Hres u history.
  assert (Hu : forall c, In c [c1; c2; c3; c4; c5] ->
                         existsb is_image (build_parts (call_settings c) (call_input c)) = true).
  { intros c Hc. apply build_parts_has_image.
    exact (proj1 (Forall_forall _ _) Himg c Hc). }
  assert (Hh : history =
      [ strip_images (u c1); model_entry r1;
        strip_images (u c2); model_entry r2;
        u c3; model_entry r3; u c4; model_entry r4; u c5; model_entry r5 ]).
  { subst history. rewrite (send_all_success_history _ _ _ _ Hres), Hfresh.
    cbn [combine fold_left fst snd].
    apply record_five_image_turns; apply Hu; cbn [In]; tauto. }
  split; [exact Hh|]. split; [|split].
  - repeat constructor; apply (Hu _); cbn [In]; tauto.
  - repeat constructor; apply placeholder_no_image.
  - split; [|exact strip_old_images_keeps_three].
    rewrite Hh.
    repeat (constructor;
            try apply same_turn_refl;
            try (apply same_turn_strip, same_turn_refl)).
Qed.

(** *** Errors of the backend *)

(** C2, as stated, fails: a stream that throws after text has arrived
    makes the call return that text and record the turn. *)
Lemma stream_failure_after_text_returns_text :
  let o := sendRealtimeInput sample_settings breaks_after_first_chunk
             fresh_session idle_timer (text_input "what is a binary tree?") in
  result o = Returns (Str "A binary tree is")
  /\ conversationHistory (session_after o)
     = [ user_entry [TextPart "what is a binary tree?"];
         model_entry "A binary tree is" ]
  /\ ~ returns_null_on_every_backend_error.
Proof.
  split; [reflexivity|]. split; [reflexivity|].
  intros H.
  destruct (H sample_settings breaks_after_first_chunk fresh_session idle_timer
              (text_input "what is a binary tree?")
              eq_refl eq_refl eq_refl) as [Hnull _].
  vm_compute in Hnull. discriminate Hnull.
Qed.

(** C2, amended. When the backend raises an error, the call never
    throws; it made the one request; it returns [null] and leaves the
    session as it was unless text was obtained (chunks read before the
    stream failed, with the fallback result), in which case it returns
    that text and records the turn. *)
Theorem backend_error_never_escapes :
  forall g backend s t i,
    isClosed s = false ->
    has_content i = true ->
    backend_raises (backend (build_request g s i)) = true ->
    let o := sendRealtimeInput g backend s t i in
    let responseText := obtained_text (backend (build_request g s i)) in
    (exists v, result o = Returns v)
    /\ requests o = [build_request g s i]
    /\ (has_text responseText = false ->
        result o = Returns Null /\ session_after o = s)
    /\ (has_text responseText = true ->
        result o = Returns (Str responseText)
        /\ session_after o =
             with_history s (record_turn (conversationHistory s)
                               (build_parts g i) responseText)).
Proof.
  intros g backend s t i Hopen Hcontent Hraises.
  unfold sendRealtimeInput, try_body. rewrite Hopen.
  unfold has_content, hasImage in Hcontent.
  destruct (input_media i) as [m|]; destruct (truthy_text i) as [txt|];
    try discriminate;
    (destruct (backend (build_request g s i)) as [e|chunks [|e [e'|ps]]];
     try discriminate; cbn [obtained_text];
     try (destruct (has_text (stream_text chunks ++ chunk_text ps)) eqn:E);
     cbn [result session_after requests succeed];
     (split; [eexists; reflexivity|]);
     (split; [reflexivity|]);
     split; intros Ht; try discriminate; split; reflexivity).
Qed.

End SessionHistory.

(** ** The rate-limit countdown *)

Section RateLimitRecovery.

Import JsString RateLimit Session.
Local Open Scope string_scope.

Lemma published_sendToRenderer :
  forall channel data t,
    published (sendToRenderer channel data t)
      = (published t ++ [(channel, data)])%list.
Proof. reflexivity. Qed.

Lemma ticks_countdown :
  forall n statusMessage t,
    rateLimitCountdownInterval t
      = Some {| label := statusMessage; remainingSec := Z.of_nat (S n) |} ->
    published (ticks (S n) t)
      = (published t ++ countdown_statuses statusMessage n)%list
    /\ rateLimitCountdownInterval (ticks (S n) t) = None.
Proof.
  induction n as [|n IH]; intros statusMessage t Ht.
  - cbn [ticks]. unfold tick. rewrite Ht. cbn. split; reflexivity.
  - change (ticks (S (S n)) t) with (ticks (S n) (tick t)).
    assert (Htick : tick t =
              sendToRenderer "update-status"
                (countdown_status statusMessage (Z.of_nat (S n)))
                {| rateLimitCountdownInterval :=
                     Some {| label := statusMessage; remainingSec := Z.of_nat (S n) |};
                   published := published t |}).
    { unfold tick. rewrite Ht. cbn [remainingSec label].
      replace (Z.of_nat (S (S n)) - 1)%Z with (Z.of_nat (S n)) by lia.
      destruct (Z.leb_spec (Z.of_nat (S n)) 0) as [H|H]; [lia|reflexivity]. }
    destruct (IH statusMessage (tick t)) as [Hpub Hint];
      [rewrite Htick; reflexivity|].
    split; [|exact Hint].
    rewrite Hpub, Htick. cbn [published sendToRenderer countdown_statuses].
    rewrite <- app_assoc. reflexivity.
Qed.

Lemma length_countdown_statuses :
  forall statusMessage n, length (countdown_statuses statusMessage n) = S n.
Proof. induction n as [|n IH]; cbn [countdown_statuses length]; congruence. Qed.

(** After [k] ticks, the first [k] of these statuses are out. *)
Lemma ticks_countdown_prefix :
  forall k n statusMessage t,
    rateLimitCountdownInterval t
      = Some {| label := statusMessage; remainingSec := Z.of_nat (S n) |} ->
    k <= S n ->
    published (ticks k t)
      = (published t ++ firstn k (countdown_statuses statusMessage n))%list.
Proof.
  induction k as [|k IH]; intros n statusMessage t Ht Hk.
  - cbn [ticks firstn]. rewrite app_nil_r. reflexivity.
  - cbn [ticks]. destruct n as [|n].
    + assert (k = 0) by lia. subst k. cbn [ticks].
      unfold tick. rewrite Ht. reflexivity.
    + assert (Htick : tick t =
                sendToRenderer "update-status"
                  (countdown_status statusMessage (Z.of_nat (S n)))
                  {| rateLimitCountdownInterval :=
                       Some {| label := statusMessage;
                               remainingSec := Z.of_nat (S n) |};
                     published := published t |}).
      { unfold tick. rewrite Ht. cbn [remainingSec label].
        replace (Z.of_nat (S (S n)) - 1)%Z with (Z.of_nat (S n)) by lia.
        destruct (Z.leb_spec (Z.of_nat (S n)) 0) as [H|H]; [lia|reflexivity]. }
      rewrite (IH n statusMessage (tick t)); [|rewrite Htick; reflexivity|lia].
      rewrite Htick. cbn [published sendToRenderer countdown_statuses firstn].
      rewrite <- app_assoc. reflexivity.
Qed.

Lemma tick_idle :
  forall t, rateLimitCountdownInterval t = None -> tick t = t.
Proof. intros t H. unfold tick. rewrite H. reflexivity. Qed.

Lemma ticks_idle :
  forall n t, rateLimitCountdownInterval t = None -> ticks n t = t.
Proof.
  induction n as [|n IH]; intros t H; [reflexivity|].
  cbn [ticks]. rewrite (tick_idle t H). apply IH, H.
Qed.

Lemma ticks_add : forall n m t, ticks (n + m) t = ticks m (ticks n t).
Proof. induction n as [|n IH]; intros m t; [reflexivity|apply IH]. Qed.

Lemma hint_of_5_gives_7000 :
  Dbl.ceil (Dbl.mul (Dbl.add 5%Q 2%Q) 1000%Q) = 7000%Z.
Proof. vm_compute. reflexivity. Qed.

Lemma recovery_of_7000_is_7_seconds :
  Dbl.ceil (Dbl.div (inject_Z 7000) 1000%Q) = 7%Z.
Proof. vm_compute. reflexivity. Qed.

(** C8. A 429 error whose message carries a retry hint of 5 seconds:
    the recovery time is 7000 ms, the countdown starts at 7 and its
    status is published at once; each of the next six ticks of the
    one-second interval publishes the next lower value, 6 down to 1,
    the seventh publishes [Ready] and stops the interval, after which
    nothing more is published. *)
Theorem rate_limit_countdown_from_hint_of_5 :
  forall e errorMessage t,
    message e = Some errorMessage ->
    includes (toLowerCase errorMessage) "429" = true ->
    retry_hint errorMessage = Some 5%Q ->
    let status := statusMessage (parseGeminiRateLimitError errorMessage) in
    let t0 := handle_error e t in
    recoveryMs (parseGeminiRateLimitError errorMessage) = 7000%Z
    /\ rateLimitCountdownInterval t0
       = Some {| label := status; remainingSec := 7 |}
    /\ published t0
       = (published t ++ [("update-status", (status ++ " (7s)")%string)])%list
    /\ (forall k, k < 7 ->
          length (published (ticks (S k) t0)) = S (length (published (ticks k t0))))
    /\ published (ticks 7 t0) =
         (published t ++
           [ ("update-status", (status ++ " (7s)")%string);
             ("update-status", (status ++ " (6s)")%string);
             ("update-status", (status ++ " (5s)")%string);
             ("update-status", (status ++ " (4s)")%string);
             ("update-status", (status ++ " (3s)")%string);
             ("update-status", (status ++ " (2s)")%string);
             ("update-status", (status ++ " (1s)")%string);
             ("update-status", "Ready") ])%list
    /\ (forall n, ticks (7 + n) t0 = ticks 7 t0)
    /\ rateLimitCountdownInterval (ticks 7 t0) = None.
Proof.
  intros e errorMessage t Hmsg H429 Hhint status t0.
  assert (Hms : recoveryMs (parseGeminiRateLimitError errorMessage) = 7000%Z).
  { unfold parseGeminiRateLimitError. rewrite Hhint. cbn [recoveryMs].
    exact hint_of_5_gives_7000. }
  assert (Ht0 : t0 =
            {| rateLimitCountdownInterval :=
                 Some {| label := status; remainingSec := 7 |};
               published := (published t
                              ++ [("update-status", countdown_status status 7)])%list |}).
  { subst t0. unfold handle_error. rewrite Hmsg, H429. fold status.
    rewrite Hms. unfold scheduleGeminiRateLimitRecovery.
    rewrite recovery_of_7000_is_7_seconds. reflexivity. }
  assert (Hint : rateLimitCountdownInterval t0
                 = Some {| label := status; remainingSec := Z.of_nat 7 |})
    by (rewrite Ht0; reflexivity).
  destruct (ticks_countdown 6 status t0 Hint) as [Hpub Hstop].
  split; [exact Hms|]. split; [rewrite Ht0; reflexivity|].
  split; [rewrite Ht0; reflexivity|]. split; [|split; [|split]].
  - intros k Hk.
    rewrite (ticks_countdown_prefix (S k) 6 status t0 Hint) by lia.
    rewrite (ticks_countdown_prefix k 6 status t0 Hint) by lia.
    rewrite !length_app, !length_firstn, length_countdown_statuses. lia.
  - rewrite Hpub, Ht0. cbn [published]. rewrite <- app_assoc. reflexivity.
  - intros n. rewrite ticks_add. apply ticks_idle, Hstop.
  - exact Hstop.
Qed.

End RateLimitRecovery.

(** ** Normalisation of recognised speech *)

Section Normalisation.

Import JsString SpeechQueue.
Local Open Scope string_scope.

Lemma collapse_single_spaced :
  forall s b, single_spaced b (collapse_spaces b s) = true.
Proof.
  induction s as [|c s IH]; intros b; [reflexivity|].
  cbn [collapse_spaces]. destruct (is_space c) eqn:E.
  - destruct b; [apply IH|].
    cbn [single_spaced]. change (is_space " ") with true. cbn. apply IH.
  - cbn [single_spaced]. rewrite E. apply IH.
Qed.

Lemma collapse_of_single_spaced :
  forall s b, single_spaced b s = true -> collapse_spaces b s = s.
Proof.
  induction s as [|c s IH]; intros b H; [reflexivity|].
  cbn [single_spaced collapse_spaces] in *. destruct (is_space c) eqn:E.
  - apply andb_true_iff in H. destruct H as [H Hrest].
    apply andb_true_iff in H. destruct H as [Hc Hb].
    apply Ascii.eqb_eq in Hc. destruct b; [discriminate|].
    rewrite (IH true Hrest). subst c. reflexivity.
  - rewrite (IH false H). reflexivity.
Qed.

Lemma single_spaced_weaken :
  forall s b, single_spaced b s = true -> single_spaced false s = true.
Proof.
  intros [|c s] b H; [reflexivity|].
  cbn [single_spaced] in *. destruct (is_space c); [|exact H].
  destruct b; [|exact H].
  rewrite andb_false_r in H. discriminate.
Qed.

Lemma trimStart_single_spaced :
  forall s b, single_spaced b s = true -> single_spaced false (trimStart s) = true.
Proof.
  induction s as [|c s IH]; intros b H; [reflexivity|].
  cbn [trimStart]. destruct (is_space c) eqn:E.
  - cbn [single_spaced] in H. rewrite E in H.
    apply andb_true_iff in H. apply (IH true), H.
  - cbn [single_spaced] in *. rewrite E in *. exact H.
Qed.

Lemma trimEnd_single_spaced :
  forall s b, single_spaced b s = true -> single_spaced b (trimEnd s) = true.
Proof.
  induction s as [|c s IH]; intros b H; [reflexivity|].
  cbn [trimEnd]. cbn [single_spaced] in H.
  destruct (is_space c) eqn:E.
  - apply andb_true_iff in H. destruct H as [H Hrest].
    specialize (IH true Hrest).
    destruct (trimEnd s) as [|d kept]; [reflexivity|].
    cbn [single_spaced] in *. rewrite E, H. exact IH.
  - specialize (IH false H).
    destruct (trimEnd s) as [|d kept].
    + cbn [single_spaced]. rewrite E. reflexivity.
    + cbn [single_spaced] in *. rewrite E. exact IH.
Qed.

Lemma trimStart_no_leading_space :
  forall s, no_leading_space (trimStart s) = true.
Proof.
  induction s as [|c s IH]; [reflexivity|].
  cbn [trimStart]. destruct (is_space c) eqn:E; [exact IH|].
  cbn [no_leading_space]. rewrite E. reflexivity.
Qed.

Lemma trimStart_fixed :
  forall s, no_leading_space s = true -> trimStart s = s.
Proof.
  intros [|c s] H; [reflexivity|].
  cbn [trimStart no_leading_space] in *.
  destruct (is_space c); [discriminate|reflexivity].
Qed.

Lemma trimEnd_no_leading_space :
  forall s, no_leading_space s = true -> no_leading_space (trimEnd s) = true.
Proof.
  intros [|c s] H; [reflexivity|].
  cbn [trimEnd no_leading_space] in *.
  apply negb_true_iff in H.
  destruct (trimEnd s); rewrite ?H; cbn [no_leading_space]; rewrite H; reflexivity.
Qed.

Lemma trimEnd_idempotent : forall s, trimEnd (trimEnd s) = trimEnd s.
Proof.
  induction s as [|c s IH]; [reflexivity|].
  cbn [trimEnd]. destruct (trimEnd s) as [|d kept] eqn:E.
  - destruct (is_space c) eqn:Ec; [reflexivity|].
    cbn [trimEnd]. rewrite Ec. reflexivity.
  - cbn [trimEnd]. cbn [trimEnd] in IH. rewrite IH. reflexivity.
Qed.

Lemma trim_idempotent : forall s, trim (trim s) = trim s.
Proof.
  intros s. unfold trim.
  rewrite (trimStart_fixed (trimEnd (trimStart s))).
  - apply trimEnd_idempotent.
  - apply trimEnd_no_leading_space, trimStart_no_leading_space.
Qed.

(** Normalising twice is normalising once. *)
Lemma normalizeSpeechText_idempotent :
  forall text,
    normalizeSpeechText (normalizeSpeechText text) = normalizeSpeechText text.
Proof.
  intros text. unfold normalizeSpeechText.
  rewrite (collapse_of_single_spaced (trim (collapse_spaces false text)) false).
  - apply trim_idempotent.
  - unfold trim. apply trimEnd_single_spaced.
    apply (trimStart_single_spaced _ false), collapse_single_spaced.
Qed.

End Normalisation.

(** ** The speech queue *)

Section SpeechQueueFacts.

Import JsString SpeechQueue.
Local Open Scope string_scope.

(** On a normalised text the heuristic is: a question mark anywhere,
    or one of the openings. *)
Lemma isLikelyQuestionText_normalized :
  forall text,
    isLikelyQuestionText (normalizeSpeechText text) =
      truthy (normalizeSpeechText text)
      && contains_question_mark_or_opens_as_question (normalizeSpeechText text).
Proof.
  intros text. unfold isLikelyQuestionText.
  rewrite normalizeSpeechText_idempotent.
  unfold contains_question_mark_or_opens_as_question.
  destruct (truthy (normalizeSpeechText text)); cbn [negb andb]; [|reflexivity].
  destruct (includes (normalizeSpeechText text) "?"); reflexivity.
Qed.

(** C6, amended. An utterance is appended to the speech queue, as its
    normalised text, if and only if that text is not empty and
    contains a question mark anywhere or opens with one of the
    interrogative or imperative patterns; every other utterance leaves
    the state as it was, nothing queued and nothing sent. *)
Theorem enqueued_iff_question_mark_or_opening :
  forall text s,
    let normalized := normalizeSpeechText text in
    enqueueSpeechText text s =
      (if truthy normalized
          && contains_question_mark_or_opens_as_question normalized
       then processSpeechQueue (push normalized s)
       else s)
    /\ speechQueue (push normalized s) = (speechQueue s ++ [normalized])%list.
Proof.
  intros text s normalized. split; [|reflexivity].
  unfold enqueueSpeechText. fold normalized.
  unfold normalized at 2. rewrite isLikelyQuestionText_normalized.
  fold normalized.
  destruct (truthy normalized); cbn [negb andb]; [|reflexivity].
  destruct (contains_question_mark_or_opens_as_question normalized); reflexivity.
Qed.

(** C6, as stated, fails: a question mark in the middle is enough. *)
Lemma question_mark_in_the_middle_is_enqueued :
  ends_with_question_mark_or_opens_as_question (normalizeSpeechText "ok? thanks")
  = false
  /\ enqueueSpeechText "ok? thanks" initial
     = {| speechQueue := []; processingSpeechQueue := true;
          in_flight := ["ok? thanks"]; dispatched := ["ok? thanks"] |}
  /\ ~ enqueued_iff_final_question_mark_or_opening.
Proof.
  split; [reflexivity|]. split; [reflexivity|].
  intros H. specialize (H "ok? thanks" initial eq_refl).
  vm_compute in H. discriminate H.
Qed.

(** *** One drain at a time *)

Lemma drain_loop_serial :
  forall queue s,
    in_flight s = [] -> processingSpeechQueue s = true ->
    serial (drain_loop queue s).
Proof.
  induction queue as [|nextText rest IH]; intros s Hidle Hflag; cbn [drain_loop].
  - split; cbn; rewrite Hidle; [cbn; lia|]. split; [discriminate|congruence].
  - destruct (truthy nextText); [|apply IH; assumption].
    split; cbn; rewrite Hidle; cbn [app length]; [lia|].
    split; [discriminate|intros _; exact Hflag].
Qed.

Lemma processSpeechQueue_serial :
  forall s, serial s -> forall x, serial (processSpeechQueue (push x s)).
Proof.
  intros s [Hlen Hflag] x. unfold processSpeechQueue. cbn [push processingSpeechQueue].
  destruct (processingSpeechQueue s) eqn:E.
  - split; cbn; [exact Hlen|]. rewrite E. exact Hflag.
  - apply drain_loop_serial; cbn; [|reflexivity].
    destruct (in_flight s) as [|y l]; [reflexivity|].
    assert (false = true) by (apply Hflag; discriminate). discriminate.
Qed.

Lemma step_serial :
  forall e s,
    serial s ->
    (is_stop e = true -> in_flight s = []) ->
    serial (step e s).
Proof.
  intros e s Hs Hstop. destruct e as [text|k resolved|]; cbn [step].
  - unfold enqueueSpeechText.
    destruct (negb (truthy (normalizeSpeechText text))); [exact Hs|].
    destruct (negb (isLikelyQuestionText (normalizeSpeechText text))); [exact Hs|].
    apply processSpeechQueue_serial, Hs.
  - unfold settle. destruct (nth_error (in_flight s) k) as [x|] eqn:E; [|exact Hs].
    destruct Hs as [Hlen Hflag].
    destruct (in_flight s) as [|y [|z l]] eqn:Ef; cbn [length] in Hlen; try lia.
    + destruct k; discriminate.
    + assert (Hrun : processingSpeechQueue s = true)
        by (apply Hflag; discriminate).
      destruct k as [|k]; [|destruct k; discriminate].
      cbn [remove_nth in_flight speechQueue processingSpeechQueue dispatched].
      destruct resolved.
      * apply drain_loop_serial; [reflexivity|exact Hrun].
      * split; cbn; [lia|]. split; [discriminate|congruence].
  - unfold stopCapture. split; cbn; rewrite (Hstop eq_refl); cbn; [lia|].
    split; [discriminate|congruence].
Qed.


(** *** First in, first out *)

Lemma drain_loop_backlog :
  forall queue s,
    all_truthy queue ->
    backlog (drain_loop queue s) = (dispatched s ++ queue)%list
    /\ all_truthy (speechQueue (drain_loop queue s)).
Proof.
  intros [|nextText rest] s Hq; cbn [drain_loop].
  - split; [reflexivity|constructor].
  - inversion Hq as [|? ? Hx Hrest]; subst. rewrite Hx.
    unfold backlog. cbn. rewrite <- app_assoc. split; [reflexivity|exact Hrest].
Qed.

Lemma step_backlog :
  forall e s,
    is_stop e = false ->
    all_truthy (speechQueue s) ->
    backlog (step e s) = (backlog s ++ accepted_texts [e])%list
    /\ all_truthy (speechQueue (step e s)).
Proof.
  intros e s He Hq. destruct e as [text|k resolved|]; [| |discriminate];
    cbn [step accepted_texts].
  - unfold enqueueSpeechText.
    destruct (truthy (normalizeSpeechText text)) eqn:Et; cbn [negb andb];
      [|rewrite app_nil_r; split; [reflexivity|exact Hq]].
    destruct (isLikelyQuestionText (normalizeSpeechText text)); cbn [negb];
      [|rewrite app_nil_r; split; [reflexivity|exact Hq]].
    assert (Hq' : all_truthy (speechQueue s ++ [normalizeSpeechText text]))
      by (apply Forall_app; split; [exact Hq|repeat constructor; exact Et]).
    unfold processSpeechQueue. cbn [push processingSpeechQueue speechQueue].
    destruct (processingSpeechQueue s).
    + unfold backlog. cbn. rewrite app_assoc. split; [reflexivity|exact Hq'].
    + match goal with
      | |- context [drain_loop ?q ?s'] =>
          destruct (drain_loop_backlog q s' Hq') as [Hb Ht]
      end.
      rewrite Hb. unfold backlog. cbn. rewrite app_assoc. split; [reflexivity|exact Ht].
  - rewrite app_nil_r. unfold settle.
    destruct (nth_error (in_flight s) k); [|split; [reflexivity|exact Hq]].
    destruct resolved; [|split; [reflexivity|exact Hq]].
    cbn [speechQueue].
    match goal with
    | |- context [drain_loop ?q ?s'] =>
        destruct (drain_loop_backlog q s' Hq) as [Hb Ht]
    end.
    rewrite Hb. split; [reflexivity|exact Ht].
Qed.

Lemma run_backlog :
  forall events s,
    existsb is_stop events = false ->
    all_truthy (speechQueue s) ->
    backlog (run events s) = (backlog s ++ accepted_texts events)%list.
Proof.
  induction events as [|e events IH]; intros s Hns Hq.
  - cbn. rewrite app_nil_r. reflexivity.
  - cbn [existsb] in Hns. apply orb_false_iff in Hns. destruct Hns as [He Hrest].
    destruct (step_backlog e s He Hq) as [Hb Ht].
    cbn [run]. rewrite (IH _ Hrest Ht), Hb, <- app_assoc. f_equal.
    destruct e as [text| |]; cbn [accepted_texts]; try reflexivity.
    destruct (truthy (normalizeSpeechText text)
              && isLikelyQuestionText (normalizeSpeechText text));
      reflexivity.
Qed.



End SpeechQueueFacts.

(** ** The properties on concrete runs *)

Section Instances.

Import JsString RateLimit Session SpeechQueue Examples.
Local Open Scope string_scope.

(** The double nearest to one tenth, and the sum that is not 0.3. *)
Example double_of_one_tenth :
  Dbl.double (1 # 10) = (3602879701896397 # 36028797018963968)%Q.
Proof. vm_compute. reflexivity. Qed.

Example one_tenth_plus_two_tenths :
  Dbl.add (Dbl.double (1 # 10)) (Dbl.double (2 # 10))
  = (1351079888211149 # 4503599627370496)%Q.
Proof. vm_compute. reflexivity. Qed.

Example float32_of_one_tenth :
  Dbl.fround (Dbl.double (1 # 10)) = (13421773 # 134217728)%Q.
Proof. vm_compute. reflexivity. Qed.

(** The hint of Gemini's wording, with a fraction: 26.326453387 s
    give 28327 ms. *)
Example recovery_of_fractional_hint :
  recoveryMs (parseGeminiRateLimitError "Please retry in 26.326453387s.")
  = 28327%Z.
Proof. vm_compute. reflexivity. Qed.

Example recovery_without_hint :
  recoveryMs (parseGeminiRateLimitError "429 Too Many Requests") = 60000%Z.
Proof. vm_compute. reflexivity. Qed.

(** 9600 bytes arriving as 5000 and 4600 make one frame and leave
    nothing. *)
Example two_chunks_make_one_frame :
  let r := {| Pcm.macVADEnabled := false; Pcm.macMicrophoneEnabled := true;
              Pcm.vadProcessorReady := false; Pcm.groqInitialized := true |} in
  let run := Pcm.feed [ (r, repeat x00%byte (Z.to_nat 5000));
                        (r, repeat x00%byte (Z.to_nat 4600)) ] [] in
  map Pcm.destination (fst run) = [Pcm.ToGroq]
  /\ map (fun e => Z.of_nat (length (Pcm.chunk e))) (fst run) = [9600%Z]
  /\ snd run = [].
Proof. vm_compute. repeat split. Qed.

(** Of three utterances of which the second is a question, one is
    sent, with its exact text. *)
Example only_the_question_is_sent :
  dispatched (run spoken initial) = ["what is a binary tree?"]
  /\ in_flight (run spoken initial) = ["what is a binary tree?"]
  /\ speechQueue (run spoken initial) = [].
Proof. vm_compute. repeat split. Qed.

(** Nine answered questions on a fresh session: the first turn is
    gone, the other eight are there, oldest first. *)
Example ninth_turn_evicts_the_first :
  conversationHistory
    (session_after (send_all nine_questions fresh_session idle_timer))
  = concat (map (fun q => turn [TextPart q] "It depends.")
                ["q2"; "q3"; "q4"; "q5"; "q6"; "q7"; "q8"; "q9"]).
Proof. vm_compute. reflexivity. Qed.

Lemma history_holds_last_8_turns_witness :
  conversationHistory fresh_session = []
  /\ length (conversationHistory
               (session_after (send_all nine_questions fresh_session idle_timer)))
     = 16.
Proof.
  split; [reflexivity|].
  exact (proj1 (proj1 (proj2 (proj2 (proj2 (proj2
           (history_holds_last_8_turns nine_questions fresh_session idle_timer
              eq_refl))))) eq_refl)).
Defined.

Lemma backend_error_never_escapes_witness :
  isClosed fresh_session = false
  /\ has_content (text_input "what is a heap?") = true
  /\ backend_raises
       (rate_limited
          (build_request sample_settings fresh_session
             (text_input "what is a heap?"))) = true
  /\ result (sendRealtimeInput sample_settings rate_limited fresh_session
               idle_timer (text_input "what is a heap?")) = Returns Null
  /\ session_after (sendRealtimeInput sample_settings rate_limited fresh_session
                      idle_timer (text_input "what is a heap?")) = fresh_session.
Proof.
  split; [reflexivity|]. split; [reflexivity|]. split; [reflexivity|].
  exact (proj1 (proj2 (proj2
           (backend_error_never_escapes sample_settings rate_limited
              fresh_session idle_timer (text_input "what is a heap?")
              eq_refl eq_refl eq_refl))) eq_refl).
Defined.

Lemma three_most_recent_images_kept_witness :
  conversationHistory fresh_session = []
  /\ conversationHistory
       (session_after
          (send_all [screenshot "img1"; screenshot "img2"; screenshot "img3";
                     screenshot "img4"; screenshot "img5"]
             fresh_session idle_timer))
     = [ user_entry [TextPart "[screenshot]"]; model_entry "Use a hash map.";
         user_entry [TextPart "[screenshot]"]; model_entry "Use a hash map.";
         user_entry [InlineData "image/jpeg" "img3"]; model_entry "Use a hash map.";
         user_entry [InlineData "image/jpeg" "img4"]; model_entry "Use a hash map.";
         user_entry [InlineData "image/jpeg" "img5"]; model_entry "Use a hash map." ].
Proof.
  split; [reflexivity|].
  refine (proj1
            (three_most_recent_images_kept
               (screenshot "img1") (screenshot "img2") (screenshot "img3")
               (screenshot "img4") (screenshot "img5")
               "Use a hash map." "Use a hash map." "Use a hash map."
               "Use a hash map." "Use a hash map."
               fresh_session idle_timer eq_refl _ eq_refl)).
  repeat constructor.
Defined.


Lemma rate_limit_countdown_from_hint_of_5_witness :
  includes (toLowerCase "429 RESOURCE_EXHAUSTED. Please retry in 5s.") "429" = true
  /\ retry_hint "429 RESOURCE_EXHAUSTED. Please retry in 5s." = Some 5%Q
  /\ published
       (ticks 7
          (handle_error
             {| message := Some "429 RESOURCE_EXHAUSTED. Please retry in 5s." |}
             idle_timer))
     = [ ("update-status", "Rate Limit (Gemini): Quota exhausted (7s)");
         ("update-status", "Rate Limit (Gemini): Quota exhausted (6s)");
         ("update-status", "Rate Limit (Gemini): Quota exhausted (5s)");
         ("update-status", "Rate Limit (Gemini): Quota exhausted (4s)");
         ("update-status", "Rate Limit (Gemini): Quota exhausted (3s)");
         ("update-status", "Rate Limit (Gemini): Quota exhausted (2s)");
         ("update-status", "Rate Limit (Gemini): Quota exhausted (1s)");
         ("update-status", "Ready") ].
Proof.
  split; [reflexivity|]. split; [reflexivity|].
  exact (proj1 (proj2 (proj2 (proj2 (proj2
           (rate_limit_countdown_from_hint_of_5
              {| message := Some "429 RESOURCE_EXHAUSTED. Please retry in 5s." |}
              "429 RESOURCE_EXHAUSTED. Please retry in 5s." idle_timer
              eq_refl eq_refl eq_refl)))))).
Defined.

Lemma pcm_float32_roundtrip_witness :
  Nat.even (length three_samples) = true
  /\ exists float32Array,
       Pcm.convertPCMBufferToFloat32 three_samples = Some float32Array
       /\ 2 * length float32Array = length three_samples
       /\ Pcm.convertFloat32ToPCMBuffer float32Array = Some three_samples.
Proof.
  split; [reflexivity|].
  exact (pcm_float32_roundtrip three_samples eq_refl).
Defined.

End Instances.

(* ================================================================== *)
(** * Part II, continued: further properties of the code             *)
(* ================================================================== *)

(** ** Stereo to mono, and the range of the sample conversions *)

Section ChannelsAndRanges.

Import Pcm PcmSpec.

Lemma convertStereoToMono_frames :
  forall n stereoBuffer,
    length stereoBuffer = 4 * n ->
    convertStereoToMono stereoBuffer = Some (left_channel stereoBuffer)
    /\ length (left_channel stereoBuffer) = 2 * n.
Proof.
  induction n as [|n IH]; intros b Hlen.
  - destruct b; [|discriminate]. split; reflexivity.
  - destruct b as [|l0 [|l1 [|r0 [|r1 rest]]]]; cbn [length] in Hlen; try lia.
    destruct (IH rest) as [Hc Hl]; [lia|].
    cbn [convertStereoToMono left_channel length].
    rewrite writeInt16LE_readInt16LE, Hc, Hl. split; [reflexivity|lia].
Qed.

Lemma convertStereoToMono_ragged :
  forall stereoBuffer,
    length stereoBuffer mod 4 <> 0 -> convertStereoToMono stereoBuffer = None.
Proof.
  induction stereoBuffer as [b IH] using buffer_length_ind. intros Hmod.
  destruct b as [|l0 [|l1 [|r0 [|r1 rest]]]]; try reflexivity.
  - exfalso. apply Hmod. reflexivity.
  - cbn [convertStereoToMono]. rewrite writeInt16LE_readInt16LE.
    rewrite IH; [reflexivity|cbn [length]; lia|].
    intros H. apply Hmod. cbn [length].
    replace (S (S (S (S (length rest))))) with (length rest + 1 * 4) by lia.
    rewrite Nat.Div0.mod_add. exact H.
Qed.

(** X1. [convertStereoToMono] succeeds exactly on the buffers that hold
    whole stereo frames (a length that is a multiple of 4); its result
    is then the two left-channel bytes of every frame, unchanged and in
    order, half as long as the input.  On any other length it raises. *)
Theorem convertStereoToMono_keeps_left_channel :
  forall stereoBuffer,
    convertStereoToMono stereoBuffer
      = (if length stereoBuffer mod 4 =? 0
         then Some (left_channel stereoBuffer) else None)
    /\ (length stereoBuffer mod 4 = 0 ->
        2 * length (left_channel stereoBuffer) = length stereoBuffer).
Proof.
  intros b. destruct (Nat.eqb_spec (length b mod 4) 0) as [E|E].
  - assert (Hn : length b = 4 * (length b / 4)).
    { pose proof (Nat.div_mod_eq (length b) 4). lia. }
    destruct (convertStereoToMono_frames _ b Hn) as [Hc Hl].
    split; [exact Hc|]. intros _. lia.
  - split; [apply convertStereoToMono_ragged, E|]. intros H. contradiction.
Qed.

Lemma left_channel_app :
  forall n a b,
    length a = 4 * n ->
    left_channel (a ++ b) = (left_channel a ++ left_channel b)%list.
Proof.
  induction n as [|n IH]; intros a b Hlen.
  - destruct a; [reflexivity|discriminate].
  - destruct a as [|l0 [|l1 [|r0 [|r1 rest]]]]; cbn [length] in Hlen; try lia.
    cbn [app left_channel]. rewrite (IH rest b) by lia. reflexivity.
Qed.

Lemma left_channel_concat :
  forall n frames,
    Forall (fun f => length f = 4 * n) frames ->
    left_channel (concat frames) = concat (map left_channel frames).
Proof.
  intros n frames H. induction H as [|f frames Hf _ IH]; [reflexivity|].
  cbn [concat map]. rewrite (left_channel_app n f _ Hf), IH. reflexivity.
Qed.

(** X2. Over any run of the capture handler, every frame emitted is
    9600 bytes of stereo and carries its mono version, the 4800
    left-channel bytes of the frame: the conversion cannot fail on a
    frame.  The mono frames put end to end are the left channel of the
    stereo frames put end to end, and these, followed by the bytes left
    in the buffer, are the bytes received: the mono stream is the left
    channel of the input, in order and without a gap. *)
Theorem feed_emits_left_channel :
  forall events,
    let out := fst (feed events []) in
    let stereo := concat (map chunk out) in
    Forall (fun e =>
              length (chunk e) = Z.to_nat 9600
              /\ monoChunk e = Some (left_channel (chunk e))
              /\ length (left_channel (chunk e)) = Z.to_nat 4800)
           out
    /\ (stereo ++ snd (feed events []))%list = concat (map snd events)
    /\ concat (map left_channel (map chunk out)) = left_channel stereo.
Proof.
  intros events out stereo.
  destruct (feed_frames events []) as [Hf Hr]; [apply CHUNK_SIZE_pos|].
  cbn [app] in Hf, Hr. fold out in Hf.
  pose proof (feed_mono events []) as Hm. fold out in Hm.
  pose proof (split_frames_frame_length _ CHUNK_SIZE_pos (concat (map snd events)))
    as Hlen.
  rewrite <- Hf in Hlen.
  assert (H9600 : CHUNK_SIZE = 4 * Z.to_nat 2400).
  { pose proof CHUNK_SIZE_value. lia. }
  split; [|split].
  - clear Hf Hr stereo. induction out as [|e out IH]; [constructor|].
    cbn [map] in Hm, Hlen. inversion Hlen as [|? ? He Hrest]; subst.
    injection Hm as Hme Hmout.
    destruct (convertStereoToMono_frames (Z.to_nat 2400) (chunk e)) as [Hc Hl];
      [lia|].
    constructor; [|apply IH; assumption].
    split; [lia|]. split; [rewrite Hme; exact Hc|lia].
  - subst stereo. rewrite Hf, Hr. apply split_frames_concat, CHUNK_SIZE_pos.
  - subst stereo. symmetry. apply (left_channel_concat (Z.to_nat 2400)).
    rewrite H9600 in Hlen. exact Hlen.
Qed.

Local Open Scope Q_scope.

(** The clamp of [float32ToInt16] lies in [[-1, 1]]. *)
Lemma clamp_range :
  forall x, -1 <= Dbl.max (-1) (Dbl.min 1 x) <= 1.
Proof.
  intros x. unfold Dbl.max, Dbl.min.
  destruct (Dbl.ltb x 1) eqn:E.
  - apply ltb_lt in E. destruct (Dbl.ltb (-1) x) eqn:E'.
    + apply ltb_lt in E'. lra.
    + lra.
  - replace (Dbl.ltb (-1) 1) with true by reflexivity. lra.
Qed.

Lemma Qfloor_between :
  forall x lo hi,
    inject_Z lo <= x -> x < inject_Z hi + 1 -> (lo <= Qfloor x <= hi)%Z.
Proof.
  intros x lo hi Hlo Hhi.
  pose proof (Qfloor_le x) as Hfl. pose proof (Qlt_floor x) as Hfh.
  rewrite inject_Z_plus in Hfh. change (inject_Z 1) with 1 in Hfh.
  assert (H1 : inject_Z (Qfloor x) < inject_Z (hi + 1))
    by (rewrite inject_Z_plus; change (inject_Z 1) with 1; lra).
  assert (H2 : inject_Z lo < inject_Z (Qfloor x + 1))
    by (rewrite inject_Z_plus; change (inject_Z 1) with 1; lra).
  rewrite <- Zlt_Qlt in H1, H2. lia.
Qed.

Lemma round_ne_zero : forall prec q, q == 0 -> Dbl.round_ne prec q = 0.
Proof.
  intros prec [n d] H. unfold Qeq in H. cbn in H.
  assert (n = 0%Z) by lia. subst n. reflexivity.
Qed.

Lemma float32ToInt16_range :
  forall x, (-32768 <= float32ToInt16 x <= 32767)%Z.
Proof.
  intros x. unfold float32ToInt16.
  pose proof (clamp_range x) as Hc.
  set (c := Dbl.max (-1) (Dbl.min 1 x)) in *.
  destruct (Dbl.ltb c 0) eqn:E.
  - apply ltb_lt in E. unfold Dbl.mul, Dbl.double.
    assert (Hp : c * 32768 < 0) by lra.
    pose proof (round_ne_error_neg 53 (c * 32768) Hp) as H. rewrite pow2_m53 in H.
    set (y := Dbl.round_ne 53 (c * 32768)) in *.
    unfold Dbl.round.
    assert (Hb : (-32768 <= Qfloor (y + (1 # 2)) <= 0)%Z).
    { apply Qfloor_between;
        [change (inject_Z (-32768)) with (-32768)|change (inject_Z 0) with 0]; lra. }
    lia.
  - apply ltb_ge in E. unfold Dbl.mul, Dbl.double.
    destruct (Qeq_dec c 0) as [Hz|Hz].
    + rewrite round_ne_zero by (rewrite Hz; reflexivity).
      vm_compute. split; discriminate.
    + assert (Hp : 0 < c * 32767) by lra.
      pose proof (round_ne_error_pos 53 (c * 32767) Hp) as H. rewrite pow2_m53 in H.
      set (y := Dbl.round_ne 53 (c * 32767)) in *.
      unfold Dbl.round.
      assert (Hb : (0 <= Qfloor (y + (1 # 2)) <= 32767)%Z).
      { apply Qfloor_between;
          [change (inject_Z 0) with 0|change (inject_Z 32767) with 32767]; lra. }
      lia.
Qed.

Local Close Scope Q_scope.

Lemma writeInt16LE_total :
  forall v, (-32768 <= v <= 32767)%Z -> exists lo hi, writeInt16LE v = Some (lo, hi).
Proof.
  intros v Hv. unfold writeInt16LE.
  replace ((-32768 <=? v)%Z && (v <=? 32767)%Z) with true
    by (symmetry; apply andb_true_iff; split; apply Z.leb_le; lia).
  pose proof (Z.mod_pos_bound v 65536 eq_refl) as Hu.
  set (u := (v mod 65536)%Z) in *.
  pose proof (Z.mod_pos_bound u 256 eq_refl) as Hl.
  assert (Hh : (0 <= u / 256 < 256)%Z).
  { split; [apply Z.div_pos; lia|apply Z.div_lt_upper_bound; lia]. }
  destruct (Byte.of_N (Z.to_N (u mod 256))) as [lo|] eqn:Elo.
  - destruct (Byte.of_N (Z.to_N (u / 256))) as [hi|] eqn:Ehi.
    + exists lo, hi. reflexivity.
    + apply Byte.of_N_None_iff in Ehi. lia.
  - apply Byte.of_N_None_iff in Elo. lia.
Qed.

Lemma readInt16LE_writeInt16LE :
  forall v lo hi, writeInt16LE v = Some (lo, hi) -> readInt16LE lo hi = v.
Proof.
  intros v lo hi. unfold writeInt16LE.
  destruct ((-32768 <=? v)%Z && (v <=? 32767)%Z) eqn:E; [|discriminate].
  apply andb_true_iff in E. destruct E as [E1 E2].
  apply Z.leb_le in E1. apply Z.leb_le in E2.
  pose proof (Z.mod_pos_bound v 65536 eq_refl) as Hu.
  set (u := (v mod 65536)%Z) in *.
  pose proof (Z.mod_pos_bound u 256 eq_refl) as Hl.
  assert (Hh : (0 <= u / 256)%Z) by (apply Z.div_pos; lia).
  destruct (Byte.of_N (Z.to_N (u mod 256))) as [l|] eqn:Elo; [|discriminate].
  destruct (Byte.of_N (Z.to_N (u / 256))) as [h|] eqn:Ehi; [|discriminate].
  intros H. injection H as -> ->.
  apply Byte.to_of_N in Elo. apply Byte.to_of_N in Ehi.
  unfold readInt16LE. rewrite Elo, Ehi, !Z2N.id by lia.
  replace (u mod 256 + 256 * (u / 256))%Z with u
    by (pose proof (Z.div_mod u 256); lia).
  assert (Hv : (v = u \/ v = u - 65536)%Z).
  { subst u. destruct (Z.ltb_spec v 0).
    - right. replace v with (v + 65536 + (-1) * 65536)%Z at 2 by lia.
      rewrite Z.mod_add by lia. rewrite Z.mod_small; lia.
    - left. rewrite Z.mod_small; lia. }
  destruct (Z.ltb_spec u 32768); lia.
Qed.

(** X3. [convertFloat32ToPCMBuffer] never raises: whatever finite values
    the array holds, every sample is clamped into the Int16 range before
    it is written, so the result is a buffer of two bytes per element
    whose samples all lie in [-32768, 32767].  A value of 1 or more is
    written as 32767 and a value of -1 or less as -32768. *)
Theorem convertFloat32ToPCMBuffer_saturates :
  (forall float32Array,
     exists pcmBuffer,
       convertFloat32ToPCMBuffer float32Array = Some pcmBuffer
       /\ length pcmBuffer = 2 * length float32Array
       /\ samples pcmBuffer = map float32ToInt16 float32Array
       /\ Forall (fun s => (-32768 <= s <= 32767)%Z) (samples pcmBuffer))
  /\ (forall x, (1 <= x)%Q -> float32ToInt16 x = 32767%Z)
  /\ (forall x, (x <= -1)%Q -> float32ToInt16 x = (-32768)%Z).
Proof.
  split; [|split].
  - induction float32Array as [|x rest IH].
    + exists []. repeat split. constructor.
    + destruct IH as (bs & Hc & Hl & Hs & Hr).
      pose proof (float32ToInt16_range x) as Hx.
      destruct (writeInt16LE_total _ Hx) as (lo & hi & Hw).
      exists (lo :: hi :: bs). cbn [convertFloat32ToPCMBuffer].
      rewrite Hw, Hc. cbn [length samples map].
      assert (Hread : readInt16LE lo hi = float32ToInt16 x)
        by (apply readInt16LE_writeInt16LE, Hw).
      rewrite Hread. repeat split; [lia|rewrite Hs; reflexivity|].
      constructor; [exact Hx|exact Hr].
  - intros x Hx. unfold float32ToInt16, Dbl.max, Dbl.min.
    replace (Dbl.ltb x 1) with false by (symmetry; apply ltb_ge; exact Hx).
    vm_compute. reflexivity.
  - intros x Hx. unfold float32ToInt16, Dbl.max, Dbl.min.
    replace (Dbl.ltb x 1) with true by (symmetry; apply ltb_lt; lra).
    replace (Dbl.ltb (-1) x) with false by (symmetry; apply ltb_ge; exact Hx).
    vm_compute. reflexivity.
Qed.

Local Open Scope Q_scope.

Lemma int16ToFloat32_range :
  forall s, (-32768 <= s <= 32767)%Z ->
    -1 <= int16ToFloat32 s <= 1
    /\ ((0 < s)%Z -> 0 < int16ToFloat32 s)
    /\ ((s < 0)%Z -> int16ToFloat32 s < 0).
Proof.
  intros s Hs.
  destruct (Z.eq_dec s 32767) as [->|Hmax];
    [vm_compute; repeat split; intros; discriminate|].
  destruct (Z.eq_dec s (-32768)) as [->|Hmin];
    [vm_compute; repeat split; intros; discriminate|].
  destruct (Z.eq_dec s 0) as [->|Hzero];
    [vm_compute; repeat split; intros; discriminate|].
  unfold int16ToFloat32, Dbl.fround, Dbl.div, Dbl.double.
  set (S := inject_Z s).
  destruct (Z.ltb_spec s 0) as [Hneg|Hpos].
  - assert (HS : -32767 <= S <= -1).
    { subst S. split;
        [change (-32767) with (inject_Z (-32767))|change (-1) with (inject_Z (-1))];
        rewrite <- Zle_Qle; lia. }
    set (q := S / 32768).
    assert (Hq : q * 32768 == S) by (subst q; field).
    assert (Hqneg : q < 0) by lra.
    pose proof (round_ne_error_neg 53 q Hqneg) as H1. rewrite pow2_m53 in H1.
    set (x1 := Dbl.round_ne 53 q) in *.
    assert (Hx1 : x1 < 0) by lra.
    pose proof (round_ne_error_neg 24 x1 Hx1) as H2. rewrite pow2_m24 in H2.
    set (x2 := Dbl.round_ne 24 x1) in *.
    repeat split; intros; try lia; lra.
  - assert (HS : 1 <= S <= 32766).
    { subst S. split;
        [change 1 with (inject_Z 1)|change 32766 with (inject_Z 32766)];
        rewrite <- Zle_Qle; lia. }
    set (q := S / 32767).
    assert (Hq : q * 32767 == S) by (subst q; field).
    assert (Hqpos : 0 < q) by lra.
    pose proof (round_ne_error_pos 53 q Hqpos) as H1. rewrite pow2_m53 in H1.
    set (x1 := Dbl.round_ne 53 q) in *.
    assert (Hx1 : 0 < x1) by lra.
    pose proof (round_ne_error_pos 24 x1 Hx1) as H2. rewrite pow2_m24 in H2.
    set (x2 := Dbl.round_ne 24 x1) in *.
    repeat split; intros; try lia; lra.
Qed.

(** X4. [convertPCMBufferToFloat32] yields one float per Int16 sample,
    each in the closed interval from -1 to 1 and of the sign of its
    sample; a buffer with an odd number of bytes makes it raise. *)
Theorem convertPCMBufferToFloat32_unit_range :
  forall pcmBuffer,
    if Nat.even (length pcmBuffer) then
      exists float32Array,
        convertPCMBufferToFloat32 pcmBuffer = Some float32Array
        /\ float32Array = map int16ToFloat32 (samples pcmBuffer)
        /\ Forall (fun f => -1 <= f <= 1) float32Array
        /\ Forall2 (fun s f => ((0 < s)%Z -> 0 < f) /\ ((s < 0)%Z -> f < 0)
                               /\ (s = 0%Z -> f = 0))
                   (samples pcmBuffer) float32Array
    else convertPCMBufferToFloat32 pcmBuffer = None.
Proof.
  induction pcmBuffer as [b IH] using buffer_length_ind.
  destruct b as [|lo [|hi rest]].
  - cbn. exists []. repeat split; constructor.
  - reflexivity.
  - specialize (IH rest). cbn [length Nat.even] in *.
    destruct (Nat.even (length rest)).
    + destruct IH as (fs & Hc & Hm & Hr & Hsign); [lia|].
      exists (int16ToFloat32 (readInt16LE lo hi) :: fs).
      cbn [convertPCMBufferToFloat32 samples map]. rewrite Hc, <- Hm.
      pose proof (int16ToFloat32_range _ (readInt16LE_range lo hi)) as (Hb & Hp & Hn).
      split; [reflexivity|]. split; [reflexivity|]. split.
      * constructor; [exact Hb|exact Hr].
      * constructor; [|exact Hsign].
        repeat split; try assumption. intros ->. reflexivity.
    + cbn [convertPCMBufferToFloat32]. rewrite IH by lia. reflexivity.
Qed.

End ChannelsAndRanges.

(** ** Exactly representable values *)

Section Exactness.

Import Dbl.
Local Open Scope Q_scope.

Lemma pow2_lt_inv : forall a b, pow2 a < pow2 b -> (a < b)%Z.
Proof.
  intros a b H. destruct (Z.lt_ge_cases a b) as [Hlt|Hge]; [exact Hlt|].
  exfalso. apply (Qlt_not_le _ _ H). apply pow2_le. exact Hge.
Qed.

Lemma nearest_even_comp :
  forall x y, x == y -> nearest_even x = nearest_even y.
Proof.
  intros x y H. unfold nearest_even.
  rewrite (Qfloor_comp x y H).
  assert (E : x - inject_Z (Qfloor y) == y - inject_Z (Qfloor y))
    by (rewrite H; reflexivity).
  rewrite (Qcompare_comp _ _ E _ _ (Qeq_refl (1 # 2))). reflexivity.
Qed.

Lemma nearest_even_Z : forall n, nearest_even (inject_Z n) = n.
Proof.
  intros n. unfold nearest_even. rewrite Qfloor_Z.
  replace (inject_Z n - inject_Z n ?= 1 # 2) with Lt; [reflexivity|].
  symmetry. apply Qlt_alt.
  assert (E : inject_Z n - inject_Z n == 0) by ring.
  rewrite E. reflexivity.
Qed.

(** A value [m * 2^j] whose significand [m] fits in [prec] bits is not
    moved by rounding. *)
Lemma round_pos_exact :
  forall prec q m j,
    (0 <= prec)%Z -> (0 < m < 2 ^ prec)%Z ->
    q == inject_Z m * pow2 j ->
    round_pos prec q == q.
Proof.
  intros prec q m j Hprec Hm Hq. unfold round_pos.
  set (e := (ilog2_floor q - (prec - 1))%Z).
  rewrite Qred_correct.
  assert (Hmpos : 0 < inject_Z m).
  { change 0 with (inject_Z 0). rewrite <- Zlt_Qlt. lia. }
  pose proof (pow2_pos j) as Hj.
  assert (Hqpos : 0 < q).
  { rewrite Hq. apply Qmult_lt_0_compat; assumption. }
  assert (Hup : q < pow2 (prec + j)).
  { rewrite Hq, pow2_plus. apply Qmult_lt_compat_r; [exact Hj|].
    rewrite pow2_inject by exact Hprec. rewrite <- Zlt_Qlt. lia. }
  pose proof (ilog2_floor_lower q Hqpos) as Hlo.
  assert (Hk : (ilog2_floor q < prec + j)%Z).
  { apply pow2_lt_inv. eapply Qle_lt_trans; eassumption. }
  assert (Hd : (0 <= j - e)%Z) by (subst e; lia).
  pose proof (pow2_pos e) as He.
  assert (Hint : q / pow2 e == inject_Z (m * 2 ^ (j - e))).
  { rewrite inject_Z_mult, <- pow2_inject by exact Hd.
    replace (j - e)%Z with (j + - e)%Z by lia.
    rewrite pow2_plus, Hq.
    assert (Hinv : pow2 (- e) == / pow2 e) by (apply Qpower_opp).
    rewrite Hinv. field. lra. }
  rewrite (nearest_even_comp _ _ Hint), nearest_even_Z, <- Hint.
  field. lra.
Qed.

Lemma double_exact_int :
  forall x n, (0 <= n < 2 ^ 53)%Z -> x == inject_Z n -> double x == inject_Z n.
Proof.
  intros x n Hn Hx. unfold double.
  destruct (Z.eq_dec n 0) as [->|Hnz].
  - rewrite (round_ne_zero 53 x Hx). reflexivity.
  - assert (Hpos : 0 < x).
    { rewrite Hx. change 0 with (inject_Z 0). rewrite <- Zlt_Qlt. lia. }
    rewrite (round_ne_pos 53 x Hpos).
    rewrite (round_pos_exact 53 x n 0); [exact Hx|lia|lia|].
    rewrite Hx. change (pow2 0) with 1. ring.
Qed.



End Exactness.

(** ** Rate-limit recovery for every hint *)

Section RecoveryInGeneral.

Import JsString RateLimit Session.

Local Open Scope Q_scope.

Lemma recovery_of_whole_hint :
  forall h, (0 <= h < 2 ^ 40)%Z ->
    Dbl.ceil (Dbl.mul (Dbl.add (inject_Z h) 2) 1000) = ((h + 2) * 1000)%Z.
Proof.
  intros h Hh. unfold Dbl.ceil, Dbl.mul, Dbl.add.
  assert (Ha : Dbl.double (inject_Z h + 2) == inject_Z (h + 2)).
  { apply double_exact_int; [lia|]. rewrite inject_Z_plus. reflexivity. }
  assert (Hm : Dbl.double (Dbl.double (inject_Z h + 2) * 1000)
               == inject_Z ((h + 2) * 1000)).
  { apply double_exact_int; [lia|]. rewrite Ha, inject_Z_mult. reflexivity. }
  rewrite (Qceiling_comp _ _ Hm). apply Qceiling_Z.
Qed.

Lemma seconds_of_whole_ms :
  forall n, (0 <= n < 2 ^ 41)%Z ->
    Dbl.ceil (Dbl.div (inject_Z (n * 1000)) 1000) = n.
Proof.
  intros n Hn. unfold Dbl.ceil, Dbl.div.
  assert (Hd : Dbl.double (inject_Z (n * 1000) / 1000) == inject_Z n).
  { apply double_exact_int; [lia|]. rewrite inject_Z_mult.
    change (inject_Z 1000) with 1000. field. }
  rewrite (Qceiling_comp _ _ Hd). apply Qceiling_Z.
Qed.


Local Close Scope Q_scope.
Local Open Scope string_scope.






(** A countdown scheduled at [n] seconds publishes [n] at once, then
    one status per tick down to 1, then [Ready], and stops. *)
Lemma schedule_runs_down :
  forall statusMessage recoveryMs t n,
    Dbl.ceil (Dbl.div (inject_Z recoveryMs) 1000%Q) = Z.of_nat (S n) ->
    let t0 := scheduleGeminiRateLimitRecovery statusMessage recoveryMs t in
    rateLimitCountdownInterval t0
      = Some {| label := statusMessage; remainingSec := Z.of_nat (S n) |}
    /\ published (ticks (S n) t0)
       = (published t ++ countdown_statuses statusMessage (S n))%list
    /\ rateLimitCountdownInterval (ticks (S n) t0) = None
    /\ (forall k, ticks (S n + k) t0 = ticks (S n) t0).
Proof.
  intros statusMessage recoveryMs t n Hsec t0.
  assert (Hint : rateLimitCountdownInterval t0
                 = Some {| label := statusMessage; remainingSec := Z.of_nat (S n) |}).
  { subst t0. unfold scheduleGeminiRateLimitRecovery. rewrite Hsec. reflexivity. }
  destruct (ticks_countdown n statusMessage t0 Hint) as [Hpub Hstop].
  split; [exact Hint|]. split; [|split; [exact Hstop|]].
  - rewrite Hpub. subst t0. unfold scheduleGeminiRateLimitRecovery.
    rewrite Hsec. cbn [published sendToRenderer countdown_statuses].
    rewrite <- app_assoc. reflexivity.
  - intros k. rewrite ticks_add. apply ticks_idle, Hstop.
Qed.

(** X5. A 429 error whose hint is a whole number [h] of seconds: the
    recovery time is [(h + 2) * 1000] ms, the countdown starts at
    [h + 2], replacing any countdown that was running, and publishes
    [h + 2], [h + 1], ..., 1 and then [Ready], one status per second;
    the interval is then cleared and nothing more is published. *)
Theorem rate_limit_countdown_from_whole_hint :
  forall e errorMessage t h,
    message e = Some errorMessage ->
    includes (toLowerCase errorMessage) "429" = true ->
    retry_hint errorMessage = Some (inject_Z (Z.of_nat h)) ->
    (Z.of_nat h < 2 ^ 40)%Z ->
    let status := statusMessage (parseGeminiRateLimitError errorMessage) in
    let t0 := handle_error e t in
    recoveryMs (parseGeminiRateLimitError errorMessage)
      = ((Z.of_nat h + 2) * 1000)%Z
    /\ rateLimitCountdownInterval t0
       = Some {| label := status; remainingSec := Z.of_nat (h + 2) |}
    /\ published (ticks (h + 2) t0)
       = (published t ++ countdown_statuses status (h + 2))%list
    /\ rateLimitCountdownInterval (ticks (h + 2) t0) = None
    /\ (forall k, ticks (h + 2 + k) t0 = ticks (h + 2) t0).
Proof.
  intros e errorMessage t h Hmsg H429 Hhint Hh status t0.
  assert (Hms : recoveryMs (parseGeminiRateLimitError errorMessage)
                = ((Z.of_nat h + 2) * 1000)%Z).
  { unfold parseGeminiRateLimitError. rewrite Hhint. cbn [recoveryMs].
    apply recovery_of_whole_hint. lia. }
  split; [exact Hms|].
  assert (Ht0 : t0 = scheduleGeminiRateLimitRecovery status
                       ((Z.of_nat h + 2) * 1000)%Z t).
  { subst t0. unfold handle_error. rewrite Hmsg, H429. fold status.
    rewrite Hms. reflexivity. }
  rewrite Ht0. replace (h + 2) with (S (S h)) by lia.
  apply schedule_runs_down.
  rewrite seconds_of_whole_ms by lia. lia.
Qed.


(** X7. An error that mentions 503, [overloaded] or [unavailable] and
    not 429 starts the countdown [Server Overloaded (Gemini)] at 15
    seconds, which runs down to [Ready] in the same way. *)
Theorem overload_countdown_from_15 :
  forall e errorMessage t,
    message e = Some errorMessage ->
    includes (toLowerCase errorMessage) "429" = false ->
    includes (toLowerCase errorMessage) "503"
      || includes (toLowerCase errorMessage) "overloaded"
      || includes (toLowerCase errorMessage) "unavailable" = true ->
    let t0 := handle_error e t in
    rateLimitCountdownInterval t0
      = Some {| label := "Server Overloaded (Gemini)"; remainingSec := 15 |}
    /\ published (ticks 15 t0)
       = (published t ++ countdown_statuses "Server Overloaded (Gemini)" 15)%list
    /\ rateLimitCountdownInterval (ticks 15 t0) = None.
Proof.
  intros e errorMessage t Hmsg H429 Hover t0.
  assert (Ht0 : t0 = scheduleGeminiRateLimitRecovery
                       "Server Overloaded (Gemini)" (15 * 1000) t).
  { subst t0. unfold handle_error. rewrite Hmsg, H429, Hover. reflexivity. }
  rewrite Ht0.
  destruct (schedule_runs_down "Server Overloaded (Gemini)" (15 * 1000) t 14)
    as (H1 & H2 & H3 & _); [vm_compute; reflexivity|].
  split; [exact H1|]. split; [exact H2|exact H3].
Qed.

End RecoveryInGeneral.

(** ** What a request carries *)

Section Requests.

Import JsString RateLimit Session.
Local Open Scope string_scope.



Lemma strip_images_no_image :
  forall e, is_user_image_entry (strip_images e) = false.
Proof.
  intros e. unfold is_user_image_entry, strip_images. cbn [entry_role parts].
  destruct (entry_role e); [|reflexivity].
  induction (parts e) as [|p ps IH]; [reflexivity|].
  cbn [map existsb]. rewrite IH, orb_false_r.
  unfold placeholder. destruct (is_image p) eqn:E; [reflexivity|exact E].
Qed.

Lemma strip_if_image_no_image :
  forall history,
    Forall (fun e => is_user_image_entry e = false)
           (map (fun e => if is_user_image_entry e then strip_images e else e) history).
Proof.
  induction history as [|e history IH]; cbn [map]; constructor; [|exact IH].
  destruct (is_user_image_entry e) eqn:E; [apply strip_images_no_image|exact E].
Qed.

Lemma strip_if_image_same :
  forall history,
    Forall2 same_turn
      (map (fun e => if is_user_image_entry e then strip_images e else e) history)
      history.
Proof.
  induction history as [|e history IH]; cbn [map]; constructor; [|exact IH].
  destruct (is_user_image_entry e);
    [apply same_turn_strip|]; apply same_turn_refl.
Qed.

Lemma existsb_false_Forall :
  forall {A : Type} (f : A -> bool) l,
    existsb f l = false -> Forall (fun x => f x = false) l.
Proof.
  intros A f l. induction l as [|x l IH]; intros H; constructor;
    cbn [existsb] in H; apply orb_false_iff in H; [apply H|apply IH, H].
Qed.

(** X9. The contents of a request are the stored history, entry for
    entry in the same order and with the same roles and texts, followed
    by the one new user message.  When the request carries no image, or
    the mode is the interview mode, no user entry of the history sent
    holds an image: each has been replaced by the placeholder.  In any
    other mode a request with an image sends the history as stored. *)
Theorem request_history_without_old_images :
  forall g s i,
    exists sent,
      contents (build_request g s i) = (sent ++ [user_entry (build_parts g i)])%list
      /\ Forall2 same_turn sent (conversationHistory s)
      /\ (currentMode g = "interview" \/ hasImage i = false ->
          Forall (fun e => is_user_image_entry e = false) sent)
      /\ (currentMode g <> "interview" /\ hasImage i = true ->
          sent = conversationHistory s).
Proof.
  intros g s i. exists (historyForRequest g i (conversationHistory s)).
  split; [reflexivity|]. unfold historyForRequest.
  set (h := conversationHistory s).
  set (strip := (currentMode g =? "interview") || negb (hasImage i)).
  split; [|split].
  - destruct (strip && existsb is_user_image_entry h);
      [apply strip_if_image_same|apply same_turns_refl].
  - intros Hcond.
    assert (Hs : strip = true).
    { subst strip. destruct Hcond as [-> | ->];
        [reflexivity|apply orb_true_r]. }
    rewrite Hs. cbn [andb].
    destruct (existsb is_user_image_entry h) eqn:Eh;
      [apply strip_if_image_no_image|apply existsb_false_Forall, Eh].
  - intros [Hmode Himg].
    assert (Hs : strip = false).
    { subst strip. rewrite Himg.
      destruct (String.eqb_spec (currentMode g) "interview");
        [contradiction|reflexivity]. }
    rewrite Hs. reflexivity.
Qed.

(** X10. Over any run of calls the session keeps its model, its system
    prompt, its tools and its open or closed state; no call throws;
    and each call makes at most one request, so a failed request is
    never retried. *)
Theorem run_keeps_session_identity :
  forall calls s t,
    let o := send_all calls s t in
    model (session_after o) = model s
    /\ systemPrompt (session_after o) = systemPrompt s
    /\ tools (session_after o) = tools s
    /\ isClosed (session_after o) = isClosed s
    /\ Forall (fun c => exists v, c = Returns v) (result o)
    /\ length (result o) = length calls
    /\ length (requests o) <= length calls.
Proof.
  induction calls as [|c calls IH]; intros s t.
  - cbn. repeat split; try reflexivity; constructor.
  - cbn [send_all]. cbv zeta.
    set (o1 := sendRealtimeInput (call_settings c) (call_backend c) s t (call_input c)).
    assert (H1 : model (session_after o1) = model s
                 /\ systemPrompt (session_after o1) = systemPrompt s
                 /\ tools (session_after o1) = tools s
                 /\ isClosed (session_after o1) = isClosed s
                 /\ (exists v, result o1 = Returns v)).
    { destruct (sendRealtimeInput_history (call_settings c) (call_backend c)
                  s t (call_input c)) as [(r & Hr & Hs)|[Hr Hs]]; fold o1 in Hr, Hs.
      - rewrite Hs, Hr. repeat split; try reflexivity. eexists; reflexivity.
      - rewrite Hs. repeat split; try reflexivity.
        destruct Hr as [-> | ->]; eexists; reflexivity. }
    assert (H2 : length (requests o1) <= 1).
    { subst o1. unfold sendRealtimeInput.
      destruct (isClosed s); [cbn; lia|].
      assert (Hb : length (requests (try_body (call_settings c) (call_backend c)
                                       s t (call_input c))) <= 1).
      { unfold try_body.
        destruct (input_media (call_input c)); destruct (truthy_text (call_input c));
          try (cbn; lia);
          (destruct (call_backend c (build_request (call_settings c) s (call_input c)))
             as [e|chunks [|e [e'|ps]]]; cbv zeta beta;
           try match goal with
               | |- context [has_text ?r] => destruct (has_text r)
               end; cbn [requests succeed length]; lia). }
      destruct (result (try_body (call_settings c) (call_backend c) s t (call_input c)));
        cbn [requests]; exact Hb. }
    destruct H1 as (Hm & Hp & Ht & Hc & Hv).
    destruct (IH (session_after o1) (timer_after o1)) as (Im & Ip & It & Ic & Iv & Il & Ir).
    cbn [result session_after requests length].
    rewrite Im, Ip, It, Ic, length_app.
    repeat split; try assumption; try lia.
    constructor; [exact Hv|exact Iv].
Qed.

End Requests.

(** ** The IPC handlers *)

Section Handlers.

Import JsString RateLimit Session Ipc.
Local Open Scope string_scope.

Lemma try_body_requests :
  forall g backend s t i,
    has_content i = true ->
    requests (try_body g backend s t i) = [build_request g s i].
Proof.
  intros g backend s t i Hc. unfold try_body.
  unfold has_content, hasImage in Hc.
  destruct (input_media i) as [m|]; destruct (truthy_text i) as [txt|];
    try discriminate;
    (destruct (backend (build_request g s i)) as [e|chunks [|e [e'|ps]]];
     cbv zeta beta;
     try match goal with
         | |- context [has_text ?r] => destruct (has_text r)
         end; reflexivity).
Qed.

Lemma sendRealtimeInput_requests :
  forall g backend s t i,
    isClosed s = false -> has_content i = true ->
    requests (sendRealtimeInput g backend s t i) = [build_request g s i].
Proof.
  intros g backend s t i Hopen Hc. unfold sendRealtimeInput. rewrite Hopen.
  pose proof (try_body_requests g backend s t i Hc) as H.
  destruct (result (try_body g backend s t i)); exact H.
Qed.

Lemma sendRealtimeInput_returns :
  forall g backend s t i,
    exists v, result (sendRealtimeInput g backend s t i) = Returns v.
Proof.
  intros g backend s t i. unfold sendRealtimeInput.
  destruct (isClosed s); [eexists; reflexivity|].
  destruct (result (try_body g backend s t i)); eexists; reflexivity.
Qed.

Lemma sendRealtimeInput_no_content :
  forall g backend s t i,
    has_content i = false ->
    sendRealtimeInput g backend s t i
      = {| result := Returns (if isClosed s then Undefined else Null);
           session_after := s; timer_after := t; requests := [] |}.
Proof.
  intros g backend s t i Hc. unfold sendRealtimeInput, try_body.
  unfold has_content, hasImage in Hc.
  destruct (isClosed s); [reflexivity|].
  destruct (input_media i); [discriminate|].
  destruct (truthy_text i); [discriminate|reflexivity].
Qed.

Lemma forward_succeeds :
  forall g backend h s i, answer (forward g backend h s i) = succeeded.
Proof.
  intros g backend h s i. unfold forward. cbn [answer].
  destruct (sendRealtimeInput_returns g backend s (timer h) i) as [v ->].
  reflexivity.
Qed.

Lemma truthy_app_l :
  forall a b, truthy a = true -> truthy (a ++ b) = true.
Proof. intros [|c a] b H; [discriminate|reflexivity]. Qed.

Lemma invalid_text_spec :
  forall text,
    invalid_text text = false <-> exists t, text = Str t /\ trim t <> "".
Proof.
  intros text. unfold invalid_text, not_a_nonempty_string, truthy. split.
  - destruct text as [| |t]; try discriminate. intros H.
    apply orb_false_iff in H. destruct H as [_ H].
    exists t. split; [reflexivity|]. intros E. rewrite E in H. discriminate.
  - intros (t & -> & H). apply orb_false_iff. split.
    + destruct t as [|c t]; [contradiction H; reflexivity|reflexivity].
    + destruct (trim t); [contradiction H; reflexivity|reflexivity].
Qed.

(** X11. Once ['close-session'] has run there is no current session,
    and every handler that needs one refuses with the error [No active
    Gemini session], makes no request and changes nothing;
    [chatWithGeminiText] returns [null] after publishing the status [No
    Gemini session], and [sendAudioToGemini] does nothing. *)
Theorem handlers_refuse_after_close_session :
  forall g backend base64_length getGeminiMessageHint currentProfile h
         data imageData text chatText chatImage,
    let h' := hub_after (close_session h) in
    current h' = None
    /\ answer (close_session h) = succeeded
    /\ published (timer h')
       = (published (timer h)
           ++ match current h with
              | Some _ => [("update-status", "Session closed")]
              | None => []
              end)%list
    /\ send_audio_content g backend h' = untouched no_session h'
    /\ send_image_content base64_length g backend h' data = untouched no_session h'
    /\ send_text_message g backend h' text = untouched no_session h'
    /\ send_screenshot_with_text g backend h' imageData text
       = untouched no_session h'
    /\ sendAudioToGemini g backend h' = h'
    /\ chatWithGeminiText getGeminiMessageHint currentProfile g backend h'
         chatText chatImage
       = {| answer := Returns Null;
            hub_after :=
              {| current := None;
                 timer := sendToRenderer "update-status" "No Gemini session"
                            (timer h') |};
            sent := [] |}.
Proof.
  intros g backend base64_length getGeminiMessageHint currentProfile h
         data imageData text chatText chatImage h'.
  assert (Hnone : current h' = None).
  { subst h'. unfold close_session. destruct h as [[s|] t]; reflexivity. }
  split; [exact Hnone|]. split.
  { unfold close_session. destruct (current h); reflexivity. }
  split.
  { subst h'. unfold close_session. destruct h as [[s|] t]; cbn.
    - reflexivity.
    - rewrite app_nil_r. reflexivity. }
  unfold send_audio_content, send_image_content, send_text_message,
    send_screenshot_with_text, sendAudioToGemini, chatWithGeminiText.
  rewrite Hnone. repeat split; reflexivity.
Qed.

(** X12. ['send-text-message'] with a current session: a text that is
    missing, empty or only white space is refused with [Invalid text
    message] and nothing happens.  Any other text is trimmed, given the
    language reminder when the language is not English, and handed to
    the session; the handler then reports success whatever the backend
    does.  On an open session exactly one request is made, whose new
    user message is built from that final text; on a closed one none. *)
Theorem send_text_message_reports_success :
  forall g backend h s text,
    current h = Some s ->
    let r := send_text_message g backend h text in
    (invalid_text text = true ->
       r = untouched (failed "Invalid text message") h)
    /\ (forall t, text = Str t -> trim t <> "" ->
          let i := {| input_text :=
                        Some (trim t ++ (if nonEnglish g
                                         then " (Remember: Respond in "
                                              ++ storedLanguageName g ++ ")"
                                         else ""));
                      input_media := None |} in
          answer r = succeeded
          /\ (isClosed s = false -> sent r = [build_request g s i])
          /\ (isClosed s = true -> sent r = [] /\ hub_after r = h)).
Proof.
  intros g backend h s text Hcur r. subst r. unfold send_text_message.
  rewrite Hcur. split.
  - intros Hinv. destruct text as [| |t]; try reflexivity. rewrite Hinv. reflexivity.
  - intros t -> Htrim. cbv zeta.
    assert (Hvalid : invalid_text (Str t) = false)
      by (apply invalid_text_spec; exists t; split; [reflexivity|exact Htrim]).
    rewrite Hvalid. fold (finalText g t). split; [apply forward_succeeds|].
    unfold forward. cbn [sent hub_after]. split.
    + intros Hopen. apply sendRealtimeInput_requests; [exact Hopen|].
      unfold has_content, truthy_text, finalText. cbn [input_text hasImage input_media].
      rewrite truthy_app_l; [reflexivity|].
      unfold truthy. destruct (trim t); [contradiction Htrim; reflexivity|reflexivity].
    + intros Hclosed. unfold sendRealtimeInput. rewrite Hclosed.
      cbn [requests session_after timer_after]. split; [reflexivity|].
      destruct h as [c t0]. cbn in *. congruence.
Qed.

(** X13. Audio never reaches the backend through the session: the
    ['send-audio-content'] handler and [sendAudioToGemini] hand the
    session an input that holds neither text nor media, for which the
    session makes no request, publishes nothing and keeps its history;
    the handler still reports success. *)
Theorem audio_content_is_dropped :
  forall g backend h s,
    current h = Some s ->
    send_audio_content g backend h = untouched succeeded h
    /\ sendAudioToGemini g backend h = h.
Proof.
  intros g backend h s Hcur.
  unfold send_audio_content, sendAudioToGemini, forward. rewrite Hcur.
  rewrite (sendRealtimeInput_no_content g backend s (timer h) audio_input eq_refl).
  cbn [result session_after timer_after requests hub_after].
  destruct h as [c t]. cbn in *. subst c.
  split; [|reflexivity]. unfold untouched.
  destruct (isClosed s); reflexivity.
Qed.

End Handlers.

(** ** The browser build: settings and history *)

Section BrowserRequests.

Import JsString WebApp.
Local Open Scope string_scope.

Variable Number_of_string : string -> option Q.
Variable delta_content : string -> option string.

Lemma clamp_bounds :
  forall value min max,
    (min <= max)%Q -> (min <= clamp value min max <= max)%Q.
Proof.
  intros value min max H. unfold clamp, Dbl.max, Dbl.min.
  destruct (Dbl.ltb value max) eqn:E.
  - apply ltb_lt in E. destruct (Dbl.ltb min value) eqn:E'.
    + apply ltb_lt in E'. lra.
    + lra.
  - destruct (Dbl.ltb min max) eqn:E'; lra.
Qed.

Lemma ltb_inject_Z :
  forall a b, Dbl.ltb (inject_Z a) (inject_Z b) = (a <? b)%Z.
Proof.
  intros a b. destruct (Z.ltb_spec a b) as [H|H].
  - apply ltb_lt. rewrite <- Zlt_Qlt. exact H.
  - apply ltb_ge. rewrite <- Zle_Qle. exact H.
Qed.

Lemma clamp_inject_Z :
  forall value min max,
    (min <= max)%Z ->
    exists n, clamp (inject_Z value) (inject_Z min) (inject_Z max) = inject_Z n
              /\ (min <= n <= max)%Z.
Proof.
  intros value min max H. unfold clamp, Dbl.max, Dbl.min.
  rewrite ltb_inject_Z.
  destruct (Z.ltb_spec value max); rewrite ltb_inject_Z.
  - destruct (Z.ltb_spec min value); eexists; (split; [reflexivity|lia]).
  - destruct (Z.ltb_spec min max); eexists; (split; [reflexivity|lia]).
Qed.

Lemma MODEL_MAX_TOKENS_range :
  forall m,
    (8192 <= match lookup m MODEL_MAX_TOKENS with Some n => n | None => 8192 end
          <= 65536)%Z.
Proof.
  intros m. unfold MODEL_MAX_TOKENS. cbn [lookup].
  repeat match goal with
         | |- context [if ?b then _ else _] => destruct b
         end; lia.
Qed.

(** X14. [getGenerationSettings] always yields a temperature between 0
    and 2, a [topP] between 0 and 1 and a whole number of output tokens
    between 256 and the maximum of the model, whatever is stored.  When
    nothing is stored for a setting, [getItem] gives [null], which
    converts to the number 0, so the settings are temperature 0, [topP]
    0 and 256 output tokens: the fallbacks 0.7, 0.95 and 4096 apply only
    to a stored text that is not a finite number. *)
Theorem generation_settings_within_bounds :
  forall localStorage st m,
    let g := getGenerationSettings Number_of_string localStorage st m in
    let maxAllowed :=
      match lookup m MODEL_MAX_TOKENS with Some n => n | None => 8192%Z end in
    (0 <= temperature g <= 2)%Q
    /\ (0 <= topP g <= 1)%Q
    /\ (exists n, maxOutputTokens g = inject_Z n /\ (256 <= n <= maxAllowed)%Z)
    /\ (maxAllowed <= 65536)%Z
    /\ ((forall key, localStorage key = None) ->
        temperature g = 0%Q /\ topP g = 0%Q /\ maxOutputTokens g = 256%Q).
Proof.
  intros localStorage st m g maxAllowed. subst g.
  pose proof (MODEL_MAX_TOKENS_range m) as Hmax. fold maxAllowed in Hmax.
  unfold getGenerationSettings. cbn [temperature topP maxOutputTokens].
  fold maxAllowed.
  split; [apply clamp_bounds; lra|]. split; [apply clamp_bounds; lra|].
  split; [apply (clamp_inject_Z _ 256 maxAllowed); lia|]. split; [lia|].
  intros Hnone. rewrite !Hnone. unfold parseNumber, Number.
  change (Qfloor 0) with 0%Z.
  split; [reflexivity|]. split; [reflexivity|].
  unfold clamp, Dbl.max, Dbl.min. rewrite ltb_inject_Z.
  destruct (Z.ltb_spec 0 maxAllowed); [reflexivity|lia].
Qed.

Lemma pushHistory_last10 :
  forall userText assistantText h,
    pushHistory userText assistantText h
      = last10 (h ++ [(userText, assistantText)]).
Proof.
  intros userText assistantText h. unfold pushHistory, last10.
  destruct (Nat.ltb_spec 10 (length (h ++ [(userText, assistantText)])));
    [reflexivity|].
  replace (length (h ++ [(userText, assistantText)]) - 10) with 0 by lia.
  reflexivity.
Qed.

Lemma last10_app :
  forall a b, last10 (last10 a ++ b) = last10 (a ++ b).
Proof.
  intros a b. unfold last10.
  set (k := length a - 10).
  assert (E : (skipn k a ++ b)%list = skipn k (a ++ b)).
  { rewrite skipn_app. replace (k - length a) with 0 by lia. reflexivity. }
  rewrite E, skipn_skipn, length_skipn, !length_app.
  f_equal. lia.
Qed.

(** X15. [pushHistory] keeps the last ten turns: after any number of
    pushes on an empty history, the history is the last ten of the
    turns pushed, in the order they were pushed, and all of them while
    there are ten or fewer. *)
Theorem pushHistory_keeps_last_ten :
  forall turns,
    let h := fold_left (fun h turn => pushHistory (fst turn) (snd turn) h) turns [] in
    h = last10 turns
    /\ length h = Nat.min 10 (length turns)
    /\ (length turns <= 10 -> h = turns).
Proof.
  intros turns h.
  assert (Hgen : forall ts pushed,
             fold_left (fun h turn => pushHistory (fst turn) (snd turn) h) ts
                       (last10 pushed)
             = last10 (pushed ++ ts)).
  { induction ts as [|[u a] ts IH]; intros pushed.
    - rewrite app_nil_r. reflexivity.
    - cbn [fold_left fst snd]. rewrite pushHistory_last10, last10_app.
      rewrite IH, <- app_assoc. reflexivity. }
  assert (Hh : h = last10 turns) by (apply (Hgen turns [])).
  split; [exact Hh|]. rewrite Hh. unfold last10. split.
  - rewrite length_skipn. lia.
  - intros Hle. replace (length turns - 10) with 0 by lia. reflexivity.
Qed.

Lemma truthy_nonempty : forall s, truthy s = true -> s <> "".
Proof. intros s H E. subst s. discriminate. Qed.

Lemma answered_outcome :
  forall st text raw req,
    truthy (trim raw) = true ->
    request_outcome st text
      {| returned := inr (trim raw);
         state_after := with_history st (pushHistory text (trim raw) (history st));
         shown := []; fetched := [req] |}.
Proof.
  intros st text raw req H. split; [cbn; lia|]. cbn [returned state_after fetched].
  split; [apply truthy_nonempty, H|]. split; [apply trim_idempotent|].
  rewrite pushHistory_last10. split; reflexivity.
Qed.

Lemma requestGemini_outcome :
  forall localStorage backend st text imageBase64,
    request_outcome st text
      (requestGemini Number_of_string localStorage backend st text imageBase64).
Proof.
  intros localStorage backend st text imageBase64. unfold requestGemini.
  destruct (truthy (trim (or_else (localStorage "apiKey") ""))); cbn [negb];
    [|split; [cbn; lia|reflexivity]].
  match goal with
  | |- context [backend ?r] => destruct (backend r) as [m|status details|[m|parts]]
  end; try (split; [cbn; lia|reflexivity]).
  match goal with
  | |- context [truthy (trim ?raw)] => destruct (truthy (trim raw)) eqn:E
  end; cbn [negb]; [|split; [cbn; lia|reflexivity]].
  apply answered_outcome, E.
Qed.

Lemma requestGroq_outcome :
  forall localStorage backend st text imageBase64,
    request_outcome st text
      (requestGroq Number_of_string delta_content localStorage backend st text
                   imageBase64).
Proof.
  intros localStorage backend st text imageBase64. unfold requestGroq.
  destruct (truthy (trim (or_else (localStorage "groqApiKey") ""))); cbn [negb];
    [|split; [cbn; lia|reflexivity]].
  destruct (lookup (if truthy (model st) then model st else "llama-4-maverick")
                   GROQ_MODEL_IDS) as [modelId|];
    [|split; [cbn; lia|reflexivity]].
  match goal with
  | |- context [backend ?r] =>
      destruct (backend r) as [m|status details| |chunks [|m]]
  end; try (split; [cbn; lia|reflexivity]).
  destruct (truthy (trim (completeText (read_stream delta_content chunks)))) eqn:E;
    cbn [negb]; [|split; [cbn; lia|reflexivity]].
  split; [cbn; lia|]. cbn [returned state_after fetched].
  split; [apply truthy_nonempty, E|]. split; [apply trim_idempotent|].
  rewrite pushHistory_last10. split; reflexivity.
Qed.

Lemma sendMessageInternal_outcome :
  forall localStorage gemini groq st text imageBase64,
    let r := sendMessageInternal Number_of_string delta_content localStorage
               gemini groq st text imageBase64 in
    request_outcome st text r
    /\ match returned r with
       | inl _ => True
       | inr answer =>
           exists ui,
             shown r = (ui ++ [ SetResponse answer;
                                SetStatus (if mode st =? "interview"
                                           then "Listening..." else "Ready") ])%list
       end.
Proof.
  intros localStorage gemini groq st text imageBase64. cbv zeta.
  unfold sendMessageInternal.
  destruct (initialized st); cbn [negb];
    [|split; [split; [cbn; lia|reflexivity]|exact I]].
  assert (Hfinish : forall r0 thinking,
            request_outcome st text r0 ->
            let r := match returned r0 with
                     | inl message =>
                         throws message (state_after r0) (thinking :: shown r0)
                                (fetched r0)
                     | inr responseText =>
                         {| returned := inr responseText;
                            state_after := state_after r0;
                            shown := (thinking :: shown r0
                                       ++ [ SetResponse responseText;
                                            SetStatus
                                              (if mode (state_after r0) =? "interview"
                                               then "Listening..." else "Ready") ])%list;
                            fetched := fetched r0 |}
                     end in
            request_outcome st text r
            /\ match returned r with
               | inl _ => True
               | inr answer =>
                   exists ui,
                     shown r = (ui ++ [ SetResponse answer;
                                        SetStatus (if mode st =? "interview"
                                                   then "Listening..." else "Ready") ])%list
               end).
  { intros r0 thinking [Hf Hr]. cbv zeta.
    destruct (returned r0) as [message|answer] eqn:E.
    - split; [|exact I]. split; [exact Hf|exact Hr].
    - destruct Hr as (Hne & Htrim & Hst & Hone).
      split; [split; [exact Hf|]|].
      + cbn [returned state_after fetched]. repeat split; assumption.
      + cbn [returned shown]. exists (thinking :: shown r0)%list.
        rewrite Hst. reflexivity. }
  destruct (isGeminiModel (model st)).
  - apply Hfinish, requestGemini_outcome.
  - destruct (isGroqModel (model st)).
    + apply Hfinish, requestGroq_outcome.
    + split; [split; [cbn; lia|reflexivity]|exact I].
Qed.

(** X16. [sendTextMessage] never rejects: it resolves with a result.
    An empty or blank text is refused with [Empty message] before
    anything is shown or fetched.  A success means that exactly one
    request was made, that its answer is not empty and is trimmed, that
    the turn made of the trimmed text and the answer was pushed on the
    history, which keeps its last ten turns, and that the answer was
    shown last, followed by the idle status.  A failure leaves the
    state, the history included, as it was, carries the message of the
    error and, for a text that is not blank, shows it as the last
    status.  No call fetches more than once. *)
Theorem sendTextMessage_result_and_history :
  forall localStorage gemini groq screenshot st text,
    let r := sendTextMessage Number_of_string delta_content localStorage
               gemini groq screenshot st text in
    exists res,
      returned r = inr res
      /\ length (fetched r) <= 1
      /\ (trim text = "" ->
          res = {| success := false; error := Some "Empty message" |}
          /\ state_after r = st /\ shown r = [] /\ fetched r = [])
      /\ (success res = true ->
          exists answer ui,
            answer <> "" /\ trim answer = answer
            /\ state_after r
               = with_history st (last10 (history st ++ [(trim text, answer)]))
            /\ length (fetched r) = 1
            /\ shown r = (ui ++ [ SetResponse answer;
                                  SetStatus (if mode st =? "interview"
                                             then "Listening..." else "Ready") ])%list)
      /\ (success res = false ->
          state_after r = st
          /\ exists message,
               error res = Some message
               /\ (trim text <> "" ->
                   exists ui, shown r = (ui ++ [SetStatus ("Error: " ++ message)])%list)).
Proof.
  intros localStorage gemini groq screenshot st text. cbv zeta.
  unfold sendTextMessage.
  destruct (truthy (trim text)) eqn:Etrim.
  - assert (Etext : truthy text = true).
    { destruct text; [discriminate|reflexivity]. }
    rewrite Etext. cbn [negb orb].
    set (img := if mediaStream st
                then match screenshot with inr data => data | inl _ => None end
                else None).
    destruct (sendMessageInternal_outcome localStorage gemini groq st (trim text) img)
      as [[Hf Hr] Hui].
    unfold report.
    destruct (returned (sendMessageInternal Number_of_string delta_content
                          localStorage gemini groq st (trim text) img))
      as [message|answer] eqn:E.
    + eexists. split; [reflexivity|]. cbn [fetched state_after shown success error].
      split; [exact Hf|]. split.
      { intros Hblank. rewrite Hblank in Etrim. discriminate. }
      split; [discriminate|]. intros _. split; [exact Hr|].
      exists message. split; [reflexivity|]. intros _. eexists. reflexivity.
    + eexists. split; [reflexivity|]. cbn [fetched state_after shown success error].
      split; [exact Hf|]. split.
      { intros Hblank. rewrite Hblank in Etrim. discriminate. }
      destruct Hr as (Hne & Ht & Hst & Hone). destruct Hui as [ui Hui].
      split; [|discriminate]. intros _. exists answer, ui.
      repeat split; assumption.
  - assert (Hblank : negb (truthy text) || negb false = true) by apply orb_true_r.
    rewrite Hblank.
    eexists. split; [reflexivity|]. cbn [fetched state_after shown success error].
    split; [cbn; lia|]. split; [intros _; repeat split|].
    split; [discriminate|]. intros _. split; [reflexivity|].
    exists "Empty message". split; [reflexivity|].
    intros Hne. exfalso. apply Hne. unfold truthy in Etrim.
    destruct (trim text); [reflexivity|discriminate].
Qed.


Lemma known_model_truthy :
  forall m, isGeminiModel m || isGroqModel m = true -> truthy m = true.
Proof. intros [|c m] H; [discriminate|reflexivity]. Qed.

Lemma models_are_distinct :
  forall m, isGeminiModel m = true -> isGroqModel m = false.
Proof.
  intros m H. unfold isGeminiModel, GEMINI_MODELS in H. cbn [existsb] in H.
  repeat (apply orb_true_iff in H; destruct H as [H|H]);
    try discriminate; apply String.eqb_eq in H; rewrite H; reflexivity.
Qed.

Lemma requestGemini_fetches :
  forall localStorage backend st text imageBase64,
    truthy (trim (or_else (localStorage "apiKey") "")) = true ->
    length (fetched (requestGemini Number_of_string localStorage backend st text
                                   imageBase64)) = 1.
Proof.
  intros localStorage backend st text imageBase64 Hkey. unfold requestGemini.
  rewrite Hkey. cbn [negb].
  match goal with
  | |- context [backend ?r] => destruct (backend r) as [m|status details|[m|parts]]
  end; try reflexivity.
  match goal with
  | |- context [truthy (trim ?raw)] => destruct (truthy (trim raw))
  end; reflexivity.
Qed.

Lemma requestGroq_fetches :
  forall localStorage backend st text imageBase64,
    truthy (trim (or_else (localStorage "groqApiKey") "")) = true ->
    isGroqModel (model st) = true ->
    length (fetched (requestGroq Number_of_string delta_content localStorage
                                 backend st text imageBase64)) = 1.
Proof.
  intros localStorage backend st text imageBase64 Hkey Hmodel. unfold requestGroq.
  rewrite Hkey. cbn [negb].
  rewrite (known_model_truthy (model st)) by (rewrite Hmodel; apply orb_true_r).
  unfold isGroqModel in Hmodel.
  destruct (lookup (model st) GROQ_MODEL_IDS) as [modelId|]; [|discriminate].
  match goal with
  | |- context [backend ?r] =>
      destruct (backend r) as [m|status details| |chunks [|m]]
  end; try reflexivity.
  destruct (truthy (trim (completeText (read_stream delta_content chunks))));
    reflexivity.
Qed.

Lemma sendTextMessage_fetches :
  forall localStorage gemini groq screenshot st text,
    initialized st = true ->
    (isGeminiModel (model st) = true
     /\ truthy (trim (or_else (localStorage "apiKey") "")) = true)
    \/ (isGroqModel (model st) = true
        /\ truthy (trim (or_else (localStorage "groqApiKey") "")) = true) ->
    trim text <> "" ->
    length (fetched (sendTextMessage Number_of_string delta_content localStorage
                                     gemini groq screenshot st text)) = 1.
Proof.
  intros localStorage gemini groq screenshot st text Hinit Hkeyed Htrim.
  unfold sendTextMessage.
  assert (Et : truthy (trim text) = true)
    by (destruct (trim text); [contradiction Htrim; reflexivity|reflexivity]).
  assert (Etext : truthy text = true)
    by (destruct text; [discriminate|reflexivity]).
  rewrite Et, Etext. cbn [negb orb].
  set (img := if mediaStream st
              then match screenshot with inr data => data | inl _ => None end
              else None).
  assert (Hsend : length (fetched (sendMessageInternal Number_of_string delta_content
                                     localStorage gemini groq st (trim text) img))
                  = 1).
  { unfold sendMessageInternal. rewrite Hinit. cbn [negb].
    destruct Hkeyed as [[Hm Hk]|[Hm Hk]].
    - rewrite Hm.
      pose proof (requestGemini_fetches localStorage gemini st (trim text) img Hk)
        as Hone.
      destruct (returned (requestGemini Number_of_string localStorage gemini st
                            (trim text) img)); exact Hone.
    - destruct (isGeminiModel (model st)) eqn:Eg.
      + rewrite (models_are_distinct _ Eg) in Hm. discriminate.
      + rewrite Hm.
        pose proof (requestGroq_fetches localStorage groq st (trim text) img Hk Hm)
          as Hone.
        destruct (returned (requestGroq Number_of_string delta_content localStorage
                              groq st (trim text) img)); exact Hone. }
  unfold report.
  destruct (returned (sendMessageInternal Number_of_string delta_content
                        localStorage gemini groq st (trim text) img)); exact Hsend.
Qed.

Lemma sendTextMessage_uninitialised :
  forall localStorage gemini groq screenshot st text,
    initialized st = false ->
    let r := sendTextMessage Number_of_string delta_content localStorage
               gemini groq screenshot st text in
    fetched r = []
    /\ exists message,
         returned r = inr {| success := false; error := Some message |}.
Proof.
  intros localStorage gemini groq screenshot st text Hinit. cbv zeta.
  unfold sendTextMessage.
  destruct (negb (truthy text) || negb (truthy (trim text)));
    [split; [reflexivity|eexists; reflexivity]|].
  unfold sendMessageInternal. rewrite Hinit. cbn [negb].
  split; [reflexivity|eexists; reflexivity].
Qed.

(** X18. [initializeGemini] succeeds exactly when the model chosen is
    a known one whose API key is stored and not blank; otherwise it
    throws [Missing Gemini API key], [Missing Groq API key] or
    [Unsupported model].  In every case it has already cleared the
    history and overwritten profile, language, mode and model; only a
    success sets [initialized].  After a failed initialisation of a
    state that was not initialised, [sendTextMessage] fetches nothing
    and reports a failure, whatever the text; after a success, a text
    that is not blank makes exactly one request. *)
Theorem initializeGemini_guards_the_requests :
  forall localStorage micGranted gemini groq screenshot st
         profile language mode model text,
    let i := initializeGemini localStorage micGranted st profile language mode model in
    let chosen :=
      if truthy model then model
      else or_else (localStorage "selectedModel") "llama-4-maverick" in
    let keyed :=
      (isGeminiModel chosen && truthy (trim (or_else (localStorage "apiKey") "")))
      || (isGroqModel chosen && truthy (trim (or_else (localStorage "groqApiKey") ""))) in
    let r := sendTextMessage Number_of_string delta_content localStorage
               gemini groq screenshot (init_state i) text in
    history (init_state i) = []
    /\ WebApp.model (init_state i) = chosen
    /\ WebApp.mode (init_state i) = mode
    /\ WebApp.profile (init_state i) = profile
    /\ WebApp.language (init_state i) = language
    /\ (if keyed
        then init_returned i = inr true
             /\ initialized (init_state i) = true
             /\ (trim text <> "" -> length (fetched r) = 1)
        else init_returned i
             = inl (if isGeminiModel chosen then "Missing Gemini API key"
                    else if isGroqModel chosen then "Missing Groq API key"
                    else "Unsupported model: " ++ chosen)
             /\ initialized (init_state i) = initialized st
             /\ init_microphoneEnabled i = None
             /\ (initialized st = false ->
                 fetched r = []
                 /\ exists message,
                      returned r = inr {| success := false; error := Some message |})).
Proof.
  intros localStorage micGranted gemini groq screenshot st
         profile language mode model text. cbv zeta.
  set (chosen := if truthy model then model
                 else or_else (localStorage "selectedModel") "llama-4-maverick").
  set (gkey := truthy (trim (or_else (localStorage "apiKey") ""))).
  set (qkey := truthy (trim (or_else (localStorage "groqApiKey") ""))).
  set (i := initializeGemini localStorage micGranted st profile language mode model).
  assert (Hfields : history (init_state i) = []
                    /\ WebApp.model (init_state i) = chosen
                    /\ WebApp.mode (init_state i) = mode
                    /\ WebApp.profile (init_state i) = profile
                    /\ WebApp.language (init_state i) = language).
  { subst i. unfold initializeGemini. fold chosen gkey qkey.
    destruct (isGeminiModel chosen && negb gkey);
      [repeat split|].
    destruct (isGroqModel chosen && negb qkey); [repeat split|].
    destruct (negb (isGeminiModel chosen) && negb (isGroqModel chosen));
      repeat split. }
  destruct Hfields as (Hh & Hm & Hmode & Hp & Hl).
  split; [exact Hh|]. split; [exact Hm|]. split; [exact Hmode|].
  split; [exact Hp|]. split; [exact Hl|].
  assert (Hfailed : forall message,
            i = {| init_returned := inl message;
                   init_state :=
                     {| initialized := initialized st; mode := mode;
                        profile := profile; language := language;
                        model := chosen; history := [];
                        mediaStream := mediaStream st;
                        imageQuality := imageQuality st |};
                   init_microphoneEnabled := None; init_shown := [];
                   init_calls := [] |} ->
            init_returned i = inl message
            /\ initialized (init_state i) = initialized st
            /\ init_microphoneEnabled i = None
            /\ (initialized st = false ->
                fetched (sendTextMessage Number_of_string delta_content localStorage
                           gemini groq screenshot (init_state i) text) = []
                /\ exists message,
                     returned (sendTextMessage Number_of_string delta_content
                                 localStorage gemini groq screenshot
                                 (init_state i) text)
                     = inr {| success := false; error := Some message |})).
  { intros message Hi. rewrite Hi. cbn [init_returned init_state
                                        init_microphoneEnabled initialized].
    split; [reflexivity|]. split; [reflexivity|]. split; [reflexivity|].
    intros Hinit. apply sendTextMessage_uninitialised. exact Hinit. }
  destruct (isGeminiModel chosen) eqn:Eg.
  - pose proof (models_are_distinct _ Eg) as Eq. rewrite Eq.
    cbn [andb orb]. rewrite orb_false_r.
    destruct gkey eqn:Ek.
    + assert (Hi : init_returned i = inr true /\ initialized (init_state i) = true).
      { subst i. unfold initializeGemini. fold chosen gkey qkey.
        rewrite Eg, Eq, Ek. cbn. split; reflexivity. }
      destruct Hi as [Hr Hinit]. split; [exact Hr|]. split; [exact Hinit|].
      intros Htrim. apply sendTextMessage_fetches; [exact Hinit| |exact Htrim].
      left. rewrite Hm. split; [exact Eg|exact Ek].
    + cbv iota. apply (Hfailed "Missing Gemini API key").
      subst i. unfold initializeGemini. fold chosen gkey qkey.
      rewrite Eg, Ek. reflexivity.
  - cbn [andb orb]. destruct (isGroqModel chosen) eqn:Eq; cbn [andb].
    + destruct qkey eqn:Ek.
      * assert (Hi : init_returned i = inr true
                     /\ initialized (init_state i) = true).
        { subst i. unfold initializeGemini. fold chosen gkey qkey.
          rewrite Eg, Eq, Ek. cbn. split; reflexivity. }
        destruct Hi as [Hr Hinit]. split; [exact Hr|]. split; [exact Hinit|].
        intros Htrim. apply sendTextMessage_fetches; [exact Hinit| |exact Htrim].
        right. rewrite Hm. split; [exact Eq|exact Ek].
      * cbv iota. apply (Hfailed "Missing Groq API key").
        subst i. unfold initializeGemini. fold chosen gkey qkey.
        rewrite Eg, Eq, Ek. reflexivity.
    + cbv iota. apply (Hfailed ("Unsupported model: " ++ chosen)).
      subst i. unfold initializeGemini. fold chosen gkey qkey.
      rewrite Eg, Eq. reflexivity.
Qed.

End BrowserRequests.

(** ** The event stream of [requestGroq] *)

Section EventStream.

Import JsString WebApp.
Local Open Scope string_scope.

Variable delta_content : string -> option string.

Lemma split_nonempty : forall sep s, split sep s <> [].
Proof.
  intros sep s. destruct s as [|c rest]; cbn [split]; [discriminate|].
  destruct (Ascii.eqb c sep); [discriminate|].
  destruct (split sep rest); discriminate.
Qed.

Lemma string_app_assoc :
  forall a b c : string, ((a ++ b) ++ c)%string = (a ++ (b ++ c))%string.
Proof.
  induction a as [|x a IH]; intros b c; cbn; [reflexivity|].
  rewrite IH. reflexivity.
Qed.

Lemma string_app_nil_r : forall a : string, (a ++ "")%string = a.
Proof. induction a as [|x a IH]; cbn; [reflexivity|]. rewrite IH. reflexivity. Qed.

(** Splitting commutes with the arrival of more text: the complete
    segments of [a] stay, and its last segment goes on into [b]. *)
Lemma split_app :
  forall sep a b,
    split sep (a ++ b)
      = (removelast (split sep a) ++ split sep (last (split sep a) "" ++ b))%list.
Proof.
  intros sep a b. induction a as [|c a IH]; [reflexivity|].
  cbn [split String.append].
  pose proof (split_nonempty sep a) as Hne.
  destruct (Ascii.eqb c sep) eqn:Ec; rewrite IH;
    destruct (split sep a) as [|f m] eqn:E; try contradiction.
  - reflexivity.
  - destruct m as [|g m]; [|reflexivity].
    cbn [removelast last app String.append split]. rewrite Ec. reflexivity.
Qed.

Lemma split_last_whole :
  forall sep s, split sep (last (split sep s) "") = [last (split sep s) ""].
Proof.
  intros sep s. induction s as [|c s IH]; [reflexivity|].
  cbn [split]. pose proof (split_nonempty sep s) as Hne.
  destruct (Ascii.eqb c sep) eqn:Ec;
    destruct (split sep s) as [|f m] eqn:E; try contradiction.
  - exact IH.
  - destruct m as [|g m]; [|exact IH].
    cbn [last] in *. cbn [split]. rewrite Ec, IH. reflexivity.
Qed.

Lemma last_app_nonempty :
  forall {A : Type} (l l' : list A) d, l' <> [] -> last (l ++ l') d = last l' d.
Proof.
  intros A l l' d H. induction l as [|x l IH]; [reflexivity|].
  cbn [app last]. destruct (l ++ l')%list eqn:E; [|exact IH].
  apply app_eq_nil in E. destruct E as [_ E]. contradiction.
Qed.

Lemma process_line_with_buffer :
  forall buffer line s,
    process_line delta_content line (with_buffer buffer s)
      = with_buffer buffer (process_line delta_content line s).
Proof.
  intros buffer line s. unfold process_line.
  destruct (strip_prefix "data: " line) as [rest|]; [|reflexivity].
  destruct (trim rest =? "[DONE]"); [reflexivity|].
  destruct (delta_content (trim rest)) as [delta|]; [|reflexivity].
  destruct (truthy delta); reflexivity.
Qed.

Lemma process_lines_with_buffer :
  forall buffer lines s,
    fold_left (fun acc line => process_line delta_content line acc) lines
              (with_buffer buffer s)
      = with_buffer buffer
          (fold_left (fun acc line => process_line delta_content line acc) lines s).
Proof.
  intros buffer lines. induction lines as [|line lines IH]; intros s; [reflexivity|].
  cbn [fold_left]. rewrite process_line_with_buffer. apply IH.
Qed.

Lemma with_buffer_twice :
  forall a b s, with_buffer a (with_buffer b s) = with_buffer a s.
Proof. reflexivity. Qed.

Lemma or_else_self : forall s, or_else (Some s) "" = s.
Proof. intros [|c s]; reflexivity. Qed.

Lemma read_chunk_lines :
  forall s decoded,
    read_chunk delta_content s decoded
      = with_buffer (last (split LF (streamBuffer s ++ decoded)) "")
          (fold_left (fun acc line => process_line delta_content line acc)
                     (removelast (split LF (streamBuffer s ++ decoded))) s).
Proof.
  intros s decoded. unfold read_chunk. rewrite or_else_self.
  rewrite <- process_lines_with_buffer. reflexivity.
Qed.

(** The loop over the chunks processes the complete lines of all the
    text received, and keeps what follows the last line feed. *)
Lemma read_chunks_lines :
  forall chunks s,
    split LF (streamBuffer s) = [streamBuffer s] ->
    fold_left (read_chunk delta_content) chunks s
      = with_buffer
          (last (split LF (streamBuffer s ++ String.concat "" chunks)) "")
          (fold_left (fun acc line => process_line delta_content line acc)
             (removelast (split LF (streamBuffer s ++ String.concat "" chunks)))
             s).
Proof.
  induction chunks as [|chunk chunks IH]; intros s Hbuf.
  - cbn [fold_left String.concat]. rewrite string_app_nil_r, Hbuf.
    destruct s; reflexivity.
  - assert (Hcat : String.concat "" (chunk :: chunks)
                   = chunk ++ String.concat "" chunks).
    { destruct chunks; cbn [String.concat]; [rewrite string_app_nil_r|];
        reflexivity. }
    rewrite Hcat, <- string_app_assoc, split_app.
    set (L1 := split LF (streamBuffer s ++ chunk)).
    set (L2 := split LF (last L1 "" ++ String.concat "" chunks)).
    assert (Hne : L2 <> []) by apply split_nonempty.
    rewrite (removelast_app _ Hne), (last_app_nonempty _ _ _ Hne), fold_left_app.
    cbn [fold_left]. rewrite read_chunk_lines. fold L1.
    rewrite IH by (cbn [with_buffer streamBuffer]; apply split_last_whole).
    cbn [with_buffer streamBuffer]. fold L2.
    rewrite process_lines_with_buffer. reflexivity.
Qed.

(** X19. The reading loop of [requestGroq] does not depend on how the
    network cuts the response into chunks: the answer text, the
    snapshots shown and the pending text are those of the whole text
    read as one chunk.  The lines processed are exactly the segments of
    the whole text that end with a line feed, in order; what follows
    the last line feed is kept as pending text and never processed. *)
Theorem groq_stream_chunking_irrelevant :
  forall chunks,
    let whole := String.concat "" chunks in
    read_stream delta_content chunks = read_stream delta_content [whole]
    /\ read_stream delta_content chunks
       = fold_left (fun acc line => process_line delta_content line acc)
           (removelast (split LF whole))
           {| streamBuffer := last (split LF whole) "";
              completeText := ""; snapshots := [] |}.
Proof.
  intros chunks whole.
  assert (H : forall cs,
            read_stream delta_content cs
            = fold_left (fun acc line => process_line delta_content line acc)
                (removelast (split LF (String.concat "" cs)))
                {| streamBuffer := last (split LF (String.concat "" cs)) "";
                   completeText := ""; snapshots := [] |}).
  { intros cs. unfold read_stream.
    rewrite read_chunks_lines by reflexivity. cbn [streamBuffer String.append].
    rewrite <- process_lines_with_buffer. reflexivity. }
  split; [|apply H].
  rewrite (H chunks), (H [whole]). reflexivity.
Qed.

End EventStream.

(** ** Words: what normalisation keeps *)

Section Words.

Import JsString SpeechQueue WebApp.
Local Open Scope string_scope.

Lemma join_cons : forall w ws, join (w :: ws) = w ++ join_after ws.
Proof.
  intros w [|x ws]; unfold join, join_after; cbn [String.concat].
  - rewrite string_app_nil_r. reflexivity.
  - reflexivity.
Qed.

Lemma words_from_head :
  forall s,
    match s with
    | EmptyString => fst (words_from s) = ""
    | String c _ =>
        if is_space c then fst (words_from s) = "" else fst (words_from s) <> ""
    end.
Proof.
  intros [|c s]; [reflexivity|]. cbn [words_from].
  destruct (words_from s) as [w ws]. destruct (is_space c); [reflexivity|discriminate].
Qed.

(** Every word is a word. *)
Lemma words_from_are_words :
  forall s,
    no_space (fst (words_from s)) = true
    /\ Forall (fun w => is_a_word w = true) (snd (words_from s)).
Proof.
  induction s as [|c s IH]; [split; [reflexivity|constructor]|].
  cbn [words_from]. destruct (words_from s) as [w ws]. cbn [fst snd] in IH.
  destruct IH as [Hw Hws]. destruct (is_space c) eqn:E; cbn [fst snd].
  - split; [reflexivity|]. destruct w as [|d w]; [exact Hws|].
    cbn [cons_word]. constructor; [|exact Hws].
    unfold is_a_word. rewrite Hw. reflexivity.
  - split; [|exact Hws]. cbn [no_space]. rewrite E, Hw. reflexivity.
Qed.

Lemma words_are_words : forall s, Forall (fun w => is_a_word w = true) (words s).
Proof.
  intros s. unfold words. destruct (words_from_are_words s) as [Hw Hws].
  destruct (fst (words_from s)) as [|d w] eqn:E; [exact Hws|].
  cbn [cons_word]. constructor; [|exact Hws].
  unfold is_a_word. rewrite Hw. reflexivity.
Qed.

Lemma join_empty :
  forall ws, Forall (fun w => is_a_word w = true) ws -> join ws = "" -> ws = [].
Proof.
  intros [|w ws] H E; [reflexivity|]. exfalso.
  inversion H as [|? ? Hw _]; subst. rewrite join_cons in E.
  destruct w; [discriminate|discriminate].
Qed.

Lemma trimEnd_cons :
  forall c s, is_space c = false -> trimEnd (String c s) = String c (trimEnd s).
Proof.
  intros c s H. cbn [trimEnd]. rewrite H. destruct (trimEnd s); reflexivity.
Qed.

Lemma trimEnd_space :
  forall s, trimEnd (String " " s)
            = match trimEnd s with "" => "" | kept => String " " kept end.
Proof. intros s. cbn [trimEnd]. destruct (trimEnd s); reflexivity. Qed.

(** What is left of a collapsed text once its end is trimmed. *)
Lemma trimEnd_collapse :
  forall s,
    trimEnd (collapse_spaces false s)
      = fst (words_from s) ++ join_after (snd (words_from s))
    /\ trimEnd (collapse_spaces true s) = join (words s).
Proof.
  induction s as [|c s IH]; [split; reflexivity|].
  destruct IH as [IHf IHt].
  pose proof (words_are_words s) as Hwords.
  unfold words in *. cbn [words_from collapse_spaces].
  destruct (words_from s) as [w ws]. cbn [fst snd] in *.
  destruct (is_space c) eqn:E; cbn [fst snd cons_word].
  - split; [|exact IHt].
    rewrite trimEnd_space, IHt. cbn [String.append].
    destruct (cons_word w ws) as [|x l] eqn:El; [reflexivity|].
    destruct (join (x :: l)) eqn:Ej;
      [|unfold join_after; rewrite Ej; reflexivity].
    apply (join_empty _ Hwords) in Ej. discriminate.
  - rewrite trimEnd_cons by exact E. rewrite IHf.
    split; [reflexivity|]. rewrite join_cons. reflexivity.
Qed.

Lemma collapse_true_no_leading_space :
  forall s, no_leading_space (collapse_spaces true s) = true.
Proof.
  induction s as [|c s IH]; [reflexivity|].
  cbn [collapse_spaces]. destruct (is_space c) eqn:E; [exact IH|].
  cbn [no_leading_space]. rewrite E. reflexivity.
Qed.

Lemma normalizeSpeechText_words :
  forall text, normalizeSpeechText text = join (words text).
Proof.
  intros text. unfold normalizeSpeechText, trim.
  destruct text as [|c s]; [reflexivity|].
  destruct (trimEnd_collapse (String c s)) as [Hf _].
  destruct (trimEnd_collapse s) as [_ Ht].
  pose proof (words_from_head (String c s)) as Hhead.
  cbn [collapse_spaces] in *. unfold words in *. cbn [words_from] in *.
  destruct (words_from s) as [w ws]. cbn [fst snd] in *.
  destruct (is_space c) eqn:E; cbn [fst snd cons_word] in *.
  - cbn [trimStart]. change (is_space " ") with true. cbn iota.
    rewrite (trimStart_fixed _ (collapse_true_no_leading_space s)). exact Ht.
  - cbn [trimStart]. rewrite E. rewrite Hf, join_cons. reflexivity.
Qed.

(** X20. [normalizeSpeechText] yields the words of the text, that is
    its maximal runs of characters other than white space, in order and
    joined by single spaces: nothing else of the white space is kept,
    and no character of a word is changed. *)
Theorem normalizeSpeechText_joins_words :
  forall text,
    normalizeSpeechText text = String.concat " " (words text)
    /\ Forall (fun w => is_a_word w = true) (words text).
Proof.
  intros text. split; [apply normalizeSpeechText_words|apply words_are_words].
Qed.

Lemma cons_word_app :
  forall w ws more, cons_word w (ws ++ more) = (cons_word w ws ++ more)%list.
Proof. intros [|c w] ws more; reflexivity. Qed.

(** The words of two texts put side by side with a space between. *)
Lemma words_app :
  forall a b, words (a ++ " " ++ b) = (words a ++ words b)%list.
Proof.
  intros a b.
  assert (H : words_from (a ++ " " ++ b)
              = (fst (words_from a), (snd (words_from a) ++ words b)%list)).
  { induction a as [|c a IH].
    - cbn [String.append words_from]. change (is_space " ") with true.
      unfold words. destruct (words_from b) as [w ws]. reflexivity.
    - cbn [String.append words_from]. cbn [String.append] in IH. rewrite IH.
      destruct (words_from a) as [w ws]. cbn [fst snd].
      destruct (is_space c); cbn [fst snd]; [|reflexivity].
      rewrite cons_word_app. reflexivity. }
  unfold words at 1. rewrite H. cbn [fst snd]. apply cons_word_app.
Qed.

Lemma words_from_word :
  forall w, no_space w = true -> words_from w = (w, []).
Proof.
  induction w as [|c w IH]; intros H; [reflexivity|].
  cbn [no_space] in H. apply andb_true_iff in H. destruct H as [Hc Hw].
  apply negb_true_iff in Hc. cbn [words_from]. rewrite (IH Hw), Hc. reflexivity.
Qed.

Lemma words_of_word : forall w, is_a_word w = true -> words w = [w].
Proof.
  intros w H. unfold is_a_word in H. apply andb_true_iff in H.
  destruct H as [Hne Hns]. unfold words. rewrite (words_from_word w Hns).
  destruct w; [discriminate|reflexivity].
Qed.

(** Joining words and splitting again gives the words. *)
Lemma words_join :
  forall ws, Forall (fun w => is_a_word w = true) ws -> words (join ws) = ws.
Proof.
  induction ws as [|w ws IH]; intros H; [reflexivity|].
  inversion H as [|? ? Hw Hws]; subst.
  destruct ws as [|x ws].
  - unfold join. cbn [String.concat]. apply words_of_word, Hw.
  - change (join (w :: x :: ws)) with (w ++ " " ++ join (x :: ws)).
    rewrite words_app, (words_of_word w Hw), (IH Hws). reflexivity.
Qed.

Lemma words_normalizeSpeechText :
  forall text, words (normalizeSpeechText text) = words text.
Proof.
  intros text. rewrite normalizeSpeechText_words.
  apply words_join, words_are_words.
Qed.

Lemma normalizeSpeechText_by_words :
  forall a b, words a = words b -> normalizeSpeechText a = normalizeSpeechText b.
Proof.
  intros a b H.
  rewrite (normalizeSpeechText_words a), (normalizeSpeechText_words b), H.
  reflexivity.
Qed.

Lemma words_concat :
  forall texts,
    words (String.concat " " texts) = flat_map words texts.
Proof.
  induction texts as [|t texts IH]; [reflexivity|].
  destruct texts as [|u texts].
  - cbn [String.concat flat_map]. rewrite app_nil_r. reflexivity.
  - change (String.concat " " (t :: u :: texts))
      with (t ++ " " ++ String.concat " " (u :: texts)).
    rewrite words_app, IH. reflexivity.
Qed.

(** One result appends the words of its transcript to the buffer of
    its mode, when it is final. *)
Lemma on_result_words :
  forall vadMode s r,
    let s' := on_result vadMode s r in
    let said := if isFinal r then words (or_else (transcript r) "") else [] in
    microphoneEnabled s' = microphoneEnabled s
    /\ queue s' = queue s
    /\ (if vadMode =? "manual"
        then words (speechManualBuffer s') = (words (speechManualBuffer s) ++ said)%list
             /\ speechAutoBuffer s' = speechAutoBuffer s
        else words (speechAutoBuffer s') = (words (speechAutoBuffer s) ++ said)%list
             /\ speechManualBuffer s' = speechManualBuffer s).
Proof.
  intros vadMode s r. cbv zeta. unfold on_result.
  set (raw := or_else (transcript r) "").
  destruct (truthy (normalizeSpeechText raw)) eqn:Et; cbn [negb].
  - destruct (isFinal r); cbn [negb].
    + destruct (vadMode =? "manual");
        cbn [microphoneEnabled queue speechManualBuffer speechAutoBuffer];
        rewrite words_normalizeSpeechText, words_app, words_normalizeSpeechText;
        repeat split.
    + destruct (vadMode =? "manual"); rewrite app_nil_r; repeat split.
  - assert (Hnone : words raw = []).
    { rewrite <- words_normalizeSpeechText. unfold truthy in Et.
      destruct (normalizeSpeechText raw); [reflexivity|discriminate]. }
    rewrite Hnone. destruct (isFinal r), (vadMode =? "manual");
      rewrite app_nil_r; repeat split.
Qed.

Lemma on_results_words :
  forall vadMode results s,
    let s' := fold_left (on_result vadMode) results s in
    let said :=
      flat_map words (map (fun r => or_else (transcript r) "")
                          (filter isFinal results)) in
    microphoneEnabled s' = microphoneEnabled s
    /\ queue s' = queue s
    /\ (if vadMode =? "manual"
        then words (speechManualBuffer s') = (words (speechManualBuffer s) ++ said)%list
             /\ speechAutoBuffer s' = speechAutoBuffer s
        else words (speechAutoBuffer s') = (words (speechAutoBuffer s) ++ said)%list
             /\ speechManualBuffer s' = speechManualBuffer s).
Proof.
  intros vadMode results. induction results as [|r results IH]; intros s; cbv zeta.
  - cbn. destruct (vadMode =? "manual"); rewrite app_nil_r; repeat split.
  - cbn [fold_left filter].
    destruct (on_result_words vadMode s r) as (Hm & Hq & Hb).
    destruct (IH (on_result vadMode s r)) as (Im & Iq & Ib).
    rewrite Im, Iq, Hm, Hq. split; [reflexivity|]. split; [reflexivity|].
    destruct (vadMode =? "manual"); destruct Hb as [Hb Hk]; destruct Ib as [Ib Ik];
      rewrite Ib, Ik, Hb, Hk; (split; [|reflexivity]);
      destruct (isFinal r); cbn [map flat_map];
      rewrite <- ?app_assoc, ?app_nil_r; reflexivity.
Qed.

Lemma onresult_events_words :
  forall localStorage events s,
    microphoneEnabled s = true ->
    let s' := fold_left (fun acc results => onresult localStorage results acc)
                        events s in
    let said := flat_map words (final_transcripts events) in
    microphoneEnabled s' = true
    /\ queue s' = queue s
    /\ (if getVadMode localStorage =? "manual"
        then words (speechManualBuffer s') = (words (speechManualBuffer s) ++ said)%list
             /\ speechAutoBuffer s' = speechAutoBuffer s
        else words (speechAutoBuffer s') = (words (speechAutoBuffer s) ++ said)%list
             /\ speechManualBuffer s' = speechManualBuffer s).
Proof.
  intros localStorage events. unfold final_transcripts.
  induction events as [|results events IH]; intros s Hmic; cbv zeta.
  - cbn. destruct (getVadMode localStorage =? "manual");
      rewrite app_nil_r; repeat split; assumption.
  - cbn [fold_left concat].
    assert (Hstep : onresult localStorage results s
                    = fold_left (on_result (getVadMode localStorage)) results s)
      by (unfold onresult; rewrite Hmic; reflexivity).
    rewrite Hstep.
    destruct (on_results_words (getVadMode localStorage) results s) as (Hm & Hq & Hb).
    destruct (IH (fold_left (on_result (getVadMode localStorage)) results s))
      as (Im & Iq & Ib); [rewrite Hm; exact Hmic|].
    rewrite Iq, Hq. split; [exact Im|]. split; [reflexivity|].
    rewrite filter_app, map_app, flat_map_app.
    destruct (getVadMode localStorage =? "manual");
      destruct Hb as [Hb Hk]; destruct Ib as [Ib Ik];
      rewrite Ib, Ik, Hb, Hk, <- app_assoc; split; reflexivity.
Qed.

Lemma enqueueSpeechText_by_words :
  forall a b q,
    words a = words b ->
    SpeechQueue.enqueueSpeechText a q = SpeechQueue.enqueueSpeechText b q.
Proof.
  intros a b q H. unfold enqueueSpeechText.
  rewrite (normalizeSpeechText_by_words a b H). reflexivity.
Qed.

Lemma flush_enqueues :
  forall buffer q,
    (if negb (truthy (normalizeSpeechText buffer)) then q
     else enqueueSpeechText (normalizeSpeechText buffer) q)
    = enqueueSpeechText buffer q.
Proof.
  intros buffer q.
  rewrite (enqueueSpeechText_by_words (normalizeSpeechText buffer) buffer q)
    by apply words_normalizeSpeechText.
  destruct (truthy (normalizeSpeechText buffer)) eqn:E; cbn [negb]; [reflexivity|].
  unfold enqueueSpeechText. rewrite E. reflexivity.
Qed.

(** X21. The final fragments a recognition session delivers while the
    microphone is enabled are coalesced: however they are spread over
    events and interleaved with interim results, the flush hands the
    speech queue one utterance, the fragments joined by spaces, exactly
    as if it had been heard in one piece, and empties the buffer.  So
    the heuristic judges the whole utterance and never a fragment.  The
    automatic mode uses the automatic buffer and flush, the manual mode
    the manual ones; the buffer of the other mode is not touched by the
    results. *)
Theorem final_fragments_are_coalesced :
  forall localStorage events s,
    microphoneEnabled s = true ->
    speechAutoBuffer s = "" ->
    speechManualBuffer s = "" ->
    let heard := fold_left (fun acc results => onresult localStorage results acc)
                           events s in
    let utterance := String.concat " " (final_transcripts events) in
    if getVadMode localStorage =? "manual" then
      queue (flushManualSpeech heard)
        = SpeechQueue.enqueueSpeechText utterance (queue s)
      /\ speechManualBuffer (flushManualSpeech heard) = ""
      /\ speechAutoBuffer heard = ""
    else
      queue (flushAutomaticSpeech heard)
        = SpeechQueue.enqueueSpeechText utterance (queue s)
      /\ speechAutoBuffer (flushAutomaticSpeech heard) = ""
      /\ speechFlushTimer (flushAutomaticSpeech heard) = false
      /\ speechManualBuffer heard = "".
Proof.
  intros localStorage events s Hmic Hauto Hmanual heard utterance.
  destruct (onresult_events_words localStorage events s Hmic) as (_ & Hq & Hb).
  fold heard in Hq, Hb.
  assert (Hu : words utterance = flat_map words (final_transcripts events))
    by apply words_concat.
  destruct (getVadMode localStorage =? "manual"); destruct Hb as [Hw Hk].
  - unfold flushManualSpeech. cbn [queue speechManualBuffer].
    rewrite flush_enqueues, Hq. split; [|split; [reflexivity|]].
    + apply enqueueSpeechText_by_words.
      rewrite Hw, Hmanual, Hu. reflexivity.
    + rewrite Hk. exact Hauto.
  - unfold flushAutomaticSpeech.
    cbn [queue speechAutoBuffer speechFlushTimer].
    rewrite flush_enqueues, Hq. split; [|repeat split].
    + apply enqueueSpeechText_by_words.
      rewrite Hw, Hauto, Hu. reflexivity.
    + rewrite Hk. exact Hmanual.
Qed.

Lemma is_space_lower_char : forall c, is_space (lower_char c) = is_space c.
Proof. intros [[] [] [] [] [] [] [] []]; reflexivity. Qed.

Lemma toLowerCase_app :
  forall a b, toLowerCase (a ++ b) = toLowerCase a ++ toLowerCase b.
Proof.
  induction a as [|c a IH]; intros b; [reflexivity|].
  cbn [String.append toLowerCase]. rewrite IH. reflexivity.
Qed.

Lemma cons_word_lower :
  forall w ws,
    cons_word (toLowerCase w) (map toLowerCase ws)
      = map toLowerCase (cons_word w ws).
Proof. intros [|c w] ws; reflexivity. Qed.

Lemma words_toLowerCase :
  forall s, words (toLowerCase s) = map toLowerCase (words s).
Proof.
  intros s.
  assert (H : words_from (toLowerCase s)
              = (toLowerCase (fst (words_from s)),
                 map toLowerCase (snd (words_from s)))).
  { induction s as [|c s IH]; [reflexivity|].
    cbn [toLowerCase words_from]. rewrite IH, is_space_lower_char.
    destruct (words_from s) as [w ws]. cbn [fst snd].
    destruct (is_space c); cbn [fst snd toLowerCase]; [|reflexivity].
    rewrite cons_word_lower. reflexivity. }
  unfold words. rewrite H. cbn [fst snd]. apply cons_word_lower.
Qed.

Lemma toLowerCase_join :
  forall ws, toLowerCase (join ws) = join (map toLowerCase ws).
Proof.
  induction ws as [|w ws IH]; [reflexivity|].
  destruct ws as [|x ws]; [reflexivity|].
  change (join (w :: x :: ws)) with (w ++ " " ++ join (x :: ws)).
  rewrite !toLowerCase_app, IH. reflexivity.
Qed.

Lemma toLowerCase_normalizeSpeechText :
  forall text,
    toLowerCase (normalizeSpeechText text) = join (words (toLowerCase text)).
Proof.
  intros text. rewrite (normalizeSpeechText_words text).
  rewrite toLowerCase_join, words_toLowerCase.
  reflexivity.
Qed.

Lemma join_app :
  forall ws more,
    ws <> [] -> join (ws ++ more) = join ws ++ join_after more.
Proof.
  induction ws as [|w ws IH]; intros more H; [contradiction|].
  destruct ws as [|x ws].
  - cbn [app]. rewrite join_cons. reflexivity.
  - change ((w :: x :: ws) ++ more)%list with (w :: ((x :: ws) ++ more))%list.
    rewrite !join_cons.
    change (join_after ((x :: ws) ++ more)) with (" " ++ join ((x :: ws) ++ more)).
    rewrite IH by discriminate.
    change (join_after (x :: ws)) with (" " ++ join (x :: ws)).
    rewrite !string_app_assoc. reflexivity.
Qed.

Lemma strip_prefix_app :
  forall p rest, strip_prefix p (p ++ rest) = Some rest.
Proof.
  induction p as [|c p IH]; intros rest; [destruct rest; reflexivity|].
  cbn [String.append strip_prefix]. rewrite Ascii.eqb_refl. apply IH.
Qed.

Lemma starts_with_word_opening :
  forall opening more,
    starts_with_word (opening ++ join_after more) opening = true.
Proof.
  intros opening more. unfold starts_with_word.
  rewrite strip_prefix_app. destruct more; reflexivity.
Qed.

(** Every opening is its own words joined, and has a word. *)
Lemma openings_are_joined :
  Forall (fun opening => join (words opening) = opening /\ words opening <> [])
         (questionWords ++ promptPhrases).
Proof. repeat constructor; discriminate. Qed.

Lemma includes_char :
  forall s c, includes s (String c "") = has_char c s.
Proof.
  induction s as [|d s IH]; intros c; [reflexivity|].
  cbn [includes has_char]. rewrite IH. unfold startsWith. cbn [strip_prefix].
  destruct (Ascii.eqb c d); [destruct s|]; reflexivity.
Qed.

Lemma has_char_app :
  forall c a b, has_char c (a ++ b) = has_char c a || has_char c b.
Proof.
  induction a as [|d a IH]; intros b; [reflexivity|].
  cbn [String.append has_char]. rewrite IH, orb_assoc. reflexivity.
Qed.

Lemma has_char_join :
  forall c ws,
    is_space c = false -> has_char c (join ws) = existsb (has_char c) ws.
Proof.
  intros c ws Hc. induction ws as [|w ws IH]; [reflexivity|].
  rewrite join_cons, has_char_app. cbn [existsb]. f_equal.
  destruct ws as [|x ws]; [reflexivity|].
  change (join_after (x :: ws)) with (String " " (join (x :: ws))).
  cbn [has_char]. rewrite IH.
  destruct (Ascii.eqb_spec c " ") as [->|_]; [discriminate|reflexivity].
Qed.

Lemma has_char_cons_word :
  forall c w ws,
    existsb (has_char c) (cons_word w ws) = has_char c w || existsb (has_char c) ws.
Proof. intros c [|d w] ws; reflexivity. Qed.

Lemma has_char_words :
  forall c s, is_space c = false -> has_char c s = existsb (has_char c) (words s).
Proof.
  intros c s Hc. unfold words. rewrite has_char_cons_word.
  induction s as [|d s IH]; [reflexivity|].
  cbn [has_char words_from]. rewrite IH.
  destruct (words_from s) as [w ws]. cbn [fst snd].
  destruct (is_space d) eqn:Ed; cbn [fst snd has_char].
  - rewrite has_char_cons_word.
    destruct (Ascii.eqb_spec c d) as [->|_]; [congruence|reflexivity].
  - rewrite orb_assoc. reflexivity.
Qed.

(** A character that is not white space is kept by the
    normalisation. *)
Lemma has_char_normalizeSpeechText :
  forall c text,
    is_space c = false ->
    has_char c (normalizeSpeechText text) = has_char c text.
Proof.
  intros c text Hc. rewrite (normalizeSpeechText_words text).
  rewrite (has_char_join c _ Hc), <- (has_char_words c text Hc). reflexivity.
Qed.

Lemma has_char_truthy : forall c s, has_char c s = true -> truthy s = true.
Proof. intros c [|d s] H; [discriminate|reflexivity]. Qed.

(** X22. What makes a text a question, in terms of the text as it was
    heard: a question mark anywhere in it; or leading words that are,
    without regard to case and whatever the white space around them,
    the words of one of the 24 question words or the 10 prompt phrases.
    A text without any word is never a question. *)
Theorem questions_by_their_words :
  forall text,
    (includes text "?" = true -> isLikelyQuestionText text = true)
    /\ (forall opening more,
          In opening (questionWords ++ promptPhrases) ->
          words (toLowerCase text) = (words opening ++ more)%list ->
          isLikelyQuestionText text = true)
    /\ (words text = [] -> isLikelyQuestionText text = false).
Proof.
  intros text. unfold isLikelyQuestionText. split; [|split].
  - intros Hq. rewrite includes_char in Hq.
    rewrite <- (has_char_normalizeSpeechText "?" text eq_refl) in Hq.
    rewrite (has_char_truthy _ _ Hq), includes_char, Hq. reflexivity.
  - intros opening more Hin Hwords.
    pose proof openings_are_joined as Hall. rewrite Forall_forall in Hall.
    destruct (Hall opening Hin) as [Hjoin Hne].
    assert (Hlower : toLowerCase (normalizeSpeechText text)
                     = opening ++ join_after more).
    { rewrite toLowerCase_normalizeSpeechText, Hwords, join_app by exact Hne.
      rewrite Hjoin. reflexivity. }
    assert (Htruthy : truthy (normalizeSpeechText text) = true).
    { destruct (normalizeSpeechText text); [|reflexivity].
      cbn [toLowerCase] in Hlower.
      destruct opening; [|discriminate].
      exfalso. apply Hne. reflexivity. }
    rewrite Htruthy. cbn [negb].
    destruct (includes (normalizeSpeechText text) "?"); [reflexivity|].
    rewrite Hlower. unfold begins_with_any.
    apply in_app_or in Hin. apply orb_true_iff.
    destruct Hin as [Hin|Hin]; [left|right]; apply existsb_exists;
      exists opening; (split; [exact Hin|apply starts_with_word_opening]).
  - intros Hnone. rewrite (normalizeSpeechText_words text), Hnone.
    reflexivity.
Qed.

End Words.

(** ** The port search of the development server *)

Section PortSearch.

Import DevServer.
Local Open Scope Z_scope.

Lemma startServer_search :
  forall listen attemptsLeft port,
    match startServer listen port attemptsLeft with
    | Running p =>
        port <= p <= port + Z.of_nat attemptsLeft
        /\ listen p = Listens
        /\ (forall q, port <= q < p -> listen q = AddressInUse)
    | Exited p =>
        port <= p <= port + Z.of_nat attemptsLeft
        /\ (forall q, port <= q < p -> listen q = AddressInUse)
        /\ (listen p = OtherError
            \/ (p = port + Z.of_nat attemptsLeft /\ listen p = AddressInUse))
    end.
Proof.
  intros listen. induction attemptsLeft as [|n IH]; intros port;
    cbn [startServer]; destruct (listen port) eqn:E.
  - split; [lia|]. split; [exact E|]. intros q Hq. lia.
  - split; [lia|]. split; [intros q Hq; lia|]. right. split; [lia|exact E].
  - split; [lia|]. split; [intros q Hq; lia|]. left. exact E.
  - split; [lia|]. split; [exact E|]. intros q Hq. lia.
  - specialize (IH (port + 1)).
    destruct (startServer listen (port + 1) n) as [p|p].
    + destruct IH as (Hr & Hl & Hu). split; [lia|]. split; [exact Hl|].
      intros q Hq. destruct (Z.eq_dec q port) as [->|Hne]; [exact E|].
      apply Hu. lia.
    + destruct IH as (Hr & Hu & Hend). split; [lia|]. split.
      * intros q Hq. destruct (Z.eq_dec q port) as [->|Hne]; [exact E|].
        apply Hu. lia.
      * destruct Hend as [Ho|[Hp Ha]]; [left; exact Ho|right].
        split; [lia|exact Ha].
  - split; [lia|]. split; [intros q Hq; lia|]. left. exact E.
Qed.

(** X23. The development server tries the port it is given and, while
    the address is in use, the next ones, 21 ports at most.  It ends up
    listening on the first port of that range that is not in use, when
    listening there succeeds; it exits when that port fails for another
    reason, or when all 21 ports are in use. *)
Theorem startServer_takes_first_free_port :
  forall listen port,
    match startServer listen port MAX_PORT_ATTEMPTS with
    | Running p =>
        port <= p <= port + 20
        /\ listen p = Listens
        /\ (forall q, port <= q < p -> listen q = AddressInUse)
    | Exited p =>
        port <= p <= port + 20
        /\ (forall q, port <= q < p -> listen q = AddressInUse)
        /\ (listen p = OtherError \/ (p = port + 20 /\ listen p = AddressInUse))
    end.
Proof.
  intros listen port. exact (startServer_search listen MAX_PORT_ATTEMPTS port).
Qed.

End PortSearch.

(** ** The speech queue drains *)

Section QueueDrains.

Import JsString SpeechQueue SpeechQueueSpec.

Lemma drain_loop_drained :
  forall queue s,
    all_truthy queue ->
    in_flight s = [] ->
    idle_means_drained (drain_loop queue s)
    /\ all_truthy (speechQueue (drain_loop queue s)).
Proof.
  intros [|nextText rest] s Hq Hidle; cbn [drain_loop].
  - split; [|constructor]. intros _. split; reflexivity.
  - inversion Hq as [|? ? Hx Hrest]; subst. rewrite Hx.
    split; [|exact Hrest]. intros H. cbn [in_flight] in H.
    rewrite Hidle in H. discriminate.
Qed.

Lemma step_drained :
  forall e s,
    serial s ->
    idle_means_drained s -> all_truthy (speechQueue s) ->
    (is_stop e = true -> in_flight s = []) ->
    every_call_resolves [e] = true ->
    idle_means_drained (step e s) /\ all_truthy (speechQueue (step e s)).
Proof.
  intros e s [Hlen Hflag] Hidle Hq Hstop Hres.
  destruct e as [text|k resolved|]; cbn [step].
  - unfold enqueueSpeechText.
    destruct (truthy (normalizeSpeechText text)) eqn:Et; cbn [negb];
      [|split; assumption].
    destruct (isLikelyQuestionText (normalizeSpeechText text)); cbn [negb];
      [|split; assumption].
    assert (Hq' : all_truthy (speechQueue s ++ [normalizeSpeechText text]))
      by (apply Forall_app; split; [exact Hq|repeat constructor; exact Et]).
    unfold processSpeechQueue. cbn [push processingSpeechQueue speechQueue].
    destruct (processingSpeechQueue s) eqn:Ep.
    + split; [|exact Hq']. intros H. cbn [in_flight] in H.
      exfalso. apply Hflag; [reflexivity|exact H].
    + apply drain_loop_drained; [exact Hq'|]. cbn [in_flight push].
      destruct (in_flight s) as [|y l]; [reflexivity|].
      assert (false = true) by (apply Hflag; discriminate). discriminate.
  - destruct resolved; [|discriminate].
    unfold settle. destruct (nth_error (in_flight s) k) as [x|] eqn:E;
      [|split; assumption].
    destruct (in_flight s) as [|y [|z l]] eqn:Ef; cbn [length] in Hlen; try lia.
    + destruct k; discriminate.
    + destruct k as [|k]; [|destruct k; discriminate].
      cbn [remove_nth speechQueue].
      apply drain_loop_drained; [exact Hq|reflexivity].
  - unfold stopCapture. split; [|constructor]. intros _. split; reflexivity.
Qed.

Lemma run_drained :
  forall events s,
    serial s ->
    idle_means_drained s -> all_truthy (speechQueue s) ->
    stops_only_when_idle events s = true ->
    every_call_resolves events = true ->
    idle_means_drained (run events s).
Proof.
  induction events as [|e events IH]; intros s Hs Hidle Hq Hstops Hres;
    [exact Hidle|].
  cbn [run stops_only_when_idle] in *.
  apply andb_true_iff in Hstops. destruct Hstops as [Hnow Hlater].
  assert (Hstop : is_stop e = true -> in_flight s = []).
  { intros He. rewrite He in Hnow.
    destruct (in_flight s); [reflexivity|discriminate]. }
  assert (He : every_call_resolves [e] = true /\ every_call_resolves events = true).
  { unfold every_call_resolves in *. cbn [forallb] in *.
    apply andb_true_iff in Hres. destruct Hres as [H1 H2].
    rewrite H1, H2. split; reflexivity. }
  destruct He as [He Hrest].
  destruct (step_drained e s Hs Hidle Hq Hstop He) as [Hidle' Hq'].
  apply IH; try assumption.
  apply step_serial; assumption.
Qed.

(** X24. The speech queue drains: in a run in which every awaited call
    resolves and [stopCapture] is not called under a call in flight, no
    text is left waiting while no call is in flight, and the flag is
    then clear.  So, as long as the queue is not cleared, once the last
    call has settled every accepted text has been sent, in the order of
    arrival. *)
Theorem speech_queue_drains :
  forall events,
    stops_only_when_idle events initial = true ->
    every_call_resolves events = true ->
    let s := run events initial in
    (in_flight s = [] -> speechQueue s = [] /\ processingSpeechQueue s = false)
    /\ (existsb is_stop events = false -> in_flight s = [] ->
        dispatched s = accepted_texts events).
Proof.
  intros events Hstops Hres s.
  assert (Hinit : serial initial).
  { split; cbn; [lia|]. split; [discriminate|congruence]. }
  assert (Hidle : idle_means_drained s).
  { apply run_drained; try assumption; [|constructor].
    intros _. split; reflexivity. }
  split; [exact Hidle|]. intros Hns Hin.
  pose proof (run_backlog events initial Hns (Forall_nil _)) as Hb.
  fold s in Hb. unfold backlog in Hb.
  destruct (Hidle Hin) as [Hq _]. rewrite Hq, app_nil_r in Hb. exact Hb.
Qed.

End QueueDrains.

(** ** More properties on concrete runs *)

Section MoreInstances.

Import JsString RateLimit Examples Samples.
Local Open Scope string_scope.

Example mono_of_two_frames :
  Pcm.convertStereoToMono [x01; x02; x03; x04; x05; x06; x07; x08]%byte
  = Some [x01; x02; x05; x06]%byte.
Proof. reflexivity. Qed.

Example words_of_a_padded_text :
  WebApp.words "  Tell   me about  it " = ["Tell"; "me"; "about"; "it"].
Proof. reflexivity. Qed.

Lemma rate_limit_countdown_from_whole_hint_witness :
  retry_hint retry_in_30 = Some (inject_Z 30)
  /\ recoveryMs (parseGeminiRateLimitError retry_in_30) = 32000%Z
  /\ rateLimitCountdownInterval
       (ticks 32 (Session.handle_error retry_in_30_error idle_timer)) = None.
Proof.
  split; [reflexivity|].
  pose proof (rate_limit_countdown_from_whole_hint
                retry_in_30_error retry_in_30 idle_timer 30
                eq_refl eq_refl eq_refl eq_refl) as H.
  cbv zeta in H. destruct H as (Hms & _ & _ & Hstop & _).
  split; [exact Hms|exact Hstop].
Defined.


Lemma overload_countdown_from_15_witness :
  rateLimitCountdownInterval (Session.handle_error overloaded_error idle_timer)
  = Some {| label := "Server Overloaded (Gemini)"; remainingSec := 15 |}
  /\ rateLimitCountdownInterval
       (ticks 15 (Session.handle_error overloaded_error idle_timer)) = None.
Proof.
  destruct (overload_countdown_from_15 overloaded_error overloaded idle_timer
              eq_refl eq_refl eq_refl) as (Hstart & _ & Hstop).
  split; [exact Hstart|exact Hstop].
Defined.

Lemma send_text_message_reports_success_witness :
  Ipc.current open_hub = Some fresh_session
  /\ Ipc.answer (Ipc.send_text_message sample_settings rate_limited open_hub
                   (Session.Str "  hello  "))
     = Ipc.succeeded
  /\ Ipc.send_text_message sample_settings rate_limited open_hub (Session.Str "   ")
     = Ipc.untouched (Ipc.failed "Invalid text message") open_hub.
Proof.
  split; [reflexivity|].
  destruct (send_text_message_reports_success sample_settings rate_limited
              open_hub fresh_session (Session.Str "  hello  ") eq_refl)
    as [_ Hvalid].
  destruct (send_text_message_reports_success sample_settings rate_limited
              open_hub fresh_session (Session.Str "   ") eq_refl)
    as [Hinvalid _].
  split.
  - apply (Hvalid "  hello  " eq_refl). discriminate.
  - apply Hinvalid. reflexivity.
Defined.

Lemma audio_content_is_dropped_witness :
  Ipc.send_audio_content sample_settings (answers "It depends.") open_hub
  = Ipc.untouched Ipc.succeeded open_hub.
Proof.
  exact (proj1 (audio_content_is_dropped sample_settings (answers "It depends.")
                  open_hub fresh_session eq_refl)).
Defined.

Lemma final_fragments_are_coalesced_witness :
  SpeechQueue.dispatched
    (WebApp.queue
       (WebApp.flushAutomaticSpeech
          (fold_left (fun acc results => WebApp.onresult nothing_stored results acc)
                     heard_in_two_parts listening)))
  = ["Tell me about hash maps"].
Proof.
  pose proof (final_fragments_are_coalesced nothing_stored heard_in_two_parts
                listening eq_refl eq_refl eq_refl) as H.
  cbv zeta in H.
  change (WebApp.getVadMode nothing_stored =? "manual") with false in H.
  cbv iota in H. destruct H as [Hq _].
  rewrite Hq. reflexivity.
Defined.

Lemma speech_queue_drains_witness :
  SpeechQueue.in_flight (SpeechQueue.run two_questions_answered SpeechQueue.initial)
  = []
  /\ SpeechQueue.dispatched
       (SpeechQueue.run two_questions_answered SpeechQueue.initial)
     = ["what is a heap?"; "why is it a tree?"].
Proof.
  split; [reflexivity|].
  destruct (speech_queue_drains two_questions_answered eq_refl eq_refl)
    as [_ Hsent].
  exact (Hsent eq_refl eq_refl).
Defined.

End MoreInstances.
